(** * Duplicate and near-duplicate function detectors

    A shallow embedding of
      scripts/repo/analysis/find_duplicate_functions.py
      scripts/repo/analysis/find_near_duplicate_functions.py
    and the properties their specification states about them.

    Layout:
    - [PyAst]    : the Python [ast] object model the two scripts work on
                   ([ast.walk], [ast.dump], the position attributes);
    - [Py]       : the Python run-time behaviour the scripts rely on
                   (binary64 floats, mixed int/float comparison,
                   [defaultdict(list)], stable [list.sort], exceptions, the
                   scanned files);
    - [ExactDup] : find_duplicate_functions.py;
    - [NearDup]  : find_near_duplicate_functions.py;
    - [Walker]   : [iter_py_files] and the scan order of both scripts;
    - [Markdown] : [write_markdown] of both scripts;
    - [Samples], [MoreSamples] : parsed sources and directory listings used
                   as concrete inputs;
    - [PyFacts], [PyAstFacts], [FloatFacts] : lemmas about the models;
    - [ExactDupSpec], [NearDupSpec], [NormalizerSpec], [ErrorHandlingSpec] :
                   the properties of the specification;
    - [FloatOrder], [SearchSpec], [NormalizerInvariance], [CollectSpec],
      [WalkerSpec], [MarkdownSpec] : further properties of the code. *)

From Stdlib Require Import List String Ascii ZArith Lia Bool Arith.
From Stdlib Require Import Permutation Sorted DecimalString DecimalNat.
From Stdlib Require Import Floats.SpecFloat.
Import ListNotations.

Local Open Scope string_scope.
Local Open Scope list_scope.

(* ================================================================== *)
(** * The Python [ast] object model *)
(* ================================================================== *)

Module PyAst.

(** Values stored in the fields of an [ast] node that are not nodes
    themselves.  [ARepr] stands for any other constant (float, bytes,
    complex, Ellipsis, the [None] of [Constant(value=None)]) through its
    [repr]. *)
Inductive atom : Type :=
| ANone
| AStr (s : string)
| AInt (z : Z)
| ARepr (r : string).

(** An [ast] object: class name, [_fields] in declaration order, and the
    attributes found on the instance ([lineno], [col_offset], [end_lineno],
    [end_col_offset]; a value can be [None]). *)
#[local] Unset Elimination Schemes.
Inductive value : Type :=
| Atom (a : atom)
| Lst (items : list value)
| Obj (cls : string) (fields : list (string * value))
      (attrs : list (string * option Z)).
#[local] Set Elimination Schemes.

Section value_induction.
Variable P : value -> Prop.
Hypothesis P_atom : forall a, P (Atom a).
Hypothesis P_lst : forall items, Forall P items -> P (Lst items).
Hypothesis P_obj : forall cls fields attrs,
  Forall (fun kv => P (snd kv)) fields -> P (Obj cls fields attrs).

Fixpoint value_ind' (v : value) : P v :=
  match v with
  | Atom a => P_atom a
  | Lst items =>
      P_lst items
        ((fix go (l : list value) : Forall P l :=
            match l with
            | [] => Forall_nil _
            | x :: l' => Forall_cons x (value_ind' x) (go l')
            end) items)
  | Obj cls fields attrs =>
      P_obj cls fields attrs
        ((fix go (l : list (string * value))
            : Forall (fun kv => P (snd kv)) l :=
            match l with
            | [] => Forall_nil _
            | kv :: l' =>
                Forall_cons kv
                  (match kv return P (snd kv) with
                   | (_, x) => value_ind' x
                   end) (go l')
            end) fields)
  end.
End value_induction.

(** ** Attribute and field access *)

Fixpoint assoc {A : Type} (k : string) (l : list (string * A)) : option A :=
  match l with
  | [] => None
  | (k', x) :: l' => if String.eqb k k' then Some x else assoc k l'
  end.

Fixpoint assoc_set {A : Type} (k : string) (x : A) (l : list (string * A))
  : list (string * A) :=
  match l with
  | [] => [(k, x)]
  | (k', y) :: l' =>
      if String.eqb k k' then (k', x) :: l' else (k', y) :: assoc_set k x l'
  end.

(** [getattr(node, k)] on a field; [None] models [AttributeError]. *)
Definition get_field (k : string) (v : value) : option value :=
  match v with
  | Obj _ fields _ => assoc k fields
  | _ => None
  end.

(** [node.k = x]. *)
Definition set_field (k : string) (x : value) (v : value) : value :=
  match v with
  | Obj cls fields attrs => Obj cls (assoc_set k x fields) attrs
  | _ => v
  end.

(** [getattr(node, "lineno", None)]. *)
Definition get_lineno (v : value) : option Z :=
  match v with
  | Obj _ _ attrs =>
      match assoc "lineno" attrs with
      | Some l => l
      | None => None
      end
  | _ => None
  end.

Definition class_of (v : value) : option string :=
  match v with
  | Obj cls _ _ => Some cls
  | _ => None
  end.

Definition isinstance (cls : string) (v : value) : bool :=
  match v with
  | Obj c _ _ => String.eqb c cls
  | _ => false
  end.

(** [isinstance(node, (ast.FunctionDef, ast.AsyncFunctionDef))]. *)
Definition is_function_def (v : value) : bool :=
  isinstance "FunctionDef" v || isinstance "AsyncFunctionDef" v.

Definition is_obj (v : value) : bool :=
  match v with
  | Obj _ _ _ => true
  | _ => false
  end.

(** ** [ast.iter_child_nodes] and [ast.walk] *)

(** The direct child nodes, in field order: a field that is a node, or the
    nodes among the items of a field that is a list. *)
Definition iter_child_nodes (v : value) : list value :=
  match v with
  | Obj _ fields _ =>
      flat_map
        (fun kv =>
           match snd kv with
           | Obj _ _ _ => [snd kv]
           | Lst items => filter is_obj items
           | Atom _ => []
           end) fields
  | _ => []
  end.

(** Number of nodes below (and including) a value: the number of
    iterations [ast.walk] makes. *)
Fixpoint node_count (v : value) : nat :=
  match v with
  | Atom _ => 0
  | Lst items => fold_right (fun x n => node_count x + n) 0 items
  | Obj _ fields _ =>
      S (fold_right (fun kv n => node_count (snd kv) + n) 0 fields)
  end.

(** [ast.walk]: a deque seeded with the node; pop left, push the children
    right, yield the popped node. *)
Fixpoint walk_queue (fuel : nat) (todo : list value) : list value :=
  match fuel, todo with
  | S fuel', node :: rest =>
      node :: walk_queue fuel' (rest ++ iter_child_nodes node)
  | _, _ => []
  end.

Definition walk (node : value) : list value :=
  walk_queue (node_count node) [node].

(** ** Position attributes *)

Definition position_attrs : list string :=
  ["lineno"; "col_offset"; "end_lineno"; "end_col_offset"].

(** The body of the attribute loop for one node:
    [if hasattr(n, attr): setattr(n, attr, None)]. *)
Definition clear_positions (attrs : list (string * option Z))
  : list (string * option Z) :=
  fold_left
    (fun acc attr =>
       match assoc attr acc with
       | Some _ => assoc_set attr None acc
       | None => acc
       end) position_attrs attrs.

(** [for n in ast.walk(node): clear the four attributes of n].  Every node
    reachable from [node] is visited once and the update of one node does
    not read any other, so the loop is the structural map below. *)
Fixpoint strip_positions (v : value) : value :=
  match v with
  | Atom a => Atom a
  | Lst items => Lst (map strip_positions items)
  | Obj cls fields attrs =>
      Obj cls
        (map (fun kv => let '(k, x) := kv in (k, strip_positions x)) fields)
        (clear_positions attrs)
  end.

(** ** [ast.dump(node, include_attributes=False)] *)

Definition string_of_nat (n : nat) : string :=
  NilZero.string_of_uint (Nat.to_uint n).

Definition string_of_Z (z : Z) : string :=
  NilZero.string_of_int (Z.to_int z).

Definition repr (a : atom) : string :=
  match a with
  | ANone => "None"
  | AStr s => ("'" ++ s ++ "'")%string
  | AInt z => string_of_Z z
  | ARepr r => r
  end.

Fixpoint join (sep : string) (l : list string) : string :=
  match l with
  | [] => ""
  | [x] => x
  | x :: l' => (x ++ sep ++ join sep l')%string
  end.

Definition is_none (v : value) : bool :=
  match v with
  | Atom ANone => true
  | _ => false
  end.

(** [ast.dump] with [annotate_fields=True], [include_attributes=False] and
    no indentation: [Cls(field=value, ...)], lists in brackets, anything
    else by [repr]; a field whose value is [None] is left out.  The
    attributes are never read. *)
Fixpoint dump (v : value) : string :=
  match v with
  | Atom a => repr a
  | Lst items => ("[" ++ join ", " (map dump items) ++ "]")%string
  | Obj cls fields _ =>
      (cls ++ "("
         ++ join ", "
              (flat_map
                 (fun kv =>
                    let '(k, x) := kv in
                    if is_none x then [] else [(k ++ "=" ++ dump x)%string])
                 fields)
         ++ ")")%string
  end.

(** What is left of a tree when every attribute is forgotten: two trees are
    identical up to source positions when they agree on this. *)
Fixpoint erase_attrs (v : value) : value :=
  match v with
  | Atom a => Atom a
  | Lst items => Lst (map erase_attrs items)
  | Obj cls fields _ =>
      Obj cls
        (map (fun kv => let '(k, x) := kv in (k, erase_attrs x)) fields) []
  end.

Definition same_modulo_positions (a b : value) : Prop :=
  erase_attrs a = erase_attrs b.

End PyAst.

(* ================================================================== *)
(** * Python run-time behaviour used by the scripts *)
(* ================================================================== *)

Module Py.

(** ** Numbers: [int] and binary64 [float] *)

Definition prec : Z := 53.
Definition emax : Z := 1024.

Definition float : Type := spec_float.

(** [float(n)] for an [int] (round to nearest, ties to even).  Python
    raises [OverflowError] where this gives an infinity; the lengths this
    is applied to are far below that. *)
Definition float_of_int (n : Z) : float := binary_normalize prec emax n 0 false.

Definition float_mul (x y : float) : float := SFmul prec emax x y.

(** The literal [0.35]: the double 0x1.6666666666666p-2. *)
Definition lit_0_35 : float := S754_finite false 6305039478318694 (-54).

(** The literals [0.75] (the default threshold) and [1.0]. *)
Definition lit_0_75 : float := S754_finite false 6755399441055744 (-53).
Definition lit_1_0 : float := S754_finite false 4503599627370496 (-52).

Inductive number : Type :=
| Int (z : Z)
| Float (x : float).

(** Python compares an [int] with a [float] by value, without rounding
    the [int]: [d ? m * 2^e]. *)
Definition int_cmp_float (d : Z) (x : float) : option comparison :=
  match x with
  | S754_nan => None
  | S754_infinity s => Some (if s then Gt else Lt)
  | S754_zero _ => Some (d ?= 0)%Z
  | S754_finite s m e =>
      let v := if s then Zneg m else Zpos m in
      Some (if (0 <=? e)%Z then (d ?= v * 2 ^ e)%Z
            else (d * 2 ^ (- e) ?= v)%Z)
  end.

(** [a > b]. *)
Definition gt (a b : number) : bool :=
  match a, b with
  | Int x, Int y => (y <? x)%Z
  | Int d, Float x =>
      match int_cmp_float d x with Some Gt => true | _ => false end
  | Float x, Int d =>
      match int_cmp_float d x with Some Lt => true | _ => false end
  | Float x, Float y => SFltb y x
  end.

(** [a * b] where one operand is a [float]: the [int] is converted first. *)
Definition mul (a b : number) : number :=
  match a, b with
  | Int x, Int y => Int (x * y)
  | Int x, Float y => Float (float_mul (float_of_int x) y)
  | Float x, Int y => Float (float_mul x (float_of_int y))
  | Float x, Float y => Float (float_mul x y)
  end.

(** The builtin [max(a, b)]: the first argument unless the second is
    greater. *)
Definition max (a b : number) : number := if gt b a then b else a.

(** [r >= t] on floats ([False] as soon as one of them is a NaN). *)
Definition float_ge (r t : float) : bool := SFleb t r.
Definition float_lt (r t : float) : bool := SFltb r t.
Definition float_eq (r t : float) : bool := SFeqb r t.

(** ** [collections.defaultdict(list)] *)

(** A dictionary keeps its keys in insertion order; each key holds the
    list of the values appended under it. *)
Section DefaultDict.
Context {K V : Type}.
Variable eqb : K -> K -> bool.

Definition defaultdict : Type := list (K * list V).

(** [d[k].append(v)]. *)
Fixpoint dd_append (k : K) (v : V) (d : defaultdict) : defaultdict :=
  match d with
  | [] => [(k, [v])]
  | (k', vs) :: d' =>
      if eqb k k' then (k', vs ++ [v]) :: d'
      else (k', vs) :: dd_append k v d'
  end.

(** [d.get(k, [])], which is [d[k]] for a key that is present and does
    not create the key otherwise. *)
Fixpoint dd_get (k : K) (d : defaultdict) : list V :=
  match d with
  | [] => []
  | (k', vs) :: d' => if eqb k k' then vs else dd_get k d'
  end.

(** [d.keys()]. *)
Definition dd_keys (d : defaultdict) : list K := map fst d.
End DefaultDict.
Arguments defaultdict : clear implicits.

(** ** [list.sort(key=..., reverse=True)] *)

(** Stable: elements that compare equal keep their order.  [lt x y] is
    [key(x) < key(y)]. *)
Section Sort.
Context {A : Type}.
Variable lt : A -> A -> bool.

Fixpoint insert_desc (x : A) (l : list A) : list A :=
  match l with
  | [] => [x]
  | y :: l' => if lt x y then y :: insert_desc x l' else x :: y :: l'
  end.

Definition sort_desc (l : list A) : list A := fold_right insert_desc [] l.
End Sort.

(** ** Exceptions and process exit *)

Inductive exn : Type :=
| SyntaxError
| IndentationError
| ValueError
| RecursionError
| MemoryError.

(** [except SyntaxError] catches the class and its subclasses. *)
Definition is_SyntaxError (e : exn) : bool :=
  match e with
  | SyntaxError | IndentationError => true
  | _ => false
  end.

(** How a run of [main] under [raise SystemExit(main())] ends. *)
Inductive outcome (R : Type) : Type :=
| Completed (report : R)     (* reports written, [main] returned 0 *)
| SystemExit (msg : string)  (* [raise SystemExit(msg)]: status 1 *)
| Uncaught (e : exn).        (* traceback: status 1 *)
Arguments Completed {R} report.
Arguments SystemExit {R} msg.
Arguments Uncaught {R} e.

Definition exit_code {R} (o : outcome R) : Z :=
  match o with
  | Completed _ => 0
  | SystemExit _ => 1
  | Uncaught _ => 1
  end.

Definition output {R} (o : outcome R) : option R :=
  match o with
  | Completed r => Some r
  | _ => None
  end.

(** ** The scanned tree *)

(** What [read_text] followed by [ast.parse] does on one file. *)
Inductive source_file : Type :=
| Unreadable                       (* [read_text] raises *)
| Unparsable (e : exn)             (* [ast.parse] raises [e] *)
| Parsed (body : list PyAst.value) (* [ast.parse(src).body] *).

(** [root.exists()], and [sorted(iter_py_files(root))] with the path of
    each file relative to the root. *)
Record world : Type := {
  root_exists : bool;
  py_files : list (string * source_file)
}.

End Py.

(* ================================================================== *)
(** * find_duplicate_functions.py *)
(* ================================================================== *)

Module ExactDup.
Import PyAst Py.

(** [node.name] of a function definition. *)
Definition node_name (node : value) : string :=
  match get_field "name" node with
  | Some (Atom (AStr s)) => s
  | _ => ""
  end.

(** [normalized_ast_dump(node)].  The attribute loop works on the caller's
    node, not on a copy, so the function is modelled as returning the node
    as it is left behind together with the dump. *)
Definition normalized_ast_dump (node : value) : string * value :=
  let node' := strip_positions node in
  (dump node', node').

(** One entry of the list [extract_functions] returns. *)
Record extracted : Type := {
  ex_name : string;
  ex_lineno : option Z;
  ex_hash : string
}.

(** One entry of a group's ["occurrences"]. *)
Record occurrence : Type := {
  path : string;
  name : string;
  lineno : option Z
}.

(** One entry of [dupes]. *)
Record group : Type := {
  function_hash : string;
  occurrences : list occurrence
}.

(** The JSON payload, without the timestamp and the root. *)
Record report : Type := {
  duplicate_groups : nat;
  groups : list group
}.

(** [func_index]: a [defaultdict(list)] from hash to occurrences. *)
Definition index : Type := defaultdict string occurrence.

(** [func_index[h].append(occ)]. *)
Definition index_append (h : string) (occ : occurrence) (idx : index)
  : index :=
  dd_append String.eqb h occ idx.

Section WithHash.

(** [hashlib.sha256(text.encode("utf-8")).hexdigest()]. *)
Variable sha256_hexdigest : string -> string.

Definition hash_text (text : string) : string := sha256_hexdigest text.

(** The record built for one top-level function definition: the dump is
    taken first, and [name] and [lineno] are read from the node afterwards. *)
Definition extract_one (node : value) : extracted :=
  let '(dump, node') := normalized_ast_dump node in
  {| ex_name := node_name node';
     ex_lineno := get_lineno node';
     ex_hash := hash_text dump |}.

(** [extract_functions(path)]: [inr] the list it returns, or [inl e]
    when the exception [e] leaves it.  Reading is guarded by [except Exception],
    parsing by [except SyntaxError] only. *)
Definition extract_functions (f : source_file) : exn + list extracted :=
  match f with
  | Unreadable => inr []
  | Unparsable e => if is_SyntaxError e then inr [] else inl e
  | Parsed body =>
      inr (map extract_one (filter is_function_def body))
  end.

(** The body of the loop over the files, for one file. *)
Definition index_file (rel : string) (fs : list extracted) (idx : index)
  : index :=
  fold_left
    (fun idx f =>
       index_append (ex_hash f)
         {| path := rel; name := ex_name f; lineno := ex_lineno f |} idx)
    fs idx.

(** [for fp in sorted(iter_py_files(root)): ...]. *)
Fixpoint index_files (files : list (string * source_file)) (idx : index)
  : exn + index :=
  match files with
  | [] => inr idx
  | (rel, f) :: files' =>
      match extract_functions f with
      | inl e => inl e
      | inr fs => index_files files' (index_file rel fs idx)
      end
  end.

Definition count_lt (g1 g2 : group) : bool :=
  (List.length (occurrences g1) <? List.length (occurrences g2))%nat.

(** [dupes]: the groups with more than one occurrence, then
    [dupes.sort(key=lambda d: len(d["occurrences"]), reverse=True)]. *)
Definition dupes_of (idx : index) : list group :=
  sort_desc count_lt
    (flat_map
       (fun kv =>
          let '(h, occs) := kv in
          if (1 <? List.length occs)%nat
          then [{| function_hash := h; occurrences := occs |}]
          else []) idx).

Definition main (w : world) : outcome report :=
  if negb (root_exists w) then SystemExit "Root not found"
  else
    match index_files (py_files w) [] with
    | inl e => Uncaught e
    | inr func_index =>
        let dupes := dupes_of func_index in
        Completed {| duplicate_groups := List.length dupes; groups := dupes |}
    end.

End WithHash.
End ExactDup.

(* ================================================================== *)
(** * find_near_duplicate_functions.py *)
(* ================================================================== *)

Module NearDup.
Import PyAst Py.

(** ** [normalized_function_body_dump] *)

(** [arg_map] and [name_map]: [dict[str, str]]. *)
Definition dict : Type := list (string * string).

(** [f"ARG{i}"], [f"VAR{counter}"]. *)
Definition placeholder (prefix : string) (i : nat) : string :=
  (prefix ++ string_of_nat i)%string.

(** [a.arg] of an [ast.arg] and [t.id] of an [ast.Name]; the parser always
    stores a string there, [None] stands for the [AttributeError]
    otherwise. *)
Definition arg_of (a : value) : option string :=
  match get_field "arg" a with
  | Some (Atom (AStr s)) => Some s
  | _ => None
  end.

Definition id_of (t : value) : option string :=
  match get_field "id" t with
  | Some (Atom (AStr s)) => Some s
  | _ => None
  end.

(** [for i, a in enumerate(n.args.args)]: each [ast.arg] is entered in
    [arg_map] under its name and renamed on the spot.  The boolean tells
    whether the loop ran to its end ([false]: an exception left it, with
    what was done so far kept). *)
Fixpoint rename_positional (i : nat) (l : list value) (arg_map : dict)
  : list value * dict * bool :=
  match l with
  | [] => ([], arg_map, true)
  | a :: l' =>
      if isinstance "arg" a then
        match arg_of a with
        | Some x =>
            let '(l'', m, ok) :=
              rename_positional (S i) l'
                (assoc_set x (placeholder "ARG" i) arg_map) in
            (set_field "arg" (Atom (AStr (placeholder "ARG" i))) a :: l'',
             m, ok)
        | None => (a :: l', arg_map, false)
        end
      else
        let '(l'', m, ok) := rename_positional (S i) l' arg_map in
        (a :: l'', m, ok)
  end.

(** [if getattr(n.args, field, None) is not None: ...] for [vararg] and
    [kwarg]; [None] when an exception is raised (nothing was changed yet). *)
Definition rename_optional (field token : string) (st : value * dict)
  : option (value * dict) :=
  let '(arguments, arg_map) := st in
  match get_field field arguments with
  | None | Some (Atom ANone) => Some st
  | Some a =>
      match arg_of a with
      | Some x =>
          Some (set_field field (set_field "arg" (Atom (AStr token)) a)
                  arguments,
                assoc_set x token arg_map)
      | None => None
      end
  end.

(** The [try: ... except Exception: pass] block that fills [arg_map] and
    renames the parameters of [n]. *)
Definition rename_parameters (n : value) : value * dict :=
  match get_field "args" n with
  | None => (n, [])
  | Some arguments =>
      match get_field "args" arguments with
      | Some (Lst l) =>
          let '(l', m, ok) := rename_positional 0 l [] in
          let arguments1 := set_field "args" (Lst l') arguments in
          let st1 := (arguments1, m) in
          let st3 :=
            if ok then
              match rename_optional "vararg" "VARARG" st1 with
              | Some st2 =>
                  match rename_optional "kwarg" "KWARG" st2 with
                  | Some st3 => st3
                  | None => st2
                  end
              | None => st1
              end
            else st1 in
          (set_field "args" (fst st3) n, snd st3)
      | Some _ => (n, [])
      | None =>
          let st1 := (arguments, []) in
          let st3 :=
            match rename_optional "vararg" "VARARG" st1 with
            | Some st2 =>
                match rename_optional "kwarg" "KWARG" st2 with
                | Some st3 => st3
                | None => st2
                end
            | None => st1
            end in
          (set_field "args" (fst st3) n, snd st3)
      end
  end.

(** [ident in ("True", "False", "None")]. *)
Definition literal_name (ident : string) : bool :=
  existsb (String.eqb ident) ["True"; "False"; "None"].

(** [name_map] and [counter]. *)
Record renaming : Type := {
  name_map : dict;
  counter : nat
}.

(** The [ast.Name] branch of the loop body for a node whose [id] is
    [ident]: the state afterwards and the [id] the node is left with. *)
Definition rename_name (arg_map : dict) (st : renaming) (ident : string)
  : renaming * string :=
  if literal_name ident then (st, ident)
  else
    match assoc ident arg_map with
    | Some p => (st, p)
    | None =>
        match assoc ident (name_map st) with
        | Some v => (st, v)
        | None =>
            let v := placeholder "VAR" (counter st) in
            ({| name_map := assoc_set ident v (name_map st);
                counter := S (counter st) |}, v)
        end
    end.

(** One iteration of [for t in ast.walk(n)], as far as [name_map] and
    [counter] go. *)
Definition visit (arg_map : dict) (st : renaming) (t : value) : renaming :=
  if isinstance "Name" t then
    match id_of t with
    | Some ident => fst (rename_name arg_map st ident)
    | None => st
    end
  else st.

Definition name_pass (arg_map : dict) (n : value) : renaming :=
  fold_left (visit arg_map) (walk n) {| name_map := []; counter := 0 |}.

(** What one iteration leaves in the visited node [t]: a [Name] gets the
    placeholder of its [id], an [arg] whose (current) name is a key of
    [arg_map] gets the value stored there. *)
Definition relabel_node (arg_map : dict) (st : renaming) (t : value)
  : value :=
  if isinstance "Name" t then
    match id_of t with
    | Some ident =>
        set_field "id" (Atom (AStr (snd (rename_name arg_map st ident)))) t
    | None => t
    end
  else if isinstance "arg" t then
    match arg_of t with
    | Some x =>
        match assoc x arg_map with
        | Some p => set_field "arg" (Atom (AStr p)) t
        | None => t
        end
    | None => t
    end
  else t.

(** The tree after the loop.  An entry of [name_map] never changes once
    made, so the placeholder a [Name] received when it was visited is the
    one the final [name_map] holds for it; the nodes are relabelled from
    the final state. *)
Fixpoint relabel (arg_map : dict) (st : renaming) (v : value) : value :=
  match v with
  | Atom a => Atom a
  | Lst items => Lst (map (relabel arg_map st) items)
  | Obj cls fields attrs =>
      relabel_node arg_map st
        (Obj cls
           (map (fun kv => let '(k, x) := kv in (k, relabel arg_map st x))
              fields) attrs)
  end.

(** The normalized tree, before it is dumped. *)
Definition normalized_tree (node : value) : value :=
  let n := set_field "name" (Atom (AStr "FUNC")) node in
  let '(n, arg_map) := rename_parameters n in
  let n := relabel arg_map (name_pass arg_map n) n in
  strip_positions n.

Definition normalized_function_body_dump (node : value) : option string :=
  if is_function_def node then Some (dump (normalized_tree node))
  else None.

(** ** [collect_functions] *)

Record func : Type := {
  path : string;
  name : string;
  lineno : option Z;
  normalized_dump : string
}.

Definition node_name (node : value) : string :=
  match get_field "name" node with
  | Some (Atom (AStr s)) => s
  | _ => ""
  end.

Definition collect_file (rel : string) (f : source_file) : list func :=
  match f with
  | Unreadable => []
  | Unparsable _ => []
  | Parsed body =>
      flat_map
        (fun node =>
           if is_function_def node then
             match normalized_function_body_dump node with
             | Some nd =>
                 if String.eqb nd "" then []
                 else [{| path := rel;
                          name := node_name node;
                          lineno := get_lineno node;
                          normalized_dump := nd |}]
             | None => []
             end
           else []) body
  end.

Definition collect_functions (files : list (string * source_file))
  : list func :=
  flat_map (fun pf => collect_file (fst pf) (snd pf)) files.

(** ** Buckets *)

Definition len (s : string) : Z := Z.of_nat (String.length s).

Definition bucket_key (s : string) : Z := (len s / 120)%Z.

(** [buckets]: a [defaultdict(list)] keyed by [int]. *)
Definition bucket_map : Type := defaultdict Z func.

(** [buckets[k].append(f)]. *)
Definition bucket_append (k : Z) (f : func) (buckets : bucket_map)
  : bucket_map :=
  dd_append Z.eqb k f buckets.

(** [buckets.get(k, [])] (and [buckets[k]] for a key that is present). *)
Definition bucket_get (k : Z) (buckets : bucket_map) : list func :=
  dd_get Z.eqb k buckets.

Definition make_buckets (funcs : list func) : bucket_map :=
  fold_left
    (fun buckets f => bucket_append (bucket_key (normalized_dump f)) f buckets)
    funcs [].

(** [sorted(buckets.keys())]. *)
Fixpoint insert_key (k : Z) (l : list Z) : list Z :=
  match l with
  | [] => [k]
  | k' :: l' => if (k <=? k')%Z then k :: l else k' :: insert_key k l'
  end.

Definition sorted_keys (buckets : bucket_map) : list Z :=
  fold_right insert_key [] (dd_keys buckets).

(** ** The comparison loop *)

Definition option_Z_eqb (x y : option Z) : bool :=
  match x, y with
  | Some u, Some v => (u =? v)%Z
  | None, None => true
  | _, _ => false
  end.

(** [a["path"] == b["path"] and a.get("lineno") == b.get("lineno")]. *)
Definition same_occurrence (a b : func) : bool :=
  String.eqb (path a) (path b) && option_Z_eqb (lineno a) (lineno b).

(** [abs(la - lb) > max(120, min(la, lb) * 0.35)]. *)
Definition too_far (la lb : Z) : bool :=
  gt (Int (Z.abs (la - lb)))
     (max (Int 120) (mul (Int (Z.min la lb)) (Float lit_0_35))).

(** What the body of the inner loop does with one candidate pair. *)
Inductive verdict : Type :=
| Same_occurrence                     (* first [continue] *)
| Too_far                             (* second [continue] *)
| Scored (r : float) (kept : bool).   (* the ratio was computed *)

(** One entry of [pairs]. *)
Record pair : Type := {
  pair_a : func;
  pair_b : func;
  pair_ratio : float
}.

(** The JSON payload, without the timestamp and the root. *)
Record report : Type := {
  threshold : float;
  pairs_found : nat;
  pairs : list pair
}.

(** [(l[i], l[j])] for [i < j], in the order of the two nested [range]
    loops. *)
Fixpoint ordered_pairs {A : Type} (l : list A) : list (A * A) :=
  match l with
  | [] => []
  | x :: l' => map (fun y => (x, y)) l' ++ ordered_pairs l'
  end.

Section WithRatio.

(** [SequenceMatcher(None, x, y).ratio()]. *)
Variable ratio : string -> string -> float.

(** [args.threshold]. *)
Variable thr : float.

Definition examine (a b : func) : verdict :=
  if same_occurrence a b then Same_occurrence
  else if too_far (len (normalized_dump a)) (len (normalized_dump b))
  then Too_far
  else
    let r := ratio (normalized_dump a) (normalized_dump b) in
    Scored r (float_ge r thr).

(** [buckets[k] + buckets.get(k - 1, []) + buckets.get(k + 1, [])]. *)
Definition candidates (buckets : bucket_map) (k : Z) : list func :=
  bucket_get k buckets ++ bucket_get (k - 1) buckets
    ++ bucket_get (k + 1) buckets.

(** The candidate pairs met while [k] is the current key, each with what
    was done with it. *)
Definition window (buckets : bucket_map) (k : Z)
  : list (func * func * verdict) :=
  map (fun ab => (fst ab, snd ab, examine (fst ab) (snd ab)))
    (ordered_pairs (candidates buckets k)).

(** Everything the loops over [keys], [i] and [j] go through, in order. *)
Definition trace (funcs : list func) : list (func * func * verdict) :=
  let buckets := make_buckets funcs in
  flat_map (window buckets) (sorted_keys buckets).

(** The pairs for which [SequenceMatcher(...).ratio()] was evaluated. *)
Definition compared (tr : list (func * func * verdict))
  : list (func * func) :=
  flat_map
    (fun e =>
       match e with
       | (a, b, Scored _ _) => [(a, b)]
       | _ => []
       end) tr.

(** The entries appended to [pairs], in order. *)
Definition appended (tr : list (func * func * verdict)) : list pair :=
  flat_map
    (fun e =>
       match e with
       | (a, b, Scored r true) =>
           [{| pair_a := a; pair_b := b; pair_ratio := r |}]
       | _ => []
       end) tr.

Definition ratio_lt (p q : pair) : bool :=
  float_lt (pair_ratio p) (pair_ratio q).

(** [pairs] after [pairs.sort(key=lambda x: x["ratio"], reverse=True)]. *)
Definition find_pairs (funcs : list func) : list pair :=
  sort_desc ratio_lt (appended (trace funcs)).

Definition main (w : world) : outcome report :=
  if negb (root_exists w) then SystemExit "Root not found"
  else
    let funcs := collect_functions (py_files w) in
    let pairs := find_pairs funcs in
    Completed {| threshold := thr;
                 pairs_found := List.length pairs;
                 pairs := firstn 500 pairs |}.

End WithRatio.
End NearDup.

(* ================================================================== *)
(** * iter_py_files and the scan order (both scripts) *)
(* ================================================================== *)

Module Walker.
Import Py.

(** A path, as [Path.parts]. *)
Definition path : Type := list string.

(** The resolved root: its parts, [root.is_file()] and [root.suffix]. *)
Record root_path : Type := {
  root_parts : path;
  root_is_file : bool;
  root_suffix : string
}.

(** One path produced by [root.rglob("*.py")]: its parts below the root
    and [p.is_file()]. *)
Record candidate : Type := {
  cand_parts : path;
  cand_is_file : bool
}.

(** [(".git", "__pycache__", ".venv", "venv", "site-packages")]. *)
Definition excluded_dirs : list string :=
  [".git"; "__pycache__"; ".venv"; "venv"; "site-packages"].

Section WithLower.

(** [str.lower]. *)
Variable lower : string -> string.

(** [parts = {x.lower() for x in p.parts}] and
    [any(x in parts for x in (...))]. *)
Definition in_excluded_dir (p : path) : bool :=
  let parts := map lower p in
  existsb (fun x => existsb (String.eqb x) parts) excluded_dirs.

(** [iter_py_files(root)], given what [root.rglob("*.py")] produces.  The
    paths of [rglob] are [root / ...]: their parts start with the parts of
    the root. *)
Definition iter_py_files (root : root_path) (rglob : list candidate)
  : list path :=
  if root_is_file root && String.eqb (lower (root_suffix root)) ".py"
  then [root_parts root]
  else
    flat_map
      (fun c =>
         let p := root_parts root ++ cand_parts c in
         if negb (cand_is_file c) then []
         else if in_excluded_dir p then []
         else [p]) rglob.

End WithLower.

(** [p <= q] on paths (POSIX flavour): the parts are compared as lists of
    strings, strings by code point. *)
Fixpoint path_leb (p q : path) : bool :=
  match p, q with
  | [], _ => true
  | _ :: _, [] => false
  | x :: p', y :: q' =>
      match String.compare x y with
      | Lt => true
      | Gt => false
      | Eq => path_leb p' q'
      end
  end.

Fixpoint insert_path (p : path) (l : list path) : list path :=
  match l with
  | [] => [p]
  | q :: l' => if path_leb p q then p :: l else q :: insert_path p l'
  end.

(** [sorted(...)] on paths. *)
Definition sorted (l : list path) : list path := fold_right insert_path [] l.

(** [fp.relative_to(root)] for a path below the root. *)
Fixpoint relative_to (root p : path) : path :=
  match root, p with
  | _ :: root', _ :: p' => relative_to root' p'
  | _, _ => p
  end.

Definition backslash : ascii := ascii_of_nat 92.
Definition slash : ascii := ascii_of_nat 47.

(** [s.replace(backslash, "/")]. *)
Fixpoint replace_backslash (s : string) : string :=
  match s with
  | EmptyString => EmptyString
  | String c s' =>
      String (if Ascii.eqb c backslash then slash else c)
        (replace_backslash s')
  end.

(** [str(fp.relative_to(root)).replace(backslash, "/")]: the parts joined
    by the separator, ["."] when there is none. *)
Definition rel (root p : path) : string :=
  replace_backslash
    (match relative_to root p with
     | [] => "."
     | parts => PyAst.join "/" parts
     end).

(** A scan root on disk: the root, [root.exists()], the result of
    [root.rglob("*.py")] and what reading and parsing each file gives. *)
Record disk : Type := {
  disk_root : root_path;
  disk_root_exists : bool;
  disk_rglob : list candidate;
  disk_read : path -> source_file
}.

(** The loop header [for fp in sorted(iter_py_files(root))] of both
    scripts, with [rel] computed for each file. *)
Definition scan (lower : string -> string) (d : disk) : world :=
  {| root_exists := disk_root_exists d;
     py_files :=
       map (fun p => (rel (root_parts (disk_root d)) p, disk_read d p))
         (sorted (iter_py_files lower (disk_root d) (disk_rglob d))) |}.

End Walker.

(* ================================================================== *)
(** * write_markdown (both scripts) *)
(* ================================================================== *)

Module Markdown.
Import PyAst Py.

(** The line separator of ["\n".join(lines)]. *)
Definition newline : string := String (ascii_of_nat 10) EmptyString.

(** [x.get("lineno") or "-"] inside an f-string: [None] and [0] are
    falsy. *)
Definition lineno_or_dash (l : option Z) : string :=
  match l with
  | Some z => if (z =? 0)%Z then "-" else string_of_Z z
  | None => "-"
  end.

Section WithClock.

(** [utc_now_iso()]. *)
Variable now : string.

(** *** find_duplicate_functions.py *)

Definition occurrence_line (o : ExactDup.occurrence) : string :=
  ("- `" ++ ExactDup.path o ++ "`:" ++ lineno_or_dash (ExactDup.lineno o)
   ++ " — `" ++ ExactDup.name o ++ "`")%string.

Definition group_lines (g : ExactDup.group) : list string :=
  [("## " ++ ExactDup.function_hash g)%string; ""]
  ++ map occurrence_line (ExactDup.occurrences g) ++ [""].

Definition exact_lines (dupes : list ExactDup.group) : list string :=
  ["# Duplicate functions report"; "";
   ("> Generated at (UTC): `" ++ now ++ "`")%string; "";
   ("Duplicate groups: **" ++ string_of_nat (List.length dupes) ++ "**")%string;
   ""]
  ++ flat_map group_lines dupes
  ++ ["---"; ""].

(** [write_markdown(dupes, out_path)]: the text written. *)
Definition exact_write_markdown (dupes : list ExactDup.group) : string :=
  join newline (exact_lines dupes).

(** *** find_near_duplicate_functions.py *)

(** [f"{threshold}"] and [f"{r:.2f}"]. *)
Variable str_float : float -> string.
Variable format_2f : float -> string.

Definition pair_line (p : NearDup.pair) : string :=
  let a := NearDup.pair_a p in
  let b := NearDup.pair_b p in
  ("- " ++ format_2f (NearDup.pair_ratio p) ++ ": `" ++ NearDup.path a
   ++ "`:" ++ lineno_or_dash (NearDup.lineno a) ++ " `" ++ NearDup.name a
   ++ "`  <=>  `" ++ NearDup.path b ++ "`:"
   ++ lineno_or_dash (NearDup.lineno b) ++ " `" ++ NearDup.name b ++ "`")%string.

Definition near_lines (pairs : list NearDup.pair) (threshold : float)
  : list string :=
  ["# Near-duplicate functions report"; "";
   ("> Generated at (UTC): `" ++ now ++ "`")%string; "";
   ("> Similarity threshold: **" ++ str_float threshold ++ "**")%string; "";
   ("Pairs found: **" ++ string_of_nat (List.length pairs) ++ "**")%string;
   ""]
  ++ map pair_line (firstn 200 pairs)
  ++ [""; "---"; ""].

(** [write_markdown(pairs, threshold, out_path)]: the text written. *)
Definition near_write_markdown (pairs : list NearDup.pair) (threshold : float)
  : string :=
  join newline (near_lines pairs threshold).

End WithClock.
End Markdown.

(* ================================================================== *)
(** * Sample inputs *)
(* ================================================================== *)

(** Trees as [ast.parse] builds them (Python 3.9 to 3.12), used to run the
    model on concrete sources. *)
Module Samples.
Import PyAst Py.

Definition at_pos (line col : Z) : list (string * option Z) :=
  [("lineno", Some line); ("col_offset", Some col);
   ("end_lineno", Some line); ("end_col_offset", Some (col + 1)%Z)].

Definition Name (id ctx : string) (line col : Z) : value :=
  Obj "Name" [("id", Atom (AStr id)); ("ctx", Obj ctx [] [])]
    (at_pos line col).

Definition arg (x : string) (line col : Z) : value :=
  Obj "arg"
    [("arg", Atom (AStr x)); ("annotation", Atom ANone);
     ("type_comment", Atom ANone)] (at_pos line col).

Definition arguments (positional : list value) (vararg kwarg : value)
  : value :=
  Obj "arguments"
    [("posonlyargs", Lst []); ("args", Lst positional); ("vararg", vararg);
     ("kwonlyargs", Lst []); ("kw_defaults", Lst []); ("kwarg", kwarg);
     ("defaults", Lst [])] [].

Definition FunctionDef (name : string) (args : value) (body : list value)
  (line : Z) : value :=
  Obj "FunctionDef"
    [("name", Atom (AStr name)); ("args", args); ("body", Lst body);
     ("decorator_list", Lst []); ("returns", Atom ANone);
     ("type_comment", Atom ANone)] (at_pos line 0).

Definition Constant (z : Z) (line col : Z) : value :=
  Obj "Constant" [("value", Atom (AInt z)); ("kind", Atom ANone)]
    (at_pos line col).

Definition Return (v : value) (line : Z) : value :=
  Obj "Return" [("value", v)] (at_pos line 4).

Definition Assign (target v : value) (line : Z) : value :=
  Obj "Assign"
    [("targets", Lst [target]); ("value", v); ("type_comment", Atom ANone)]
    (at_pos line 4).

Definition BinOp (l : value) (op : string) (r : value) (line col : Z)
  : value :=
  Obj "BinOp" [("left", l); ("op", Obj op [] []); ("right", r)]
    (at_pos line col).

Definition no_arg : value := Atom ANone.

(** [def duplicate(): return 42], starting at line [line]. *)
Definition def_duplicate (line : Z) : value :=
  FunctionDef "duplicate" (arguments [] no_arg no_arg)
    [Return (Constant 42 (line + 1) 11) (line + 1)] line.

(** [def other(): return 7]. *)
Definition def_other (line : Z) : value :=
  FunctionDef "other" (arguments [] no_arg no_arg)
    [Return (Constant 7 (line + 1) 11) (line + 1)] line.

Definition Expr (v : value) (line : Z) : value :=
  Obj "Expr" [("value", v)] (at_pos line 4).

(** [def padded(): c; ...; c; return 42] with [n] expression statements
    [c] before the [return], one per line. *)
Definition def_padded (n : nat) (c : Z) (line : Z) : value :=
  FunctionDef "padded" (arguments [] no_arg no_arg)
    (map (fun i => Expr (Constant c (line + Z.of_nat i) 4)
                     (line + Z.of_nat i)) (seq 1 n)
     ++ [Return (Constant 42 (line + Z.of_nat n + 1) 11)
           (line + Z.of_nat n + 1)]) line.

(** [def f1(x): y = x + 1; return y] over three lines. *)
Definition def_f1 : value :=
  FunctionDef "f1" (arguments [arg "x" 1 7] no_arg no_arg)
    [Assign (Name "y" "Store" 2 4)
       (BinOp (Name "x" "Load" 2 8) "Add" (Constant 1 2 12) 2 8) 2;
     Return (Name "y" "Load" 3 11) 3] 1.

(** [def f2(z): q = z + 2; return q]. *)
Definition def_f2 : value :=
  FunctionDef "f2" (arguments [arg "z" 1 7] no_arg no_arg)
    [Assign (Name "q" "Store" 2 4)
       (BinOp (Name "z" "Load" 2 8) "Add" (Constant 2 2 12) 2 8) 2;
     Return (Name "q" "Load" 3 11) 3] 1.

(** [def f(x, ARG0): return x]. *)
Definition def_shadow : value :=
  FunctionDef "f" (arguments [arg "x" 1 6; arg "ARG0" 1 9] no_arg no_arg)
    [Return (Name "x" "Load" 2 11) 2] 1.

(** A scan root with [a.py] and [b.py], each holding [duplicate] (at
    different lines), [b.py] also holding [other], and [c.py], which does
    not parse. *)
Definition three_files : world :=
  {| root_exists := true;
     py_files :=
       [("a.py", Parsed [def_duplicate 1]);
        ("b.py", Parsed [def_other 1; def_duplicate 5]);
        ("c.py", Unparsable SyntaxError)] |}.

(** A scan root whose only file makes [ast.parse] raise [MemoryError]
    (a source nested too deeply for the parser's stack). *)
Definition deep_file : world :=
  {| root_exists := true;
     py_files := [("deep.py", Unparsable MemoryError)] |}.

(** [a.py] and [b.py] each hold [duplicate]; [c.py] holds [padded] with
    [n] statements [c] of padding. *)
Definition padded_files (n : nat) (c : Z) : list (string * source_file) :=
  [("a.py", Parsed [def_duplicate 1]);
   ("b.py", Parsed [def_duplicate 1]);
   ("c.py", Parsed [def_padded n c 1])].

Definition padded_world (n : nat) (c : Z) : world :=
  {| root_exists := true; py_files := padded_files n c |}.

(** [SequenceMatcher(None, x, y).ratio()] is [1.0] when [x == y].  The
    sample runs only score identical dumps; any other pair of arguments is
    given NaN here, which no threshold accepts. *)
Definition ratio_of_identical (x y : string) : float :=
  if String.eqb x y then lit_1_0 else S754_nan.

(** A stand-in for SHA-256 in examples: the text itself. *)
Definition plain_hash (text : string) : string := text.

End Samples.

(* ================================================================== *)
(** * Further sample inputs *)
(* ================================================================== *)

Module MoreSamples.
Import PyAst Py NearDup Walker.

(** [str.lower] on ASCII letters. *)
Definition lower_ascii (c : ascii) : ascii :=
  let n := nat_of_ascii c in
  if (65 <=? n)%nat && (n <=? 90)%nat then ascii_of_nat (n + 32) else c.

Fixpoint lower (s : string) : string :=
  match s with
  | EmptyString => EmptyString
  | String c s' => String (lower_ascii c) (lower s')
  end.

(** [def renamed(): return 42]. *)
Definition def_renamed (line : Z) : value :=
  Samples.FunctionDef "renamed" (Samples.arguments [] Samples.no_arg Samples.no_arg)
    [Samples.Return (Samples.Constant 42 (line + 1) 11) (line + 1)] line.

(** [a.py], [b.py] and [c.py] hold [padded] with 10, 14 and 11 statements
    of padding: dumps of 479, 603 and 510 characters. *)
Definition spread_files : list (string * source_file) :=
  [("a.py", Parsed [Samples.def_padded 10 1 1]);
   ("b.py", Parsed [Samples.def_padded 14 1 1]);
   ("c.py", Parsed [Samples.def_padded 11 1 1])].

Definition spread_funcs : list func := collect_functions spread_files.

(** A checkout at [/home/u/repo] with [b.py], [pkg/a.py], [Venv/lib/x.py]
    and a directory [dir.py]. *)
Definition repo_root : root_path :=
  {| root_parts := ["/"; "home"; "u"; "repo"];
     root_is_file := false;
     root_suffix := "" |}.

Definition repo_listing : list candidate :=
  [{| cand_parts := ["pkg"; "a.py"]; cand_is_file := true |};
   {| cand_parts := ["Venv"; "lib"; "x.py"]; cand_is_file := true |};
   {| cand_parts := ["dir.py"]; cand_is_file := false |};
   {| cand_parts := ["b.py"]; cand_is_file := true |}].

Definition repo_disk (listing : list candidate) : disk :=
  {| disk_root := repo_root;
     disk_root_exists := true;
     disk_rglob := listing;
     disk_read := fun _ => Parsed [Samples.def_duplicate 1] |}.

(** The same files below [/home/u/.venv/repo]. *)
Definition venv_disk : disk :=
  {| disk_root :=
       {| root_parts := ["/"; "home"; "u"; ".venv"; "repo"];
          root_is_file := false;
          root_suffix := "" |};
     disk_root_exists := true;
     disk_rglob := repo_listing;
     disk_read := fun _ => Parsed [Samples.def_duplicate 1] |}.

(** The scan root is the file [/home/u/venv/tool.PY]. *)
Definition file_disk : disk :=
  {| disk_root :=
       {| root_parts := ["/"; "home"; "u"; "venv"; "tool.PY"];
          root_is_file := true;
          root_suffix := ".PY" |};
     disk_root_exists := true;
     disk_rglob := [];
     disk_read := fun _ => Parsed [Samples.def_duplicate 1] |}.

(** The renaming that exchanges [a] and [b]. *)
Definition swap (a b s : string) : string :=
  if String.eqb s a then b else if String.eqb s b then a else s.

(** A fixed time stamp, and float formats that print nothing of the
    number. *)
Definition noon : string := "2024-01-01T12:00:00+00:00".
Definition no_digits (x : float) : string := "#".

End MoreSamples.


(* ================================================================== *)
(** * Facts about the run-time model *)
(* ================================================================== *)

Module PyFacts.
Import Py.

(** ** [defaultdict(list)] *)

Section DefaultDictFacts.
Context {K V : Type}.
Variable eqb : K -> K -> bool.
Hypothesis eqb_eq : forall x y, eqb x y = true <-> x = y.

Lemma eqb_refl k : eqb k k = true.
Proof. now apply eqb_eq. Qed.

Lemma eqb_neq x y : eqb x y = false <-> x <> y.
Proof.
  split.
  - intros H E. apply eqb_eq in E. congruence.
  - intros H. destruct (eqb x y) eqn:E; [apply eqb_eq in E; contradiction | reflexivity].
Qed.

Lemma dd_get_append k k' (v : V) d :
  dd_get eqb k (dd_append eqb k' v d)
  = if eqb k k' then dd_get eqb k d ++ [v] else dd_get eqb k d.
Proof.
  induction d as [|[k0 vs] d IH]; simpl.
  - now destruct (eqb k k').
  - destruct (eqb k' k0) eqn:E0; simpl.
    + apply eqb_eq in E0; subst k0. now destruct (eqb k k').
    + destruct (eqb k k0) eqn:E1.
      * destruct (eqb k k') eqn:E2; [|reflexivity].
        apply eqb_eq in E1, E2. subst. rewrite eqb_refl in E0. discriminate.
      * exact IH.
Qed.

Lemma dd_keys_append k (v : V) d :
  forall k', In k' (dd_keys (dd_append eqb k v d)) <-> k' = k \/ In k' (dd_keys d).
Proof.
  induction d as [|[k0 vs] d IH]; simpl; intros k'.
  - intuition.
  - destruct (eqb k k0) eqn:E; simpl.
    + apply eqb_eq in E; subst. intuition.
    + unfold dd_keys in IH. rewrite IH. intuition.
Qed.

Lemma dd_keys_append_NoDup k (v : V) d :
  NoDup (dd_keys d) -> NoDup (dd_keys (dd_append eqb k v d)).
Proof.
  induction d as [|[k0 vs] d IH]; simpl; intros ND.
  - constructor; [intros [] | constructor].
  - inversion ND as [|? ? Hn ND']; subst.
    destruct (eqb k k0) eqn:E; simpl.
    + constructor; assumption.
    + constructor; [|now apply IH].
      intros Hin. apply dd_keys_append in Hin. destruct Hin as [->|Hin].
      * rewrite eqb_refl in E. discriminate.
      * contradiction.
Qed.

Lemma dd_get_nonempty_key k (d : defaultdict K V) :
  dd_get eqb k d <> [] -> In k (dd_keys d).
Proof.
  induction d as [|[k0 vs] d IH]; simpl; intros H.
  - contradiction.
  - destruct (eqb k k0) eqn:E.
    + apply eqb_eq in E. now left.
    + right. now apply IH.
Qed.

Lemma dd_key_In_get k (d : defaultdict K V) :
  In k (dd_keys d) -> In (k, dd_get eqb k d) d.
Proof.
  induction d as [|[k0 vs] d IH]; simpl; intros H.
  - contradiction.
  - destruct (eqb k k0) eqn:E.
    + apply eqb_eq in E; subst. now left.
    + destruct H as [H|H]; [subst; rewrite eqb_refl in E; discriminate|].
      right. now apply IH.
Qed.

Lemma dd_In_get k vs (d : defaultdict K V) :
  NoDup (dd_keys d) -> In (k, vs) d -> dd_get eqb k d = vs.
Proof.
  induction d as [|[k0 vs0] d IH]; simpl; intros ND H.
  - contradiction.
  - inversion ND as [|? ? Hn ND']; subst.
    destruct H as [H|H].
    + inversion H; subst. now rewrite eqb_refl.
    + destruct (eqb k k0) eqn:E.
      * apply eqb_eq in E; subst. exfalso. apply Hn.
        change k0 with (fst (k0, vs)). now apply in_map.
      * now apply IH.
Qed.

(** A dictionary filled by one loop of [append]s. *)
Section Fill.
Context {X : Type}.
Variable key : X -> K.
Variable val : X -> V.

Definition fill (xs : list X) (d : defaultdict K V) : defaultdict K V :=
  fold_left (fun d x => dd_append eqb (key x) (val x) d) xs d.

Lemma dd_get_fill k xs : forall d,
  dd_get eqb k (fill xs d)
  = dd_get eqb k d ++ map val (filter (fun x => eqb k (key x)) xs).
Proof.
  induction xs as [|x xs IH]; intros d; simpl.
  - now rewrite app_nil_r.
  - unfold fill in IH. rewrite IH, dd_get_append.
    destruct (eqb k (key x)); simpl; [now rewrite <- app_assoc | reflexivity].
Qed.

Lemma dd_keys_fill k xs : forall d,
  In k (dd_keys (fill xs d))
  <-> In k (dd_keys d) \/ exists x, In x xs /\ key x = k.
Proof.
  induction xs as [|x xs IH]; intros d; simpl.
  - split; [now left | intros [H|[x [[] _]]]; exact H].
  - unfold fill in IH. rewrite IH, dd_keys_append. split.
    + intros [[->|H]|[y [Hy E]]]; eauto.
    + intros [H|[y [[->|Hy] E]]]; eauto.
Qed.

Lemma dd_keys_fill_NoDup xs : forall d,
  NoDup (dd_keys d) -> NoDup (dd_keys (fill xs d)).
Proof.
  induction xs as [|x xs IH]; intros d ND; simpl; [exact ND|].
  apply IH. now apply dd_keys_append_NoDup.
Qed.
End Fill.
End DefaultDictFacts.

(** ** Stable descending sort *)

Section SortFacts.
Context {A : Type}.
Variable lt : A -> A -> bool.

Lemma insert_desc_perm x l : Permutation (insert_desc lt x l) (x :: l).
Proof.
  induction l as [|y l IH]; simpl.
  - apply Permutation_refl.
  - destruct (lt x y).
    + eapply Permutation_trans; [apply perm_skip, IH | apply perm_swap].
    + apply Permutation_refl.
Qed.

Lemma sort_desc_perm l : Permutation (sort_desc lt l) l.
Proof.
  induction l as [|x l IH]; simpl.
  - constructor.
  - eapply Permutation_trans; [apply insert_desc_perm | now apply perm_skip].
Qed.

Lemma sort_desc_In x l : In x (sort_desc lt l) <-> In x l.
Proof.
  split; apply Permutation_in;
    [apply sort_desc_perm | apply Permutation_sym, sort_desc_perm].
Qed.

Lemma sort_desc_length l : List.length (sort_desc lt l) = List.length l.
Proof. apply Permutation_length, sort_desc_perm. Qed.
End SortFacts.

(** Sorting on a key in [nat] leaves the keys in descending order. *)
Section SortByCount.
Context {A : Type}.
Variable key : A -> nat.
Let lt (x y : A) : bool := (key x <? key y)%nat.
Let ge (x y : A) : Prop := (key y <= key x)%nat.

Lemma insert_desc_sorted x l :
  StronglySorted ge l -> StronglySorted ge (insert_desc lt x l).
Proof.
  induction l as [|y l IH]; simpl; intros S.
  - constructor; constructor.
  - inversion S as [|? ? S' F]; subst.
    unfold lt at 1. destruct (Nat.ltb_spec (key x) (key y)) as [L|L].
    + constructor; [now apply IH|].
      eapply Permutation_Forall;
        [apply Permutation_sym, insert_desc_perm|].
      constructor; [unfold ge; lia | exact F].
    + constructor; [exact S|].
      constructor; [exact L|].
      eapply Forall_impl; [|exact F]. unfold ge. intros z Hz. lia.
Qed.

Lemma sort_desc_sorted l : StronglySorted ge (sort_desc lt l).
Proof.
  induction l as [|x l IH]; simpl; [constructor | now apply insert_desc_sorted].
Qed.
End SortByCount.

End PyFacts.

(* ================================================================== *)
(** * Facts about the [ast] model *)
(* ================================================================== *)

Module PyAstFacts.
Import PyAst.

Lemma is_none_erase_attrs v : is_none (erase_attrs v) = is_none v.
Proof. now destruct v. Qed.

Lemma is_none_strip_positions v : is_none (strip_positions v) = is_none v.
Proof. now destruct v. Qed.

(** [ast.dump(..., include_attributes=False)] does not depend on the
    attributes. *)
Lemma dump_erase_attrs v : dump (erase_attrs v) = dump v.
Proof.
  induction v as [a|items IH|cls fields attrs IH] using value_ind'; simpl.
  - reflexivity.
  - assert (E : map dump (map erase_attrs items) = map dump items).
    { induction IH as [|x l Hx _ IHl]; simpl; [reflexivity|].
      now rewrite Hx, IHl. }
    now rewrite E.
  - match goal with
    | |- context [flat_map ?g (map ?h fields)] =>
        assert (E : flat_map g (map h fields) = flat_map g fields)
    end.
    { induction IH as [|[k x] l Hx _ IHl]; simpl; [reflexivity|].
      simpl in Hx. now rewrite is_none_erase_attrs, Hx, IHl. }
    now rewrite E.
Qed.

(** Clearing the positions changes attributes only. *)
Lemma erase_attrs_strip_positions v :
  erase_attrs (strip_positions v) = erase_attrs v.
Proof.
  induction v as [a|items IH|cls fields attrs IH] using value_ind'; simpl.
  - reflexivity.
  - f_equal. rewrite map_map.
    induction IH as [|x l Hx _ IHl]; simpl; [reflexivity|].
    now rewrite Hx, IHl.
  - f_equal. rewrite map_map.
    induction IH as [|[k x] l Hx _ IHl]; simpl; [reflexivity|].
    simpl in Hx. now rewrite Hx, IHl.
Qed.

Lemma dump_strip_positions v : dump (strip_positions v) = dump (erase_attrs v).
Proof.
  now rewrite <- (dump_erase_attrs (strip_positions v)), erase_attrs_strip_positions,
    dump_erase_attrs.
Qed.

Lemma get_field_strip_positions_atom k v a :
  get_field k v = Some (Atom a) ->
  get_field k (strip_positions v) = Some (Atom a).
Proof.
  destruct v as [|items|cls fields attrs]; simpl; try discriminate.
  induction fields as [|[k' x] l IH]; simpl; [discriminate|].
  destruct (String.eqb k k'); [|exact IH].
  intros E. inversion E; subst. reflexivity.
Qed.

(** ** Reading back what was set *)

Lemma assoc_assoc_set {A} k k' (x : A) l :
  assoc k (assoc_set k' x l)
  = if String.eqb k k' then Some x else assoc k l.
Proof.
  induction l as [|[k0 y] l IH]; simpl.
  - reflexivity.
  - destruct (String.eqb k' k0) eqn:E0; simpl.
    + apply String.eqb_eq in E0; subst k0. now destruct (String.eqb k k').
    + rewrite IH. destruct (String.eqb k k0) eqn:E1; [|reflexivity].
      destruct (String.eqb k k') eqn:E2; [|reflexivity].
      apply String.eqb_eq in E1, E2. subst.
      rewrite String.eqb_refl in E0. discriminate.
Qed.

Lemma assoc_clear_positions k attrs :
  assoc k (clear_positions attrs)
  = if existsb (String.eqb k) position_attrs
    then match assoc k attrs with Some _ => Some None | None => None end
    else assoc k attrs.
Proof.
  unfold clear_positions, position_attrs. simpl fold_left.
  repeat
    match goal with
    | |- context [match assoc ?a ?l with Some _ => _ | None => _ end] =>
        let E := fresh "E" in
        destruct (assoc a l) eqn:E
    | |- context [assoc _ (assoc_set _ _ _)] => rewrite assoc_assoc_set
    | H : context [assoc _ (assoc_set _ _ _)] |- _ =>
        rewrite assoc_assoc_set in H; simpl in H
    end;
    simpl;
    repeat
      match goal with
      | |- context [String.eqb k ?c] =>
          let E := fresh "E" in
          destruct (String.eqb k c) eqn:E;
          [apply String.eqb_eq in E; subst k|]
      end;
    simpl; try congruence; try reflexivity.
Qed.

(** After the positions were cleared, [getattr(node, "lineno", None)] is
    [None]. *)
Lemma get_lineno_strip_positions v : get_lineno (strip_positions v) = None.
Proof.
  destruct v as [a|items|cls fields attrs]; simpl; try reflexivity.
  rewrite assoc_clear_positions. simpl.
  now destruct (assoc "lineno" attrs).
Qed.

(** ** [ast.walk] meets every node *)

(** The nodes [ast.walk] is to meet below a field value: below a node,
    the node and everything below its fields; below a list, what is below
    its items that are nodes. *)
Fixpoint nodes (v : value) : list value :=
  match v with
  | Atom _ => []
  | Lst _ => []
  | Obj cls fields attrs =>
      v :: flat_map
             (fun kv =>
                match snd kv with
                | Atom _ => []
                | Lst items =>
                    flat_map
                      (fun x => match x with Obj _ _ _ => nodes x | _ => [] end)
                      items
                | Obj _ _ _ => nodes (snd kv)
                end) fields
  end.

Definition below (v : value) : list value :=
  match v with
  | Atom _ => []
  | Lst items =>
      flat_map (fun x => match x with Obj _ _ _ => nodes x | _ => [] end) items
  | Obj _ _ _ => nodes v
  end.

Lemma nodes_children v :
  is_obj v = true ->
  nodes v = v :: flat_map nodes (iter_child_nodes v).
Proof.
  destruct v as [a|items|cls fields attrs]; try discriminate. intros _.
  simpl. f_equal.
  induction fields as [|[k x] fields IH]; simpl; [reflexivity|].
  rewrite flat_map_app, <- IH. f_equal.
  destruct x as [a|items|c f a]; simpl.
  - reflexivity.
  - clear IH. induction items as [|y items IHi]; simpl; [reflexivity|].
    destruct y as [a|its|c f a]; simpl; try exact IHi.
    now rewrite IHi.
  - now rewrite app_nil_r.
Qed.

Lemma iter_child_nodes_obj v :
  Forall (fun x => is_obj x = true) (iter_child_nodes v).
Proof.
  apply Forall_forall. intros x Hx.
  destruct v as [a|items|cls fields attrs]; simpl in Hx; try contradiction.
  apply in_flat_map in Hx. destruct Hx as [[k y] [_ Hy]]. simpl in Hy.
  destruct y as [a|items|c f a].
  - contradiction.
  - apply filter_In in Hy. tauto.
  - destruct Hy as [<-|[]]. reflexivity.
Qed.

(** [node_count] is enough fuel. *)
Lemma length_below_le v : List.length (below v) <= node_count v.
Proof.
  induction v as [a|items IH|cls fields attrs IH] using value_ind'.
  - simpl. lia.
  - simpl. induction IH as [|x l Hx _ IHl]; simpl; [lia|].
    rewrite length_app.
    assert (List.length (match x with Obj _ _ _ => nodes x | _ => [] end)
            <= node_count x).
    { destruct x; simpl in *; lia. }
    lia.
  - change (below (Obj cls fields attrs))
      with (Obj cls fields attrs :: flat_map (fun kv => below (snd kv)) fields).
    simpl. apply le_n_S.
    induction IH as [|[k x] l Hx _ IHl]; simpl; [lia|].
    rewrite length_app. simpl in Hx. lia.
Qed.

Lemma walk_queue_perm : forall fuel q,
  Forall (fun x => is_obj x = true) q ->
  List.length (flat_map nodes q) <= fuel ->
  Permutation (walk_queue fuel q) (flat_map nodes q).
Proof.
  induction fuel as [|fuel IH]; intros q Hq Hlen.
  - destruct (flat_map nodes q); [constructor | simpl in Hlen; lia].
  - destruct q as [|node rest]; [constructor|].
    inversion Hq as [|? ? Hnode Hrest]; subst.
    simpl walk_queue. simpl flat_map.
    simpl in Hlen. rewrite (nodes_children node Hnode) in *.
    simpl in *. rewrite length_app in Hlen.
    constructor.
    eapply Permutation_trans; [|apply Permutation_app_comm].
    rewrite <- flat_map_app. apply IH.
    + apply Forall_app. split; [exact Hrest | apply iter_child_nodes_obj].
    + rewrite flat_map_app, length_app. lia.
Qed.

(** [ast.walk] meets every node below its argument, once per place. *)
Lemma walk_perm n : is_obj n = true -> Permutation (walk n) (nodes n).
Proof.
  intros Hn. unfold walk.
  rewrite <- (app_nil_r (nodes n)). change (nodes n ++ []) with (flat_map nodes [n]).
  apply walk_queue_perm.
  - constructor; [exact Hn | constructor].
  - simpl. rewrite app_nil_r.
    destruct n; try discriminate. apply (length_below_le (Obj cls fields attrs)).
Qed.

End PyAstFacts.

(* ================================================================== *)
(** * Properties of find_duplicate_functions.py *)
(* ================================================================== *)

Module ExactDupSpec.
Import PyAst Py PyFacts PyAstFacts ExactDup.

(** The function definitions [main] meets, in the order it meets them,
    each with the relative path of its file. *)
Definition top_level_functions (files : list (string * source_file))
  : list (string * value) :=
  flat_map
    (fun pf =>
       match snd pf with
       | Parsed body => map (fun n => (fst pf, n)) (filter is_function_def body)
       | _ => []
       end) files.

(** [len(g["occurrences"])]. *)
Definition count (g : group) : nat := List.length (occurrences g).

Definition string_eqb_eq : forall x y, String.eqb x y = true <-> x = y :=
  String.eqb_eq.

Section WithHash.
Variable sha256_hexdigest : string -> string.

#[local] Abbreviation extract_one := (extract_one sha256_hexdigest).
#[local] Abbreviation index_files := (index_files sha256_hexdigest).
#[local] Abbreviation main := (main sha256_hexdigest).

(** The occurrence [main] records for the definition [n] found in the
    file [p], under the hash of [n]. *)
Definition occurrence_of (pn : string * value) : occurrence :=
  {| path := fst pn;
     name := ex_name (extract_one (snd pn));
     lineno := ex_lineno (extract_one (snd pn)) |}.

Definition hash_of (pn : string * value) : string :=
  ex_hash (extract_one (snd pn)).

Lemma index_file_fill rel (l : list value) : forall idx,
  index_file rel (map extract_one l) idx
  = fill String.eqb hash_of occurrence_of (map (fun n => (rel, n)) l) idx.
Proof.
  unfold index_file, fill.
  induction l as [|n l IH]; intros idx; simpl; [reflexivity|].
  apply IH.
Qed.

Lemma fill_app {X} (key : X -> string) (val : X -> occurrence) xs ys d :
  fill String.eqb key val (xs ++ ys) d
  = fill String.eqb key val ys (fill String.eqb key val xs d).
Proof. unfold fill. apply fold_left_app. Qed.

Lemma index_files_fill files : forall idx idx',
  index_files files idx = inr idx' ->
  idx' = fill String.eqb hash_of occurrence_of (top_level_functions files) idx.
Proof.
  induction files as [|[rel f] files IH]; intros idx idx' H; simpl in *.
  - now inversion H.
  - rewrite fill_app. destruct f as [|e|body]; simpl in *.
    + now apply IH.
    + destruct (is_SyntaxError e); [now apply IH | discriminate].
    + apply IH. now rewrite <- index_file_fill.
Qed.

(** The occurrences stored under a hash are the definitions with that
    hash, in the order they were met. *)
Lemma index_files_get files idx h :
  index_files files [] = inr idx ->
  dd_get String.eqb h idx
  = map occurrence_of
      (filter (fun pn => String.eqb h (hash_of pn)) (top_level_functions files)).
Proof.
  intros H. apply index_files_fill in H. subst idx.
  now rewrite (dd_get_fill String.eqb string_eqb_eq).
Qed.

Lemma index_files_NoDup files idx :
  index_files files [] = inr idx -> NoDup (dd_keys idx).
Proof.
  intros H. apply index_files_fill in H. subst idx.
  apply (dd_keys_fill_NoDup String.eqb string_eqb_eq). constructor.
Qed.

(** [dupes] holds exactly the entries of [func_index] with more than one
    occurrence. *)
Lemma dupes_of_In (idx : index) g :
  In g (dupes_of idx)
  <-> In (function_hash g, occurrences g) idx /\ 2 <= count g.
Proof.
  unfold dupes_of. rewrite sort_desc_In, in_flat_map. unfold count. split.
  - intros [[h occs] [Hin Hg]].
    destruct (Nat.ltb_spec 1 (List.length occs)) as [L|L]; [|contradiction].
    destruct Hg as [<-|[]]. simpl. split; [exact Hin | lia].
  - intros [Hin L]. exists (function_hash g, occurrences g). split; [exact Hin|].
    destruct (Nat.ltb_spec 1 (List.length (occurrences g))) as [L'|L']; [|lia].
    left. now destruct g.
Qed.

Lemma dupes_of_sorted (idx : index) :
  StronglySorted (fun g1 g2 => count g2 <= count g1) (dupes_of idx).
Proof. unfold dupes_of. apply (sort_desc_sorted count). Qed.


(** [extract_functions] reads [node.lineno] after [normalized_ast_dump]
    cleared it on the same node: the line recorded for an occurrence is
    always [None]. *)
Lemma recorded_lineno_is_none node : ex_lineno (extract_one node) = None.
Proof.
  unfold ExactDup.extract_one, normalized_ast_dump. simpl.
  apply get_lineno_strip_positions.
Qed.

Lemma occurrence_lineno_is_none files idx h occ :
  index_files files [] = inr idx ->
  In occ (dd_get String.eqb h idx) -> lineno occ = None.
Proof.
  intros Hidx Hocc. rewrite (index_files_get files idx h Hidx) in Hocc.
  apply in_map_iff in Hocc. destruct Hocc as [pn [<- _]].
  unfold occurrence_of, ExactDup.extract_one, normalized_ast_dump. simpl.
  apply get_lineno_strip_positions.
Qed.

(** The occurrences of a reported group are the function definitions with
    the group's hash, in the order the scan met them. *)
Theorem occurrences_in_scan_order files idx g :
  index_files files [] = inr idx ->
  In g (dupes_of idx) ->
  occurrences g
  = map occurrence_of
      (filter (fun pn => String.eqb (function_hash g) (hash_of pn))
         (top_level_functions files)).
Proof.
  intros Hidx Hg. apply dupes_of_In in Hg. destruct Hg as [Hin _].
  rewrite <- (index_files_get files idx (function_hash g) Hidx).
  symmetry. apply (dd_In_get String.eqb string_eqb_eq); [|exact Hin].
  now apply (index_files_NoDup files).
Qed.

(** C3: two top-level function definitions that are identical up to their
    source positions get the same normalized dump, hence the same hash, and
    end up as occurrences of one reported duplicate group. *)
Theorem position_insensitive_grouping :
  forall files idx l1 l2 l3 p1 n1 p2 n2,
    index_files files [] = inr idx ->
    top_level_functions files = l1 ++ (p1, n1) :: l2 ++ (p2, n2) :: l3 ->
    same_modulo_positions n1 n2 ->
    fst (normalized_ast_dump n1) = fst (normalized_ast_dump n2)
    /\ hash_of (p1, n1) = hash_of (p2, n2)
    /\ exists g,
         In g (dupes_of idx)
         /\ function_hash g = hash_of (p1, n1)
         /\ In (occurrence_of (p1, n1)) (occurrences g)
         /\ In (occurrence_of (p2, n2)) (occurrences g).
Proof.
  intros files idx l1 l2 l3 p1 n1 p2 n2 Hidx Htop Hsame.
  assert (Hdump : fst (normalized_ast_dump n1) = fst (normalized_ast_dump n2)).
  { unfold normalized_ast_dump; simpl.
    rewrite !dump_strip_positions. now rewrite Hsame. }
  assert (Hhash : hash_of (p1, n1) = hash_of (p2, n2)).
  { unfold hash_of, ExactDup.extract_one, hash_text; simpl.
    unfold normalized_ast_dump in Hdump; simpl in Hdump. now rewrite Hdump. }
  split; [exact Hdump|]. split; [exact Hhash|].
  set (h := hash_of (p1, n1)) in *.
  pose proof (index_files_get files idx h Hidx) as Hget.
  rewrite Htop in Hget.
  rewrite filter_app in Hget; simpl in Hget.
  rewrite filter_app in Hget; simpl in Hget.
  fold h in Hget. rewrite <- Hhash in Hget.
  rewrite String.eqb_refl in Hget.
  rewrite !map_app in Hget; simpl in Hget.
  rewrite !map_app in Hget; simpl in Hget.
  exists {| function_hash := h; occurrences := dd_get String.eqb h idx |}.
  split; [|split; [reflexivity|]]; simpl.
  - apply dupes_of_In; simpl. split.
    + apply (dd_key_In_get String.eqb string_eqb_eq).
      apply (dd_get_nonempty_key String.eqb string_eqb_eq).
      rewrite Hget. intros E. apply app_eq_nil in E. destruct E; discriminate.
    + unfold count; simpl. rewrite Hget.
      rewrite length_app; simpl. rewrite length_app; simpl. lia.
  - rewrite Hget. split.
    + apply in_or_app; right; left; reflexivity.
    + apply in_or_app; right; right.
      apply in_or_app; right; left; reflexivity.
Qed.

(** C4: when the scan completes, the reported groups are exactly the
    entries of the hash index with two or more occurrences, they come in
    descending order of occurrence count, and a scan that met no function
    definition reports zero groups. *)
Theorem reported_groups :
  forall w idx,
    root_exists w = true ->
    index_files (py_files w) [] = inr idx ->
    exists r,
      main w = Completed r
      /\ (forall g,
            In g (groups r)
            <-> In (function_hash g, occurrences g) idx /\ 2 <= count g)
      /\ StronglySorted (fun g1 g2 => count g2 <= count g1) (groups r)
      /\ duplicate_groups r = List.length (groups r)
      /\ (top_level_functions (py_files w) = [] ->
          groups r = [] /\ duplicate_groups r = 0).
Proof.
  intros w idx Hroot Hidx. unfold ExactDup.main.
  rewrite Hroot, Hidx; simpl.
  eexists; split; [reflexivity|]; simpl.
  split; [intros g; apply dupes_of_In|].
  split; [apply dupes_of_sorted|].
  split; [reflexivity|].
  intros Hnone. apply index_files_fill in Hidx.
  rewrite Hnone in Hidx; simpl in Hidx. subst idx. split; reflexivity.
Qed.

End WithHash.

(** The hash index after scanning [three_files]. *)
Definition three_files_index : index :=
  [(hash_of Samples.plain_hash ("a.py", Samples.def_duplicate 1),
    [occurrence_of Samples.plain_hash ("a.py", Samples.def_duplicate 1);
     occurrence_of Samples.plain_hash ("b.py", Samples.def_duplicate 5)]);
   (hash_of Samples.plain_hash ("b.py", Samples.def_other 1),
    [occurrence_of Samples.plain_hash ("b.py", Samples.def_other 1)])].

Lemma position_insensitive_grouping_witness :
  exists g,
    In g (dupes_of three_files_index)
    /\ function_hash g
       = hash_of Samples.plain_hash ("a.py", Samples.def_duplicate 1)
    /\ In (occurrence_of Samples.plain_hash ("a.py", Samples.def_duplicate 1))
         (occurrences g)
    /\ In (occurrence_of Samples.plain_hash ("b.py", Samples.def_duplicate 5))
         (occurrences g).
Proof.
  destruct
    (position_insensitive_grouping Samples.plain_hash
       (py_files Samples.three_files) three_files_index
       [] [("b.py", Samples.def_other 1)] []
       "a.py" (Samples.def_duplicate 1) "b.py" (Samples.def_duplicate 5)
       eq_refl eq_refl eq_refl) as (_ & _ & H).
  exact H.
Defined.

Lemma occurrences_in_scan_order_witness :
  [occurrence_of Samples.plain_hash ("a.py", Samples.def_duplicate 1);
   occurrence_of Samples.plain_hash ("b.py", Samples.def_duplicate 5)]
  = map (occurrence_of Samples.plain_hash)
      (filter
         (fun pn =>
            String.eqb
              (hash_of Samples.plain_hash ("a.py", Samples.def_duplicate 1))
              (hash_of Samples.plain_hash pn))
         (top_level_functions (py_files Samples.three_files))).
Proof.
  apply (occurrences_in_scan_order Samples.plain_hash
           (py_files Samples.three_files) three_files_index
           {| function_hash :=
                hash_of Samples.plain_hash ("a.py", Samples.def_duplicate 1);
              occurrences :=
                [occurrence_of Samples.plain_hash
                   ("a.py", Samples.def_duplicate 1);
                 occurrence_of Samples.plain_hash
                   ("b.py", Samples.def_duplicate 5)] |}).
  - reflexivity.
  - vm_compute. left. reflexivity.
Defined.

Lemma reported_groups_witness :
  exists r,
    ExactDup.main Samples.plain_hash Samples.three_files = Completed r
    /\ duplicate_groups r = 1.
Proof.
  destruct
    (reported_groups Samples.plain_hash Samples.three_files three_files_index
       eq_refl eq_refl) as (r & Hmain & Hin & Hsorted & Hlen & Hempty).
  exists r. split; [exact Hmain|].
  rewrite Hlen. inversion Hmain. reflexivity.
Defined.

End ExactDupSpec.

(* ================================================================== *)
(** * Facts about binary64 arithmetic *)
(* ================================================================== *)

(** What the length test needs to know about [min(la, lb) * 0.35]: the
    product is rounded, and the rounded value has to be compared with the
    integer [abs(la - lb)]. *)
Module FloatFacts.
Import Py.
Local Open Scope Z_scope.

Lemma digits2_bounds p :
  2 ^ (Z.pos (digits2_pos p) - 1) <= Z.pos p < 2 ^ Z.pos (digits2_pos p).
Proof.
  induction p as [p IH|p IH|]; simpl digits2_pos.
  - rewrite Pos2Z.inj_succ, Z.pow_succ_r by lia.
    replace (Z.succ (Z.pos (digits2_pos p)) - 1) with (Z.succ (Z.pos (digits2_pos p) - 1)) by lia.
    rewrite Z.pow_succ_r by lia. lia.
  - rewrite Pos2Z.inj_succ, Z.pow_succ_r by lia.
    replace (Z.succ (Z.pos (digits2_pos p)) - 1) with (Z.succ (Z.pos (digits2_pos p) - 1)) by lia.
    rewrite Z.pow_succ_r by lia. lia.
  - simpl. lia.
Qed.

Lemma shr_1_m r : 0 <= shr_m r -> shr_m (shr_1 r) = shr_m r / 2.
Proof.
  destruct r as [m rb sb]; simpl. intros Hm.
  destruct m as [|p|p]; [reflexivity| |lia].
  destruct p as [p|p|]; simpl shr_m.
  - rewrite Pos2Z.inj_xI. apply Z.div_unique with 1; lia.
  - rewrite Pos2Z.inj_xO. apply Z.div_unique with 0; lia.
  - reflexivity.
Qed.

Lemma iter_pos_shr_m n : forall r,
  0 <= shr_m r ->
  shr_m (iter_pos shr_1 n r) = shr_m r / 2 ^ Z.pos n.
Proof.
  assert (Hpos : forall k, 0 < 2 ^ Z.pos k).
  { intros k. apply Z.pow_pos_nonneg; lia. }
  induction n as [n IH|n IH|]; intros r Hr; simpl iter_pos.
  - assert (H1 : shr_m (shr_1 r) = shr_m r / 2) by now apply shr_1_m.
    assert (P1 : 0 <= shr_m (shr_1 r)).
    { rewrite H1. apply Z.div_pos; lia. }
    assert (H2 := IH _ P1).
    assert (P2 : 0 <= shr_m (iter_pos shr_1 n (shr_1 r))).
    { rewrite H2. apply Z.div_pos; [exact P1 | apply Hpos]. }
    rewrite (IH _ P2), H2, H1.
    rewrite !Zdiv.Zdiv_Zdiv by (pose proof (Hpos n); lia).
    f_equal.
    replace (Z.pos n~1) with (1 + Z.pos n + Z.pos n) by lia.
    rewrite !Z.pow_add_r by lia. lia.
  - assert (H2 := IH _ Hr).
    assert (P2 : 0 <= shr_m (iter_pos shr_1 n r)).
    { rewrite H2. apply Z.div_pos; [exact Hr | apply Hpos]. }
    rewrite (IH _ P2), H2.
    rewrite !Zdiv.Zdiv_Zdiv by (pose proof (Hpos n); lia).
    f_equal.
    replace (Z.pos n~0) with (Z.pos n + Z.pos n) by lia.
    rewrite !Z.pow_add_r by lia. lia.
  - now apply shr_1_m.
Qed.

Lemma iter_xO_pow p d : Z.pos (Pos.iter xO p d) = Z.pos p * 2 ^ Z.pos d.
Proof.
  induction d as [|d IH] using Pos.peano_ind.
  - simpl. lia.
  - rewrite Pos.iter_succ, Pos2Z.inj_xO, IH, Pos2Z.inj_succ, Z.pow_succ_r by lia.
    lia.
Qed.

Lemma round_nearest_even_bounds m l :
  m <= round_nearest_even m l <= m + 1.
Proof.
  destruct l as [|[| |]]; simpl; try lia. destruct (Z.even m); lia.
Qed.

Lemma Zdigits2_bounds m :
  0 < m -> 2 ^ (Zdigits2 m - 1) <= m < 2 ^ Zdigits2 m.
Proof.
  destruct m as [|p|p]; try lia. intros _. apply digits2_bounds.
Qed.

Lemma Zdigits2_unique m d :
  0 < d -> 2 ^ (d - 1) <= m < 2 ^ d -> Zdigits2 m = d.
Proof.
  intros Hd [Hlo Hhi].
  assert (Hm : 0 < m).
  { eapply Z.lt_le_trans; [|exact Hlo]. apply Z.pow_pos_nonneg; lia. }
  destruct (Zdigits2_bounds m Hm) as [Hlo' Hhi'].
  assert (Hdg : 0 < Zdigits2 m) by (destruct m; simpl in *; lia).
  assert (~ Zdigits2 m < d).
  { intros L. assert (2 ^ Zdigits2 m <= 2 ^ (d - 1)) by (apply Z.pow_le_mono_r; lia). lia. }
  assert (~ d < Zdigits2 m).
  { intros L. assert (2 ^ d <= 2 ^ (Zdigits2 m - 1)) by (apply Z.pow_le_mono_r; lia). lia. }
  lia.
Qed.

Lemma shr_exact_record m : loc_of_shr_record (shr_record_of_loc m loc_Exact) = loc_Exact.
Proof. reflexivity. Qed.

(** Rounding a mantissa of at least 54 digits in the normal range. *)
Lemma binary_round_aux_upper mx ex :
  let D := Z.pos (digits2_pos mx) in
  54 <= D -> -1074 <= D + ex - 53 -> D + ex - 53 < 971 ->
  exists m2 e2,
    binary_round_aux 53 1024 false (Z.pos mx) ex loc_Exact
    = S754_finite false m2 e2
    /\ ex + (D - 53) <= e2 <= ex + (D - 53) + 1
    /\ Z.pos m2 * 2 ^ (e2 - ex) <= Z.pos mx + 2 ^ (D - 53).
Proof.
  intros D H54 Hlo Hhi.
  destruct (digits2_bounds mx) as [Blo Bhi]. fold D in Blo, Bhi.
  destruct (D - 53) as [|s|s] eqn:Es; try lia.
  assert (Hs : 0 < 2 ^ Z.pos s) by (apply Z.pow_pos_nonneg; lia).
  set (rec1 := iter_pos shr_1 s (shr_record_of_loc (Z.pos mx) loc_Exact)).
  assert (Hq : shr_m rec1 = Z.pos mx / 2 ^ Z.pos s).
  { unfold rec1. rewrite iter_pos_shr_m; simpl; [reflexivity | lia]. }
  set (q := shr_m rec1) in *.
  assert (Hpow : 2 ^ (D - 1) = 2 ^ 52 * 2 ^ Z.pos s).
  { replace (D - 1) with (52 + Z.pos s) by lia. apply Z.pow_add_r; lia. }
  assert (Hpow' : 2 ^ D = 2 ^ 53 * 2 ^ Z.pos s).
  { replace D with (53 + Z.pos s) by lia. apply Z.pow_add_r; lia. }
  assert (Hq1 : 2 ^ 52 <= q).
  { rewrite Hq. apply Z.div_le_lower_bound; [exact Hs | lia]. }
  assert (Hq2 : q < 2 ^ 53).
  { rewrite Hq. apply Z.div_lt_upper_bound; [exact Hs | lia]. }
  assert (Hq3 : q * 2 ^ Z.pos s <= Z.pos mx).
  { rewrite Hq. rewrite Z.mul_comm. apply Z.mul_div_le. exact Hs. }
  set (r1 := round_nearest_even q (loc_of_shr_record rec1)).
  assert (Hr1 : q <= r1 <= q + 1) by apply round_nearest_even_bounds.
  assert (E1 : shr_fexp 53 1024 (Z.pos mx) ex loc_Exact = (rec1, ex + Z.pos s)).
  { unfold shr_fexp, fexp, emin. simpl Zdigits2. fold D.
    replace (Z.max (D + ex - 53) (3 - 1024 - 53) - ex) with (Z.pos s) by lia.
    reflexivity. }
  unfold binary_round_aux. rewrite E1. fold q. fold r1.
  set (e1 := ex + Z.pos s).
  assert (Hr1pos : 0 < r1) by (assert (0 < 2 ^ 52) by (apply Z.pow_pos_nonneg; lia); lia).
  destruct (Z_lt_le_dec r1 (2 ^ 53)) as [Hlt|Hge].
  - assert (Hdg : Zdigits2 r1 = 53) by (apply Zdigits2_unique; simpl; lia).
    assert (E2 : shr_fexp 53 1024 r1 e1 loc_Exact = (shr_record_of_loc r1 loc_Exact, e1)).
    { unfold shr_fexp, fexp, emin. rewrite Hdg.
      replace (Z.max (53 + e1 - 53) (3 - 1024 - 53) - e1) with 0 by (unfold e1; lia).
      reflexivity. }
    rewrite E2. simpl shr_m.
    destruct r1 as [|m2|m2] eqn:Er; try lia.
    exists m2, e1. replace (e1 <=? 1024 - 53) with true by (symmetry; apply Z.leb_le; unfold e1; lia).
    split; [reflexivity|]. split; [unfold e1; lia|].
    replace (e1 - ex) with (Z.pos s) by (unfold e1; lia). nia.
  - assert (Er : r1 = 2 ^ 53) by lia.
    assert (Hdg : Zdigits2 r1 = 54) by (rewrite Er; reflexivity).
    assert (E2 : shr_fexp 53 1024 r1 e1 loc_Exact
                 = (shr_1 (shr_record_of_loc r1 loc_Exact), e1 + 1)).
    { unfold shr_fexp, fexp, emin. rewrite Hdg.
      replace (Z.max (54 + e1 - 53) (3 - 1024 - 53) - e1) with 1 by (unfold e1; lia).
      reflexivity. }
    rewrite E2. rewrite shr_1_m by (simpl; lia). simpl shr_m. rewrite Er.
    change (2 ^ 53 / 2) with (Z.pos (2 ^ 52)).
    exists (2 ^ 52)%positive, (e1 + 1).
    replace (e1 + 1 <=? 1024 - 53) with true by (symmetry; apply Z.leb_le; unfold e1; lia).
    split; [reflexivity|]. split; [unfold e1; lia|].
    replace (e1 + 1 - ex) with (1 + Z.pos s) by (unfold e1; lia).
    rewrite Z.pow_add_r by lia.
    change (Z.pos (2 ^ 52)) with 4503599627370496.
    change (2 ^ 1) with 2. change (2 ^ 53) with 9007199254740992 in *.
    nia.
Qed.

(** A 53-digit mantissa in the normal range is left as it is. *)
Lemma binary_round_aux_exact mz ez :
  Z.pos (digits2_pos mz) = 53 -> -1074 <= ez <= 971 ->
  binary_round_aux 53 1024 false (Z.pos mz) ez loc_Exact
  = S754_finite false mz ez.
Proof.
  intros Hd He.
  assert (E : shr_fexp 53 1024 (Z.pos mz) ez loc_Exact
              = (shr_record_of_loc (Z.pos mz) loc_Exact, ez)).
  { unfold shr_fexp, fexp, emin. simpl Zdigits2. rewrite Hd.
    replace (Z.max (53 + ez - 53) (3 - 1024 - 53) - ez) with 0 by lia.
    reflexivity. }
  unfold binary_round_aux. rewrite E. simpl shr_m.
  simpl loc_of_shr_record. simpl round_nearest_even. rewrite E. simpl shr_m.
  replace (ez <=? 1024 - 53) with true by (symmetry; apply Z.leb_le; lia).
  reflexivity.
Qed.

(** [float(n)] for a positive [n] of at most 53 bits: the mantissa is [n]
    shifted up to 53 digits. *)
Lemma float_of_int_pos p :
  let n := Z.pos (digits2_pos p) in
  n <= 53 ->
  exists mz,
    float_of_int (Z.pos p) = S754_finite false mz (n - 53)
    /\ Z.pos mz = Z.pos p * 2 ^ (53 - n)
    /\ Z.pos (digits2_pos mz) = 53.
Proof.
  intros n Hn. destruct (digits2_bounds p) as [Blo Bhi]. fold n in Blo, Bhi.
  unfold float_of_int, binary_normalize, binary_round, prec, emax.
  assert (Ef : fexp 53 1024 (Z.pos (digits2_pos p) + 0) = n - 53).
  { unfold fexp, emin. fold n. lia. }
  rewrite Ef. unfold shl_align.
  destruct (n - 53 - 0) as [|d|d] eqn:Ed; try lia.
  - exists p. replace (n - 53) with 0 by lia. replace (53 - n) with 0 by lia.
    assert (Hd : Z.pos (digits2_pos p) = 53) by (fold n; lia).
    rewrite binary_round_aux_exact by (auto; lia).
    split; [reflexivity|]. split; [simpl; lia | exact Hd].
  - assert (Hm : Z.pos (Pos.iter xO p d) = Z.pos p * 2 ^ (53 - n)).
    { rewrite iter_xO_pow. f_equal. f_equal. lia. }
    assert (Hd : Z.pos (digits2_pos (Pos.iter xO p d)) = 53).
    { change (Zdigits2 (Z.pos (Pos.iter xO p d)) = 53).
      apply Zdigits2_unique; [lia|]. rewrite Hm.
      assert (Hp : 0 < 2 ^ (53 - n)) by (apply Z.pow_pos_nonneg; lia).
      assert (E52 : 2 ^ (53 - 1) = 2 ^ (n - 1) * 2 ^ (53 - n)).
      { rewrite <- Z.pow_add_r by lia. f_equal. lia. }
      assert (E53 : 2 ^ 53 = 2 ^ n * 2 ^ (53 - n)).
      { rewrite <- Z.pow_add_r by lia. f_equal. lia. }
      rewrite E52, E53. split.
      - apply Z.mul_le_mono_nonneg_r; lia.
      - apply Z.mul_lt_mono_pos_r; lia. }
    exists (Pos.iter xO p d).
    rewrite binary_round_aux_exact by (auto; lia).
    auto.
Qed.

Lemma digits2_le p k : 0 <= k -> Z.pos p < 2 ^ k -> Z.pos (digits2_pos p) <= k.
Proof.
  intros Hk Hp. destruct (digits2_bounds p) as [Blo _].
  destruct (Z_le_gt_dec (Z.pos (digits2_pos p)) k) as [L|G]; [exact L|].
  assert (2 ^ k <= 2 ^ (Z.pos (digits2_pos p) - 1)) by (apply Z.pow_le_mono_r; lia).
  lia.
Qed.

Lemma digits2_ge p k : 0 <= k -> 2 ^ k <= Z.pos p -> k < Z.pos (digits2_pos p).
Proof.
  intros Hk Hp. destruct (digits2_bounds p) as [_ Bhi].
  destruct (Z_lt_le_dec k (Z.pos (digits2_pos p))) as [L|G]; [exact L|].
  assert (2 ^ Z.pos (digits2_pos p) <= 2 ^ k) by (apply Z.pow_le_mono_r; lia).
  lia.
Qed.

(** [n * 0.35], computed in binary64, stays below every integer [d] with
    [d > 0.35 n], for [n] below [2^49]. *)
Lemma mul_0_35_below p d :
  Z.pos p < 2 ^ 49 -> 7 * Z.pos p < 20 * d ->
  int_cmp_float d (float_mul (float_of_int (Z.pos p)) lit_0_35) = Some Gt.
Proof.
  intros Hp Hd.
  set (n := Z.pos (digits2_pos p)).
  assert (Hn : n <= 49) by (apply digits2_le; [lia | exact Hp]).
  destruct (float_of_int_pos p) as (mz & Hf & Hmz & Hdg); [fold n; lia|].
  fold n in Hf, Hmz.
  unfold float_mul, lit_0_35. rewrite Hf. unfold SFmul, prec, emax. simpl xorb.
  set (c := 6305039478318694%positive).
  set (P := (mz * c)%positive).
  set (T := 2 ^ (53 - n)) in *.
  assert (HT : 16 <= T).
  { change 16 with (2 ^ 4). apply Z.pow_le_mono_r; lia. }
  destruct (digits2_bounds mz) as [Mlo Mhi]. rewrite Hdg in Mlo, Mhi.
  change (2 ^ (53 - 1)) with 4503599627370496 in Mlo.
  change (2 ^ 53) with 9007199254740992 in Mhi.
  assert (HP : Z.pos P = Z.pos mz * 6305039478318694) by reflexivity.
  assert (D1 : 104 < Z.pos (digits2_pos P)).
  { apply digits2_ge; [lia|]. rewrite HP.
    change (2 ^ 104) with 20282409603651670423947251286016. lia. }
  assert (D2 : Z.pos (digits2_pos P) <= 106).
  { apply digits2_le; [lia|]. rewrite HP.
    change (2 ^ 106) with 81129638414606681695789005144064. lia. }
  destruct (binary_round_aux_upper P (n - 53 + -54)) as (m2 & e2 & E & He & Hb);
    try lia.
  rewrite E. unfold int_cmp_float.
  replace (0 <=? e2) with false by (symmetry; apply Z.leb_gt; lia).
  f_equal. apply Z.compare_gt_iff.
  set (E0 := n - 53 + -54) in *. set (D := Z.pos (digits2_pos P)) in *.
  assert (HA : 0 < 2 ^ (e2 - E0)) by (apply Z.pow_pos_nonneg; lia).
  assert (HB : 0 < 2 ^ (- e2)) by (apply Z.pow_pos_nonneg; lia).
  assert (HAB : 2 ^ (- e2) * 2 ^ (e2 - E0) = 18014398509481984 * T).
  { rewrite <- Z.pow_add_r by lia. change 18014398509481984 with (2 ^ 54).
    unfold T. rewrite <- Z.pow_add_r by lia. f_equal. unfold E0. lia. }
  assert (H53 : 2 ^ (D - 53) <= 9007199254740992).
  { change 9007199254740992 with (2 ^ 53). apply Z.pow_le_mono_r; lia. }
  destruct (Z_lt_le_dec (Z.pos m2) (d * 2 ^ (- e2))) as [L|G]; [exact L|].
  exfalso.
  assert (G' : d * 2 ^ (- e2) * 2 ^ (e2 - E0) <= Z.pos m2 * 2 ^ (e2 - E0)).
  { apply Z.mul_le_mono_nonneg_r; lia. }
  rewrite <- Z.mul_assoc, HAB in G'.
  rewrite HP, Hmz in Hb.
  assert (HV : 7 * (Z.pos p * T) + T <= 20 * (d * T)) by nia.
  set (U := Z.pos p * T) in *. set (V := d * T) in *.
  assert (HU : 0 < U) by (unfold U; nia).
  replace (d * (18014398509481984 * T)) with (18014398509481984 * V) in G' by (unfold V; ring).
  lia.
Qed.

(** The length test rejects every pair whose length difference exceeds
    [max(120, 0.35 * min(la, lb))] (written with integers, times 20). *)
Lemma too_far_beyond la lb :
  0 <= la < 2 ^ 49 -> 0 <= lb < 2 ^ 49 ->
  Z.max 2400 (7 * Z.min la lb) < 20 * Z.abs (la - lb) ->
  NearDup.too_far la lb = true.
Proof.
  intros Ha Hb H. unfold NearDup.too_far.
  set (d := Z.abs (la - lb)) in *. set (m := Z.min la lb) in *.
  assert (Hd : 120 < d) by lia.
  assert (Hm : 0 <= m < 2 ^ 49) by (unfold m; lia).
  unfold mul.
  destruct m as [|p|p] eqn:Em; [| |lia].
  - simpl. apply Z.ltb_lt. exact Hd.
  - pose proof (mul_0_35_below p d (proj2 Hm)) as C.
    unfold max, gt.
    destruct (int_cmp_float 120 (float_mul (float_of_int (Z.pos p)) lit_0_35))
      as [[]|]; try (apply Z.ltb_lt; exact Hd).
    rewrite C by lia. reflexivity.
Qed.

(** The converse fails on a rounding edge: [360 * 0.35] is
    [125.99999999999999] in binary64, so a difference of 126, which does
    not exceed [0.35 * 360 = 126], is rejected all the same. *)
Lemma too_far_rounding_edge :
  NearDup.too_far 360 486 = true
  /\ ~ Z.max 2400 (7 * Z.min 360 486) < 20 * Z.abs (360 - 486).
Proof. split; [vm_compute; reflexivity | vm_compute; discriminate]. Qed.

End FloatFacts.

(* ================================================================== *)
(** * Properties of find_near_duplicate_functions.py *)
(* ================================================================== *)

Module NearDupSpec.
Import PyAst Py PyFacts NearDup.

(** [bucket_key(f["normalized_dump"])] and [len(f["normalized_dump"])]. *)
Definition key_of (f : func) : Z := bucket_key (normalized_dump f).
Definition len_of (f : func) : Z := len (normalized_dump f).

(** The identity of an occurrence: path and line. *)
Definition occ (f : func) : string * option Z := (path f, lineno f).

Definition Z_eqb_eq : forall x y, (x =? y)%Z = true <-> x = y := Z.eqb_eq.

(** ** Buckets and keys *)

Lemma make_buckets_fill funcs :
  make_buckets funcs = fill Z.eqb key_of (fun f => f) funcs [].
Proof. reflexivity. Qed.

Lemma bucket_get_make k funcs :
  bucket_get k (make_buckets funcs)
  = filter (fun f => (k =? key_of f)%Z) funcs.
Proof.
  unfold bucket_get. rewrite make_buckets_fill.
  rewrite (dd_get_fill Z.eqb Z_eqb_eq). simpl. apply map_id.
Qed.

Lemma bucket_get_In k funcs f :
  In f (bucket_get k (make_buckets funcs)) <-> In f funcs /\ key_of f = k.
Proof.
  rewrite bucket_get_make, filter_In, Z.eqb_eq. intuition.
Qed.

Lemma insert_key_In k l x : In x (insert_key k l) <-> x = k \/ In x l.
Proof.
  induction l as [|k' l IH]; simpl.
  - intuition.
  - destruct (k <=? k')%Z; simpl; [intuition|]. rewrite IH. intuition.
Qed.

Lemma sorted_keys_In (buckets : bucket_map) k :
  In k (sorted_keys buckets) <-> In k (dd_keys buckets).
Proof.
  unfold sorted_keys. induction (dd_keys buckets) as [|k' l IH]; simpl.
  - reflexivity.
  - rewrite insert_key_In, IH. intuition.
Qed.

Lemma sorted_keys_make funcs k :
  In k (sorted_keys (make_buckets funcs))
  <-> exists f, In f funcs /\ key_of f = k.
Proof.
  rewrite sorted_keys_In, make_buckets_fill.
  rewrite (dd_keys_fill Z.eqb Z_eqb_eq). simpl. intuition.
Qed.

(** ** The enumeration [i < j] *)

Lemma ordered_pairs_In {A} (l : list A) x y :
  In (x, y) (ordered_pairs l) -> In x l /\ In y l.
Proof.
  induction l as [|z l IH]; simpl; [intros []|].
  intros H. apply in_app_or in H. destruct H as [H|H].
  - apply in_map_iff in H. destruct H as [w [E Hw]]. inversion E; subst. auto.
  - destruct (IH H). auto.
Qed.

Lemma ordered_pairs_total {A} (l : list A) x y :
  In x l -> In y l -> x <> y ->
  In (x, y) (ordered_pairs l) \/ In (y, x) (ordered_pairs l).
Proof.
  induction l as [|z l IH]; simpl; [intros []|].
  intros [Hx|Hx] [Hy|Hy] Hne.
  - congruence.
  - subst z. left. apply in_or_app. left. now apply in_map.
  - subst z. right. apply in_or_app. left. now apply in_map.
  - destruct (IH Hx Hy Hne); [left | right]; apply in_or_app; now right.
Qed.

Lemma firstn_In {A} n (l : list A) x : In x (firstn n l) -> In x l.
Proof.
  intros H. rewrite <- (firstn_skipn n l). apply in_or_app. now left.
Qed.

(** ** Comparisons *)

Lemma option_Z_eqb_eq x y : option_Z_eqb x y = true <-> x = y.
Proof.
  destruct x as [u|], y as [v|]; simpl; try (split; congruence).
  rewrite Z.eqb_eq. split; congruence.
Qed.

Lemma same_occurrence_true a b :
  same_occurrence a b = true <-> occ a = occ b.
Proof.
  unfold same_occurrence, occ.
  rewrite andb_true_iff, String.eqb_eq, option_Z_eqb_eq.
  split; [intros [-> ->]; reflexivity | intros E; inversion E; auto].
Qed.

Lemma same_occurrence_false a b :
  same_occurrence a b = false ->
  path a <> path b \/ lineno a <> lineno b.
Proof.
  unfold same_occurrence. intros H. apply andb_false_iff in H.
  destruct H as [H|H].
  - left. now apply String.eqb_neq.
  - right. intros E. apply option_Z_eqb_eq in E. congruence.
Qed.

(** IEEE comparison is antisymmetric. *)
Lemma SFcompare_antisym x y :
  SFcompare y x = option_map CompOpp (SFcompare x y).
Proof.
  destruct x as [sx|sx| |sx mx ex], y as [sy|sy| |sy my ey]; simpl;
    try reflexivity;
    try (destruct sx; reflexivity); try (destruct sy; reflexivity);
    try (destruct sx, sy; reflexivity).
  destruct sx, sy; simpl; try reflexivity; f_equal;
    rewrite (Z.compare_antisym ex ey);
    destruct (ex ?= ey)%Z eqn:E; simpl; try reflexivity;
    rewrite (Pos.compare_cont_antisym mx my Eq); reflexivity.
Qed.

Lemma float_eq_ge r t : float_eq r t = true -> float_ge r t = true.
Proof.
  unfold float_eq, float_ge, SFeqb, SFleb. rewrite (SFcompare_antisym r t).
  destruct (SFcompare r t) as [[]|]; simpl; congruence.
Qed.

Lemma float_lt_not_ge r t : float_lt r t = true -> float_ge r t = false.
Proof.
  unfold float_lt, float_ge, SFltb, SFleb. rewrite (SFcompare_antisym r t).
  destruct (SFcompare r t) as [[]|]; simpl; congruence.
Qed.

(** A difference of exactly the bucket width is never too large:
    [120 > max(120, x)] is false whatever [x] is. *)
Lemma too_far_bucket_width la lb :
  Z.abs (la - lb) = 120%Z -> too_far la lb = false.
Proof.
  intros E. unfold too_far. rewrite E.
  destruct (mul (Int (Z.min la lb)) (Float lit_0_35)) as [z|x] eqn:M;
    [simpl in M; discriminate|].
  unfold max, gt.
  destruct (int_cmp_float 120 x) as [[]|] eqn:C; simpl; rewrite ?C;
    reflexivity.
Qed.

(** ** Unordered pairs of occurrences *)

(** Two candidate pairs name the same unordered pair of occurrences. *)
Definition same_unordered (e1 e2 : func * func) : Prop :=
  (occ (fst e1) = occ (fst e2) /\ occ (snd e1) = occ (snd e2))
  \/ (occ (fst e1) = occ (snd e2) /\ occ (snd e1) = occ (fst e2)).

Definition sides (p : pair) : func * func := (pair_a p, pair_b p).

(** No two entries of a list of pairs name the same unordered pair of
    occurrences. *)
Definition reported_once (l : list pair) : Prop :=
  ForallOrdPairs (fun p q => ~ same_unordered (sides p) (sides q)) l.

Lemma ForallOrdPairs_app {A} (R : A -> A -> Prop) l1 l2 :
  ForallOrdPairs R l1 -> ForallOrdPairs R l2 ->
  (forall x y, In x l1 -> In y l2 -> R x y) ->
  ForallOrdPairs R (l1 ++ l2).
Proof.
  induction 1 as [|x l1 Hx H1 IH]; intros H2 Hc; simpl; [exact H2|].
  constructor.
  - apply Forall_app. split; [exact Hx|].
    apply Forall_forall. intros y Hy. apply Hc; [now left | exact Hy].
  - apply IH; [exact H2|]. intros a b Ha Hb. apply Hc; [now right | exact Hb].
Qed.

(** In a list without two records of the same occurrence, the enumeration
    [i < j] meets every unordered pair of occurrences at most once. *)
Lemma ordered_pairs_once (c : list func) :
  NoDup (map occ c) ->
  ForallOrdPairs (fun e1 e2 => ~ same_unordered e1 e2) (ordered_pairs c).
Proof.
  induction c as [|x t IH]; simpl; intros ND; [constructor|].
  inversion ND as [|? ? Hx ND']; subst.
  assert (Hxt : forall y, In y t -> occ x <> occ y).
  { intros y Hy E. apply Hx. rewrite E. now apply in_map. }
  apply ForallOrdPairs_app.
  - clear IH Hx ND. induction t as [|y t IHt]; simpl; [constructor|].
    inversion ND' as [|? ? Hy ND'']; subst. constructor.
    + apply Forall_forall. intros e He. apply in_map_iff in He.
      destruct He as [z [<- Hz]]. unfold same_unordered; simpl.
      intros [[_ E]|[E _]].
      * apply Hy. rewrite E. now apply in_map.
      * apply (Hxt z); [now right | exact E].
    + apply IHt; [exact ND''|]. intros z Hz. apply Hxt. now right.
  - now apply IH.
  - intros e1 e2 H1 H2. apply in_map_iff in H1. destruct H1 as [y [<- Hy]].
    destruct e2 as [u v]. apply ordered_pairs_In in H2. destruct H2 as [Hu Hv].
    unfold same_unordered; simpl. intros [[E _]|[E _]].
    + exact (Hxt u Hu E).
    + exact (Hxt v Hv E).
Qed.

Lemma NoDup_map_filter {A B} (f : A -> B) (g : A -> bool) l :
  NoDup (map f l) -> NoDup (map f (filter g l)).
Proof.
  induction l as [|x l IH]; simpl; intros ND; [constructor|].
  inversion ND as [|? ? Hx ND']; subst.
  destruct (g x); simpl; [|now apply IH].
  constructor; [|now apply IH].
  intros H. apply Hx. apply in_map_iff in H. destruct H as [y [E Hy]].
  apply filter_In in Hy. rewrite <- E. apply in_map. tauto.
Qed.

Lemma NoDup_map_inj {A B} (f : A -> B) l x y :
  NoDup (map f l) -> In x l -> In y l -> f x = f y -> x = y.
Proof.
  induction l as [|z l IH]; simpl; intros ND Hx Hy E; [contradiction|].
  inversion ND as [|? ? Hz ND']; subst.
  destruct Hx as [->|Hx], Hy as [->|Hy].
  - reflexivity.
  - exfalso. apply Hz. rewrite E. now apply in_map.
  - exfalso. apply Hz. rewrite <- E. now apply in_map.
  - now apply IH.
Qed.

Lemma NoDup_map_app {A B} (f : A -> B) l1 l2 :
  NoDup (map f l1) -> NoDup (map f l2) ->
  (forall x y, In x l1 -> In y l2 -> f x <> f y) ->
  NoDup (map f (l1 ++ l2)).
Proof.
  induction l1 as [|x l1 IH]; simpl; intros N1 N2 Hd; [exact N2|].
  inversion N1 as [|? ? Hx N1']; subst. constructor.
  - rewrite map_app, in_app_iff. intros [H|H]; [contradiction|].
    apply in_map_iff in H. destruct H as [y [E Hy]].
    apply (Hd x y); [now left | exact Hy | now rewrite E].
  - apply IH; [exact N1' | exact N2|]. intros a b Ha Hb. apply Hd; [now right | exact Hb].
Qed.

(** The candidates of one window hold every occurrence at most once. *)
Lemma candidates_NoDup funcs k :
  NoDup (map occ funcs) -> NoDup (map occ (candidates (make_buckets funcs) k)).
Proof.
  intros ND. unfold candidates. rewrite !bucket_get_make.
  assert (Hdis : forall k1 k2 x y, k1 <> k2 ->
            In x (filter (fun f => (k1 =? key_of f)%Z) funcs) ->
            In y (filter (fun f => (k2 =? key_of f)%Z) funcs) ->
            occ x <> occ y).
  { intros k1 k2 x y Hk Hx Hy E.
    apply filter_In in Hx, Hy. destruct Hx as [Hx Kx], Hy as [Hy Ky].
    apply Z.eqb_eq in Kx, Ky.
    assert (x = y) by (eapply NoDup_map_inj; eauto). subst y. congruence. }
  apply NoDup_map_app; [now apply NoDup_map_filter | |].
  - apply NoDup_map_app; try now apply NoDup_map_filter.
    intros x y. apply (Hdis (k - 1)%Z (k + 1)%Z). lia.
  - intros x y Hx Hy. apply in_app_or in Hy. destruct Hy as [Hy|Hy].
    + apply (Hdis k (k - 1)%Z); [lia | exact Hx | exact Hy].
    + apply (Hdis k (k + 1)%Z); [lia | exact Hx | exact Hy].
Qed.

(** ** Counting the entries that name one pair *)

(** [q] names the unordered pair of occurrences that [e] names. *)
Definition names_same_pair (e q : pair) : bool :=
  (same_occurrence (pair_a q) (pair_a e) && same_occurrence (pair_b q) (pair_b e))
  || (same_occurrence (pair_a q) (pair_b e) && same_occurrence (pair_b q) (pair_a e)).

Lemma names_same_pair_true e q :
  names_same_pair e q = true <-> same_unordered (sides q) (sides e).
Proof.
  unfold names_same_pair, same_unordered, sides; simpl.
  rewrite orb_true_iff, !andb_true_iff, !same_occurrence_true. tauto.
Qed.

Lemma same_unordered_join e1 e2 e :
  same_unordered e1 e -> same_unordered e2 e -> same_unordered e1 e2.
Proof.
  unfold same_unordered.
  intros [[A B]|[A B]] [[C D]|[C D]]; [left | right | right | left];
    split; congruence.
Qed.

Lemma filter_length_perm {A} (f : A -> bool) l l' :
  Permutation l l' -> List.length (filter f l) = List.length (filter f l').
Proof.
  induction 1 as [|x l l' _ IH|x y l|l l' l'' _ IH1 _ IH2]; simpl.
  - reflexivity.
  - destruct (f x); simpl; congruence.
  - destruct (f x), (f y); reflexivity.
  - congruence.
Qed.

Lemma filter_none {A} (f : A -> bool) l :
  (forall x, In x l -> f x = false) -> filter f l = [].
Proof.
  induction l as [|x l IH]; simpl; intros H; [reflexivity|].
  rewrite (H x) by now left. apply IH. intros y Hy. apply H. now right.
Qed.

(** Entries that name one pair are counted at most once in a list that
    holds no unordered pair twice. *)
Lemma reported_once_count e l :
  reported_once l -> List.length (filter (names_same_pair e) l) <= 1.
Proof.
  induction 1 as [|p l Hp _ IH]; simpl; [lia|].
  destruct (names_same_pair e p) eqn:Ep; [|exact IH]. simpl.
  rewrite filter_none; [simpl; lia|].
  intros q Hq. destruct (names_same_pair e q) eqn:Eq; [|reflexivity].
  exfalso. rewrite Forall_forall in Hp. apply (Hp q Hq).
  apply names_same_pair_true in Ep, Eq.
  eapply same_unordered_join; eassumption.
Qed.

(** A bound on what a concatenation of lists holds: each list holds at
    most one match, and only the lists of marked indices hold any. *)
Lemma flat_map_count {K A} (f : A -> bool) (g : K -> list A)
      (mark : K -> bool) keys :
  (forall k, In k keys -> List.length (filter f (g k)) <= 1) ->
  (forall k x, In k keys -> In x (g k) -> f x = true -> mark k = true) ->
  List.length (filter f (flat_map g keys)) <= List.length (filter mark keys).
Proof.
  induction keys as [|k keys IH]; simpl; intros H1 Hm; [lia|].
  rewrite filter_app, length_app.
  assert (IH' : List.length (filter f (flat_map g keys))
                <= List.length (filter mark keys)).
  { apply IH; [intros; apply H1; now right | intros k' x Hk; apply Hm; now right]. }
  destruct (filter f (g k)) as [|x rest] eqn:Ef.
  - simpl. destruct (mark k); simpl; lia.
  - assert (Hx : In x (filter f (g k))) by (rewrite Ef; now left).
    apply filter_In in Hx. destruct Hx as [Hx Hfx].
    rewrite (Hm k x (or_introl eq_refl) Hx Hfx). simpl.
    pose proof (H1 k (or_introl eq_refl)) as L. rewrite Ef in L. simpl in *. lia.
Qed.

(** At most three of any distinct integers are within 1 of [c]. *)
Lemma near_keys_count (c : Z) keys :
  NoDup keys ->
  List.length (filter (fun k => (Z.abs (k - c) <=? 1)%Z) keys) <= 3.
Proof.
  intros ND.
  change 3 with (List.length [(c - 1)%Z; c; (c + 1)%Z]).
  apply NoDup_incl_length.
  - now apply NoDup_filter.
  - intros k Hk. apply filter_In in Hk. destruct Hk as [_ Hk].
    apply Z.leb_le in Hk. simpl.
    assert (k = c - 1 \/ k = c \/ k = c + 1)%Z by lia. intuition.
Qed.

Lemma insert_key_perm k l : Permutation (insert_key k l) (k :: l).
Proof.
  induction l as [|k' l IH]; simpl; [apply Permutation_refl|].
  destruct (k <=? k')%Z; [apply Permutation_refl|].
  eapply Permutation_trans; [apply perm_skip, IH | apply perm_swap].
Qed.

Lemma sorted_keys_perm (buckets : bucket_map) :
  Permutation (sorted_keys buckets) (dd_keys buckets).
Proof.
  unfold sorted_keys. induction (dd_keys buckets) as [|k l IH]; simpl.
  - constructor.
  - eapply Permutation_trans; [apply insert_key_perm | now apply perm_skip].
Qed.

Lemma sorted_keys_NoDup funcs : NoDup (sorted_keys (make_buckets funcs)).
Proof.
  eapply Permutation_NoDup; [apply Permutation_sym, sorted_keys_perm|].
  rewrite make_buckets_fill.
  apply (dd_keys_fill_NoDup Z.eqb Z_eqb_eq). constructor.
Qed.

(** ** The length bound of the specification *)

(** [abs(la - lb) > max(120, 0.35 * min(la, lb))] over the rationals,
    both sides multiplied by 20. *)
Definition length_bound_exceeded (la lb : Z) : Prop :=
  (Z.max 2400 (7 * Z.min la lb) < 20 * Z.abs (la - lb))%Z.

(** No dump is [2^49] characters long or longer. *)
Definition lengths_bounded (funcs : list func) : Prop :=
  forall f, In f funcs -> (len_of f < 2 ^ 49)%Z.

Lemma len_of_nonneg f : (0 <= len_of f)%Z.
Proof. unfold len_of, len. lia. Qed.

(** ** What the loops go through *)

Section WithRatio.
Variable ratio : string -> string -> float.
Variable thr : float.

#[local] Abbreviation examine := (examine ratio thr).
#[local] Abbreviation window := (window ratio thr).
#[local] Abbreviation trace := (trace ratio thr).
#[local] Abbreviation find_pairs := (find_pairs ratio thr).
#[local] Abbreviation main := (main ratio thr).

Lemma window_In buckets k a b v :
  In (a, b, v) (window buckets k)
  <-> In (a, b) (ordered_pairs (candidates buckets k)) /\ v = examine a b.
Proof.
  unfold NearDup.window. rewrite in_map_iff. split.
  - intros [[x y] [E H]]. simpl in E. inversion E; subst. auto.
  - intros [H ->]. exists (a, b). auto.
Qed.

Lemma trace_In funcs a b v :
  In (a, b, v) (trace funcs)
  <-> exists k,
        In k (sorted_keys (make_buckets funcs))
        /\ In (a, b) (ordered_pairs (candidates (make_buckets funcs) k))
        /\ v = examine a b.
Proof.
  unfold NearDup.trace. rewrite in_flat_map. split.
  - intros [k [Hk H]]. apply window_In in H. exists k. tauto.
  - intros [k [Hk H]]. exists k. split; [exact Hk | now apply window_In].
Qed.

Lemma compared_In tr a b :
  In (a, b) (compared tr) <-> exists r kept, In (a, b, Scored r kept) tr.
Proof.
  unfold compared. rewrite in_flat_map. split.
  - intros [[[x y] v] [H Hv]]. destruct v as [| |r kept]; try contradiction.
    destruct Hv as [E|[]]. inversion E; subst. eauto.
  - intros [r [kept H]]. exists (a, b, Scored r kept). split; [exact H|].
    now left.
Qed.

Lemma appended_In tr p :
  In p (appended tr)
  <-> In (pair_a p, pair_b p, Scored (pair_ratio p) true) tr.
Proof.
  unfold appended. rewrite in_flat_map. split.
  - intros [[[x y] v] [H Hv]]. destruct v as [| |r [|]]; try contradiction.
    destruct Hv as [<-|[]]. exact H.
  - intros H. eexists. split; [exact H|]. left. now destruct p.
Qed.

Lemma find_pairs_In funcs p :
  In p (find_pairs funcs)
  <-> In (pair_a p, pair_b p, Scored (pair_ratio p) true) (trace funcs).
Proof. unfold NearDup.find_pairs. now rewrite sort_desc_In, appended_In. Qed.

Lemma candidates_In funcs k f :
  In f (candidates (make_buckets funcs) k)
  <-> In f funcs
      /\ (key_of f = k \/ key_of f = (k - 1)%Z \/ key_of f = (k + 1)%Z).
Proof.
  unfold candidates. rewrite !in_app_iff, !bucket_get_In. tauto.
Qed.

Lemma examine_scored a b r kept :
  examine a b = Scored r kept ->
  same_occurrence a b = false
  /\ too_far (len_of a) (len_of b) = false
  /\ r = ratio (normalized_dump a) (normalized_dump b)
  /\ kept = float_ge r thr.
Proof.
  unfold NearDup.examine, len_of.
  destruct (same_occurrence a b); [discriminate|].
  destruct (too_far _ _); [discriminate|].
  intros E. inversion E; subst. auto.
Qed.

Lemma examine_scores a b :
  same_occurrence a b = false ->
  too_far (len_of a) (len_of b) = false ->
  examine a b
  = Scored (ratio (normalized_dump a) (normalized_dump b))
      (float_ge (ratio (normalized_dump a) (normalized_dump b)) thr).
Proof.
  unfold NearDup.examine, len_of. now intros -> ->.
Qed.

Lemma main_pairs w r :
  main w = Completed r ->
  incl (pairs r) (find_pairs (collect_functions (py_files w)))
  /\ pairs_found r
     = List.length (find_pairs (collect_functions (py_files w))).
Proof.
  unfold NearDup.main. destruct (negb (root_exists w)); [discriminate|].
  intros E.
  replace r with
    {| threshold := thr;
       pairs_found :=
         List.length (find_pairs (collect_functions (py_files w)));
       pairs := firstn 500 (find_pairs (collect_functions (py_files w))) |}
    by congruence.
  split; [|reflexivity].
  intros p Hp. exact (firstn_In 500 _ p Hp).
Qed.

(** ** The claims about the comparison loop *)

(** C7: no entry of [pairs] has the same path and the same line on both
    sides, and a candidate pair with identical path and line is left by
    the first [continue]. *)
Theorem no_self_pairing :
  forall funcs,
    Forall
      (fun p =>
         path (pair_a p) <> path (pair_b p)
         \/ lineno (pair_a p) <> lineno (pair_b p)) (find_pairs funcs)
    /\ Forall
         (fun e =>
            let '(a, b, v) := e in
            path a = path b -> lineno a = lineno b -> v = Same_occurrence)
         (trace funcs).
Proof.
  intros funcs. split; apply Forall_forall.
  - intros p Hp. apply find_pairs_In, trace_In in Hp.
    destruct Hp as (k & _ & _ & Hv). symmetry in Hv.
    apply examine_scored in Hv. now apply same_occurrence_false.
  - intros [[a b] v] He Hpath Hline. apply trace_In in He.
    destruct He as (k & _ & _ & ->). unfold NearDup.examine.
    replace (same_occurrence a b) with true; [reflexivity|].
    symmetry. apply same_occurrence_true. unfold occ. congruence.
Qed.

(** C5: a candidate pair whose ratio was computed is appended to [pairs]
    exactly when the ratio is greater than or equal to the threshold: it
    is kept when the two are equal and dropped when the ratio is below. *)
Theorem threshold_inclusive :
  forall funcs,
    Forall
      (fun e =>
         match e with
         | (a, b, Scored r kept) =>
             r = ratio (normalized_dump a) (normalized_dump b)
             /\ kept = float_ge r thr
             /\ (float_eq r thr = true -> kept = true)
             /\ (float_lt r thr = true -> kept = false)
             /\ (kept = true
                 <-> In {| pair_a := a; pair_b := b; pair_ratio := r |}
                       (find_pairs funcs))
         | _ => True
         end) (trace funcs).
Proof.
  intros funcs. apply Forall_forall. intros [[a b] v] He.
  destruct v as [| |r kept]; [exact I | exact I |].
  pose proof He as He'. apply trace_In in He'.
  destruct He' as (k & _ & _ & Hv). symmetry in Hv.
  pose proof Hv as Hv'. apply examine_scored in Hv'.
  destruct Hv' as (_ & _ & Hr & Hkept).
  split; [exact Hr|]. split; [exact Hkept|].
  split; [intros E; rewrite Hkept; now apply float_eq_ge|].
  split; [intros E; rewrite Hkept; now apply float_lt_not_ge|].
  split.
  - intros ->. apply find_pairs_In. exact He.
  - intros Hp. apply find_pairs_In, trace_In in Hp; simpl in Hp.
    destruct Hp as (k' & _ & _ & Hv'). rewrite Hv in Hv'.
    now inversion Hv'.
Qed.

(** C10: two records whose bucket keys differ by 3 or more are never
    handed to the ratio and never appended to [pairs], whatever the
    threshold and the ratio are, although the length test alone lets such
    pairs through (lengths 1000 and 1340, keys 8 and 11). *)
Theorem far_buckets_never_compared :
  forall funcs a b,
    (3 <= Z.abs (key_of a - key_of b))%Z ->
    ~ In (a, b) (compared (trace funcs))
    /\ (forall r,
          ~ In {| pair_a := a; pair_b := b; pair_ratio := r |}
              (find_pairs funcs))
    /\ (too_far 1000 1340 = false
        /\ (3 <= Z.abs (1000 / 120 - 1340 / 120))%Z).
Proof.
  intros funcs a b Hfar.
  assert (Hwin : forall v, ~ In (a, b, v) (trace funcs)).
  { intros v Hv. apply trace_In in Hv. destruct Hv as (k & _ & Hab & _).
    apply ordered_pairs_In in Hab. destruct Hab as [Ha Hb].
    apply candidates_In in Ha, Hb. lia. }
  split; [|split].
  - intros H. apply compared_In in H. destruct H as (r & kept & H).
    exact (Hwin _ H).
  - intros r H. apply find_pairs_In in H. exact (Hwin _ H).
  - split; [vm_compute; reflexivity | vm_compute; discriminate].
Qed.

Lemma same_occurrence_sym a b : same_occurrence a b = same_occurrence b a.
Proof.
  destruct (same_occurrence a b) eqn:E; symmetry.
  - apply same_occurrence_true. symmetry. now apply same_occurrence_true.
  - destruct (same_occurrence b a) eqn:E'; [|reflexivity].
    apply same_occurrence_true in E'. symmetry in E'.
    apply same_occurrence_true in E'. congruence.
Qed.

Lemma key_of_len f : key_of f = (len_of f / 120)%Z.
Proof. reflexivity. Qed.

Lemma div_bucket_width x : ((x + 120) / 120 = x / 120 + 1)%Z.
Proof.
  replace (x + 120)%Z with (x + 1 * 120)%Z by lia. apply Z.div_add. lia.
Qed.

Lemma adjacent_keys la lb :
  Z.abs (la - lb) = 120%Z -> Z.abs (la / 120 - lb / 120) = 1%Z.
Proof.
  intros H.
  assert (E : la = (lb + 120)%Z \/ lb = (la + 120)%Z) by lia.
  destruct E as [-> | ->]; rewrite div_bucket_width; lia.
Qed.

(** C8: two records of different occurrences whose dump lengths differ by
    exactly 120 lie in adjacent buckets, share the candidate window of the
    first one's key, pass the length test, and are handed to the ratio. *)
Theorem bucket_width_pairs_compared :
  forall funcs a b,
    In a funcs -> In b funcs ->
    Z.abs (len_of a - len_of b) = 120%Z ->
    same_occurrence a b = false ->
    Z.abs (key_of a - key_of b) = 1%Z
    /\ In (key_of a) (sorted_keys (make_buckets funcs))
    /\ In a (candidates (make_buckets funcs) (key_of a))
    /\ In b (candidates (make_buckets funcs) (key_of a))
    /\ too_far (len_of a) (len_of b) = false
    /\ (In (a, b) (compared (trace funcs))
        \/ In (b, a) (compared (trace funcs))).
Proof.
  intros funcs a b Ha Hb Hlen Hocc.
  assert (Hkey : Z.abs (key_of a - key_of b) = 1%Z).
  { rewrite !key_of_len. now apply adjacent_keys. }
  assert (Hk : In (key_of a) (sorted_keys (make_buckets funcs))).
  { apply sorted_keys_make. eauto. }
  assert (Hca : In a (candidates (make_buckets funcs) (key_of a))).
  { apply candidates_In. auto. }
  assert (Hcb : In b (candidates (make_buckets funcs) (key_of a))).
  { apply candidates_In. split; [exact Hb | lia]. }
  assert (Hfar : too_far (len_of a) (len_of b) = false).
  { now apply too_far_bucket_width. }
  assert (Hfar' : too_far (len_of b) (len_of a) = false).
  { apply too_far_bucket_width. lia. }
  assert (Hne : a <> b).
  { intros ->. rewrite Z.sub_diag in Hlen. discriminate. }
  repeat (split; [assumption|]).
  destruct (ordered_pairs_total _ a b Hca Hcb Hne) as [H|H]; [left | right];
    apply compared_In; do 2 eexists; apply trace_In;
    exists (key_of a); (split; [exact Hk|]); (split; [exact H|]);
    symmetry; apply examine_scores; try assumption.
  now rewrite same_occurrence_sym.
Qed.

Lemma appended_window_sides buckets k p :
  In p (appended (window buckets k)) ->
  In (sides p) (ordered_pairs (candidates buckets k)).
Proof.
  intros H. apply appended_In, window_In in H. exact (proj1 H).
Qed.

(** While one bucket key is current, no unordered pair of occurrences is
    appended twice, provided no two records share path and line. *)
Lemma window_reported_once :
  forall funcs k,
    NoDup (map occ funcs) ->
    reported_once (appended (window (make_buckets funcs) k)).
Proof.
  intros funcs k ND. unfold NearDup.window.
  pose proof (ordered_pairs_once _ (candidates_NoDup funcs k ND)) as H.
  induction H as [|e l He Hl IH]; simpl; [constructor|].
  destruct (examine (fst e) (snd e)) as [| |r [|]]; simpl; try exact IH.
  constructor; [|exact IH].
  apply Forall_forall. intros q Hq. apply appended_In in Hq.
  apply in_map_iff in Hq. destruct Hq as [e2 [E H2]].
  injection E as Ea Eb _.
  rewrite Forall_forall in He. pose proof (He e2 H2) as Hn.
  unfold same_unordered, sides in *. simpl. rewrite <- Ea, <- Eb. exact Hn.
Qed.

Lemma appended_flat_map {K} (w : K -> list (func * func * verdict)) keys :
  appended (flat_map w keys) = flat_map (fun k => appended (w k)) keys.
Proof.
  unfold appended. induction keys as [|k keys IH]; simpl; [reflexivity|].
  now rewrite flat_map_app, IH.
Qed.

Lemma find_pairs_sides funcs e :
  In e (find_pairs funcs) -> In (pair_a e) funcs /\ In (pair_b e) funcs.
Proof.
  intros He. apply find_pairs_In, trace_In in He.
  destruct He as (k & _ & Hab & _). apply ordered_pairs_In in Hab.
  destruct Hab as [Ha Hb]. apply candidates_In in Ha, Hb. tauto.
Qed.

(** C1, as the code has it: provided no two records share path and line,
    no unordered pair of occurrences is appended twice while one bucket
    key is current, and an unordered pair is named by at most three
    entries of [pairs] (the keys whose windows hold both records are
    within 1 of the key of either).  Nothing removes a pair that is
    appended again while another key is current. *)
Theorem reported_once_per_window :
  forall funcs,
    NoDup (map occ funcs) ->
    (forall k, reported_once (appended (window (make_buckets funcs) k)))
    /\ (forall e,
          In e (find_pairs funcs) ->
          List.length (filter (names_same_pair e) (find_pairs funcs)) <= 3).
Proof.
  intros funcs ND. split; [intros k; now apply window_reported_once|].
  intros e He. destruct (find_pairs_sides funcs e He) as [Hea _].
  unfold NearDup.find_pairs.
  rewrite (filter_length_perm _ _ _ (sort_desc_perm _ _)).
  unfold NearDup.trace. rewrite appended_flat_map.
  eapply Nat.le_trans;
    [apply flat_map_count
       with (mark := fun k => (Z.abs (k - key_of (pair_a e)) <=? 1)%Z)
    | apply near_keys_count, sorted_keys_NoDup].
  - intros k _. apply reported_once_count, window_reported_once, ND.
  - intros k q _ Hq Hm. apply Z.leb_le.
    apply names_same_pair_true in Hm.
    apply appended_window_sides, ordered_pairs_In in Hq. simpl in Hq.
    destruct Hq as [Ha Hb]. apply candidates_In in Ha, Hb.
    unfold same_unordered, sides in Hm; simpl in Hm.
    destruct Hm as [[E _]|[_ E]].
    + assert (pair_a q = pair_a e) by (eapply NoDup_map_inj; eauto; tauto).
      assert (key_of (pair_a q) = key_of (pair_a e)) by congruence. lia.
    + assert (pair_b q = pair_a e) by (eapply NoDup_map_inj; eauto; tauto).
      assert (key_of (pair_b q) = key_of (pair_a e)) by congruence. lia.
Qed.

(** C6: a candidate pair whose length difference exceeds
    [max(120, 0.35 * min(la, lb))] is left by the second [continue] at the
    latest: the ratio is not computed for it and it is not appended, so
    every pair that is scored or reported is within the bound. *)
Theorem length_filter_before_ratio :
  forall funcs,
    lengths_bounded funcs ->
    Forall
      (fun e =>
         let '(a, b, v) := e in
         length_bound_exceeded (len_of a) (len_of b) ->
         v = Same_occurrence \/ v = Too_far) (trace funcs)
    /\ Forall
         (fun ab => ~ length_bound_exceeded (len_of (fst ab)) (len_of (snd ab)))
         (compared (trace funcs))
    /\ Forall
         (fun p =>
            ~ length_bound_exceeded (len_of (pair_a p)) (len_of (pair_b p)))
         (find_pairs funcs).
Proof.
  intros funcs Hlen.
  assert (Hskip : forall a b v,
            In (a, b, v) (trace funcs) ->
            length_bound_exceeded (len_of a) (len_of b) ->
            v = Same_occurrence \/ v = Too_far).
  { intros a b v He Hex. apply trace_In in He.
    destruct He as (k & _ & Hab & ->).
    apply ordered_pairs_In in Hab. destruct Hab as [Ha Hb].
    apply candidates_In in Ha, Hb.
    pose proof (Hlen a (proj1 Ha)) as La. pose proof (Hlen b (proj1 Hb)) as Lb.
    pose proof (len_of_nonneg a) as Na. pose proof (len_of_nonneg b) as Nb.
    unfold NearDup.examine. destruct (same_occurrence a b); [now left|].
    fold (len_of a) (len_of b).
    rewrite (FloatFacts.too_far_beyond (len_of a) (len_of b)) by auto.
    now right. }
  split; [|split]; apply Forall_forall.
  - intros [[a b] v] He. now apply Hskip.
  - intros [a b] Hc Hex. apply compared_In in Hc.
    destruct Hc as (r & kept & He).
    destruct (Hskip _ _ _ He Hex); discriminate.
  - intros p Hp Hex. apply find_pairs_In in Hp.
    destruct (Hskip _ _ _ Hp Hex); discriminate.
Qed.

End WithRatio.

(** ** Concrete runs *)

(** The records collected from [Samples.padded_files]. *)
Definition padded_funcs (n : nat) (c : Z) : list func :=
  collect_functions (Samples.padded_files n c).

Definition nth_func (i : nat) (funcs : list func) : func :=
  nth i funcs
    {| path := ""; name := ""; lineno := None; normalized_dump := "" |}.

Lemma reported_once_per_window_witness :
  reported_once
    (appended
       (window Samples.ratio_of_identical lit_0_75
          (make_buckets (padded_funcs 5 1)) 1)).
Proof.
  refine (proj1 (reported_once_per_window Samples.ratio_of_identical lit_0_75
                   (padded_funcs 5 1) _) 1%Z).
  vm_compute. repeat constructor; simpl; intuition discriminate.
Defined.

(** C1 fails: [duplicate] of a.py and [duplicate] of b.py lie in bucket 1,
    [padded] of c.py in bucket 2; the pair (a.py, b.py) is appended while
    the key is 1 and again while the key is 2, and both entries reach the
    report. *)
Lemma duplicate_pair_reported :
  exists r,
    main Samples.ratio_of_identical lit_0_75 (Samples.padded_world 5 1)
    = Completed r
    /\ pairs_found r = 2
    /\ ~ reported_once (pairs r).
Proof.
  eexists. split; [reflexivity|]. split; [vm_compute; reflexivity|].
  intros H. vm_compute in H.
  inversion H as [|p l Hp _]; subst.
  inversion Hp as [|q l' Hq _]; subst.
  apply Hq. left. split; reflexivity.
Qed.

Lemma far_buckets_never_compared_witness :
  ~ In (nth_func 0 (padded_funcs 13 1), nth_func 2 (padded_funcs 13 1))
      (compared
         (trace Samples.ratio_of_identical lit_0_75 (padded_funcs 13 1))).
Proof.
  apply (far_buckets_never_compared Samples.ratio_of_identical lit_0_75
           (padded_funcs 13 1)
           (nth_func 0 (padded_funcs 13 1)) (nth_func 2 (padded_funcs 13 1))).
  vm_compute. discriminate.
Defined.

Lemma bucket_width_pairs_compared_witness :
  let funcs := padded_funcs 3 1234567890 in
  In (nth_func 0 funcs, nth_func 2 funcs)
    (compared (trace Samples.ratio_of_identical lit_0_75 funcs))
  \/ In (nth_func 2 funcs, nth_func 0 funcs)
       (compared (trace Samples.ratio_of_identical lit_0_75 funcs)).
Proof.
  intros funcs.
  apply (bucket_width_pairs_compared Samples.ratio_of_identical lit_0_75
           funcs (nth_func 0 funcs) (nth_func 2 funcs)).
  - vm_compute. auto.
  - vm_compute. auto.
  - vm_compute. reflexivity.
  - vm_compute. reflexivity.
Defined.

Lemma length_filter_before_ratio_witness :
  Forall
    (fun ab => ~ length_bound_exceeded (len_of (fst ab)) (len_of (snd ab)))
    (compared (trace Samples.ratio_of_identical lit_0_75 (padded_funcs 5 1))).
Proof.
  refine (proj1 (proj2 (length_filter_before_ratio Samples.ratio_of_identical
                          lit_0_75 (padded_funcs 5 1) _))).
  intros f Hf. vm_compute in Hf.
  destruct Hf as [<-|[<-|[<-|[]]]]; vm_compute; reflexivity.
Defined.

End NearDupSpec.

(* ================================================================== *)
(** * Properties of the name-agnostic normalizer *)
(* ================================================================== *)

Module NormalizerSpec.
Import PyAst PyAstFacts Py NearDup.

(** [st'] has every entry of [st]. *)
Definition extends (st st' : renaming) : Prop :=
  forall x v, assoc x (name_map st) = Some v -> assoc x (name_map st') = Some v.

Lemma extends_refl st : extends st st.
Proof. intros x v H. exact H. Qed.

Lemma extends_trans st1 st2 st3 :
  extends st1 st2 -> extends st2 st3 -> extends st1 st3.
Proof. intros H12 H23 x v H. apply H23, H12, H. Qed.

(** The loop body never changes an entry of [name_map]. *)
Lemma rename_name_extends arg_map st ident :
  extends st (fst (rename_name arg_map st ident)).
Proof.
  unfold rename_name. destruct (literal_name ident); [apply extends_refl|].
  destruct (assoc ident arg_map); [apply extends_refl|].
  destruct (assoc ident (name_map st)) eqn:E; [apply extends_refl|].
  intros x v H. simpl. rewrite assoc_assoc_set.
  destruct (String.eqb x ident) eqn:Ex; [|exact H].
  apply String.eqb_eq in Ex. subst. congruence.
Qed.

Lemma visit_extends arg_map st t : extends st (visit arg_map st t).
Proof.
  unfold visit. destruct (isinstance "Name" t); [|apply extends_refl].
  destruct (id_of t); [apply rename_name_extends | apply extends_refl].
Qed.

Lemma fold_visit_extends arg_map l : forall st,
  extends st (fold_left (visit arg_map) l st).
Proof.
  induction l as [|t l IH]; intros st; simpl; [apply extends_refl|].
  eapply extends_trans; [apply visit_extends | apply IH].
Qed.

(** The placeholder written into a [Name] when it is visited is the one
    any later state of the loop gives for its [id]. *)
Lemma rename_name_stable arg_map st ident st' :
  extends (fst (rename_name arg_map st ident)) st' ->
  snd (rename_name arg_map st' ident) = snd (rename_name arg_map st ident).
Proof.
  unfold rename_name. destruct (literal_name ident); [reflexivity|].
  destruct (assoc ident arg_map); [reflexivity|].
  destruct (assoc ident (name_map st)) eqn:E; simpl; intros H.
  - now rewrite (H _ _ E).
  - rewrite (H ident (placeholder "VAR" (counter st))); [reflexivity|].
    simpl. now rewrite assoc_assoc_set, String.eqb_refl.
Qed.

(** Relabelling from the final state agrees with the in-place update: for
    the node [t] met after the nodes [before], the [id] the loop body
    writes is the one [relabel_node] writes. *)
Lemma relabel_from_final_state arg_map before t after st0 ident :
  id_of t = Some ident ->
  let st := fold_left (visit arg_map) before st0 in
  let final := fold_left (visit arg_map) (before ++ t :: after) st0 in
  isinstance "Name" t = true ->
  snd (rename_name arg_map final ident) = snd (rename_name arg_map st ident).
Proof.
  intros Hid st final Hname. apply rename_name_stable.
  unfold final. rewrite fold_left_app. simpl. fold st.
  unfold visit at 2. rewrite Hname, Hid. apply fold_visit_extends.
Qed.

(** Every [Name] below [n] is met by the walk, so the final state knows
    its placeholder: [relabel] writes into each [Name] what the loop wrote
    when it met that node. *)
Lemma relabel_agrees_with_loop arg_map n t ident :
  is_obj n = true ->
  In t (nodes n) ->
  isinstance "Name" t = true ->
  id_of t = Some ident ->
  exists before after,
    walk n = before ++ t :: after
    /\ snd (rename_name arg_map (name_pass arg_map n) ident)
       = snd (rename_name arg_map
                (fold_left (visit arg_map) before
                   {| name_map := []; counter := 0 |}) ident).
Proof.
  intros Hn Ht Hname Hid.
  assert (Hw : In t (walk n)).
  { eapply Permutation_in; [apply Permutation_sym, walk_perm, Hn | exact Ht]. }
  apply in_split in Hw. destruct Hw as (before & after & Hw).
  exists before, after. split; [exact Hw|].
  unfold name_pass. rewrite Hw.
  now apply relabel_from_final_state.
Qed.

Lemma relabel_agrees_with_loop_witness :
  exists before after,
    walk Samples.def_f1 = before ++ Samples.Name "y" "Store" 2 4 :: after
    /\ snd (rename_name [("x", "ARG0")]
              (name_pass [("x", "ARG0")] Samples.def_f1) "y")
       = snd (rename_name [("x", "ARG0")]
                (fold_left (visit [("x", "ARG0")]) before
                   {| name_map := []; counter := 0 |}) "y").
Proof.
  apply (relabel_agrees_with_loop [("x", "ARG0")] Samples.def_f1
           (Samples.Name "y" "Store" 2 4) "y").
  - reflexivity.
  - vm_compute. do 4 right. left. reflexivity.
  - reflexivity.
  - reflexivity.
Defined.

Lemma assoc_set_absent {A} k (x : A) l :
  assoc k l = None -> assoc_set k x l = (l ++ [(k, x)])%list.
Proof.
  induction l as [|[k' y] l IH]; simpl; [reflexivity|].
  destruct (String.eqb k k'); [discriminate|]. intros H. now rewrite IH.
Qed.

(** ** Numbering in first-occurrence order *)

(** The identifiers that get a [VAR] placeholder, in the order the walk
    first meets them, after [seen]. *)
Fixpoint first_occurrences (arg_map : dict) (seen : list string)
  (l : list value) : list string :=
  match l with
  | [] => []
  | t :: l' =>
      match (if isinstance "Name" t then id_of t else None) with
      | Some ident =>
          if literal_name ident || existsb (String.eqb ident) seen
             || match assoc ident arg_map with Some _ => true | None => false end
          then first_occurrences arg_map seen l'
          else ident :: first_occurrences arg_map (seen ++ [ident]) l'
      | None => first_occurrences arg_map seen l'
      end
  end.

(** [VAR0], [VAR1], ... paired with identifiers. *)
Definition numbered (ids : list string) : dict :=
  combine ids (map (placeholder "VAR") (seq 0 (List.length ids))).

Lemma combine_snoc {A B} (l : list A) (m : list B) x y :
  List.length l = List.length m ->
  combine (l ++ [x]) (m ++ [y]) = (combine l m ++ [(x, y)])%list.
Proof.
  revert m. induction l as [|a l IH]; intros [|b m] H; simpl in *;
    try discriminate; [reflexivity|].
  f_equal. apply IH. lia.
Qed.

Lemma numbered_snoc ids x :
  numbered (ids ++ [x])
  = (numbered ids ++ [(x, placeholder "VAR" (List.length ids))])%list.
Proof.
  unfold numbered. rewrite length_app. simpl.
  rewrite seq_app, map_app. simpl.
  apply combine_snoc. now rewrite length_map, length_seq.
Qed.

Lemma assoc_numbered_none ids x :
  existsb (String.eqb x) ids = false -> assoc x (numbered ids) = None.
Proof.
  unfold numbered. generalize 0 at 1.
  induction ids as [|y ids IH]; intros n; simpl; [reflexivity|].
  intros H. apply orb_false_iff in H. destruct H as [H1 H2].
  rewrite H1. now apply IH.
Qed.

Lemma assoc_numbered_some ids x :
  existsb (String.eqb x) ids = true -> exists v, assoc x (numbered ids) = Some v.
Proof.
  unfold numbered. generalize 0 at 1.
  induction ids as [|y ids IH]; intros n; simpl; [discriminate|].
  destruct (String.eqb x y); [eauto|]. simpl. apply IH.
Qed.

(** The walk numbers the identifiers in the order it first meets them. *)
Lemma fold_visit_numbered arg_map l : forall seen,
  fold_left (visit arg_map) l
    {| name_map := numbered seen; counter := List.length seen |}
  = {| name_map := numbered (seen ++ first_occurrences arg_map seen l);
       counter := List.length (seen ++ first_occurrences arg_map seen l) |}.
Proof.
  induction l as [|t l IH]; intros seen; simpl.
  - now rewrite app_nil_r.
  - unfold visit at 2.
    destruct (isinstance "Name" t); [|apply IH].
    destruct (id_of t) as [ident|]; [|apply IH].
    unfold rename_name. destruct (literal_name ident); simpl; [apply IH|].
    destruct (existsb (String.eqb ident) seen) eqn:Es; simpl.
    + destruct (assoc ident arg_map); simpl; [apply IH|].
      destruct (assoc_numbered_some seen ident Es) as [v ->]. simpl. apply IH.
    + destruct (assoc ident arg_map); simpl; [apply IH|].
      rewrite (assoc_numbered_none seen ident Es). simpl.
      rewrite assoc_set_absent by now apply assoc_numbered_none.
      rewrite <- numbered_snoc.
      replace (S (List.length seen)) with (List.length (seen ++ [ident]))
        by (rewrite length_app; simpl; lia).
      rewrite IH. now rewrite <- app_assoc.
Qed.

Lemma name_pass_first_occurrence arg_map n :
  name_map (name_pass arg_map n) = numbered (first_occurrences arg_map [] (walk n)).
Proof.
  unfold name_pass.
  change {| name_map := []; counter := 0 |}
    with {| name_map := numbered []; counter := List.length (@nil string) |}.
  now rewrite fold_visit_numbered.
Qed.

(** ** The parameter loop *)

Lemma arg_of_set_field a p :
  is_obj a = true -> arg_of (set_field "arg" (Atom (AStr p)) a) = Some p.
Proof.
  destruct a as [x|items|cls fields attrs]; try discriminate. intros _.
  unfold arg_of. simpl. now rewrite assoc_assoc_set.
Qed.

Lemma isinstance_obj cls a : isinstance cls a = true -> is_obj a = true.
Proof. now destruct a. Qed.

(** The parameter loop names the [j]-th [ast.arg] of the list [ARG<j>]. *)
Lemma rename_positional_names l : forall i m,
  Forall (fun a => isinstance "arg" a = true /\ arg_of a <> None) l ->
  snd (rename_positional i l m) = true
  /\ map arg_of (fst (fst (rename_positional i l m)))
     = map (fun j => Some (placeholder "ARG" j)) (seq i (List.length l)).
Proof.
  induction l as [|a l IH]; intros i m Hl; simpl; [auto|].
  inversion Hl as [|? ? [Ha Hx] Hl']; subst.
  rewrite Ha. destruct (arg_of a) as [x|] eqn:Ex; [|congruence].
  specialize (IH (S i) (assoc_set x (placeholder "ARG" i) m) Hl').
  destruct (rename_positional (S i) l (assoc_set x (placeholder "ARG" i) m))
    as [[l'' m''] ok]. simpl in *.
  destruct IH as [-> IH]. split; [reflexivity|].
  rewrite IH. f_equal. apply arg_of_set_field. now apply isinstance_obj in Ha.
Qed.

(** A reference to a parameter gets the parameter's entry of [arg_map],
    and [True], [False] and [None] are left alone. *)
Lemma rename_name_parameter arg_map st ident p :
  literal_name ident = false -> assoc ident arg_map = Some p ->
  rename_name arg_map st ident = (st, p).
Proof. unfold rename_name. now intros -> ->. Qed.

Lemma rename_name_literal arg_map st ident :
  literal_name ident = true -> rename_name arg_map st ident = (st, ident).
Proof. unfold rename_name. now intros ->. Qed.

(** The same identifier gets the same placeholder at each of its
    occurrences, and the specification's example is normalized as
    expected: [y] is met first and becomes [VAR0], the parameter [x]
    becomes [ARG0]. *)
Lemma normalized_f1 :
  normalized_function_body_dump Samples.def_f1
  = Some
      ("FunctionDef(name='FUNC', args=arguments(posonlyargs=[], "
       ++ "args=[arg(arg='ARG0')], kwonlyargs=[], kw_defaults=[], "
       ++ "defaults=[]), body=[Assign(targets=[Name(id='VAR0', "
       ++ "ctx=Store())], value=BinOp(left=Name(id='ARG0', ctx=Load()), "
       ++ "op=Add(), right=Constant(value=1))), Return(value=Name("
       ++ "id='VAR0', ctx=Load()))], decorator_list=[])")%string.
Proof. vm_compute. reflexivity. Qed.

(** C2 fails on [def f(x, ARG0): return x].  The parameter loop maps [x]
    to [ARG0] and [ARG0] to [ARG1] and renames both [arg] nodes; the walk
    then finds the first [arg] node named [ARG0], a key of [arg_map], and
    renames it again, to [ARG1].  Parameter 0 ends up as [ARG1], like
    parameter 1, while the reference to [x] in the body is [ARG0]. *)
Theorem placeholder_parameter_renamed_twice :
  snd (rename_parameters
         (set_field "name" (Atom (AStr "FUNC")) Samples.def_shadow))
  = [("x", "ARG0"); ("ARG0", "ARG1")]
  /\ normalized_function_body_dump Samples.def_shadow
     = Some
         ("FunctionDef(name='FUNC', args=arguments(posonlyargs=[], "
          ++ "args=[arg(arg='ARG1'), arg(arg='ARG1')], kwonlyargs=[], "
          ++ "kw_defaults=[], defaults=[]), body=[Return(value=Name("
          ++ "id='ARG0', ctx=Load()))], decorator_list=[])")%string.
Proof. split; vm_compute; reflexivity. Qed.

End NormalizerSpec.

(* ================================================================== *)
(** * Fatal and per-file errors *)
(* ================================================================== *)

Module ErrorHandlingSpec.
Import PyAst Py.

Section Runs.
Variable sha256_hexdigest : string -> string.
Variable ratio : string -> string -> float.
Variable thr : float.


(** A file that cannot be read or parsed, whatever the exception, gives
    the near-duplicate tool no record; the files after it are scanned. *)
Lemma near_dup_skips_failing_file before rel f after :
  (f = Unreadable \/ exists e, f = Unparsable e) ->
  NearDup.collect_functions (before ++ (rel, f) :: after)
  = NearDup.collect_functions before ++ NearDup.collect_functions after.
Proof.
  intros Hf. unfold NearDup.collect_functions.
  rewrite flat_map_app. simpl.
  destruct Hf as [->|[e ->]]; reflexivity.
Qed.

(** The exact-match tool does the same for an unreadable file and for a
    file that raises [SyntaxError]. *)
Lemma exact_dup_skips_syntax_error rel f files idx :
  (f = Unreadable \/ exists e, f = Unparsable e /\ is_SyntaxError e = true) ->
  ExactDup.index_files sha256_hexdigest ((rel, f) :: files) idx
  = ExactDup.index_files sha256_hexdigest files idx.
Proof.
  intros [->|[e [-> He]]]; simpl; [reflexivity|]. now rewrite He.
Qed.

(** Any other exception of [ast.parse] leaves [extract_functions] and
    ends the run. *)
Lemma exact_dup_aborts_on_other_exception rel e files :
  is_SyntaxError e = false ->
  ExactDup.main sha256_hexdigest
    {| root_exists := true; py_files := (rel, Unparsable e) :: files |}
  = Uncaught e.
Proof.
  intros He. unfold ExactDup.main. simpl. now rewrite He.
Qed.

(** C9 fails for the exact-match tool: on a root whose only file makes
    [ast.parse] raise [MemoryError], the run ends with the uncaught
    exception, a non-zero status and no report, while the near-duplicate
    tool completes with an empty report. *)
Theorem exact_dup_aborts_on_parser_error :
  root_exists Samples.deep_file = true
  /\ ExactDup.main sha256_hexdigest Samples.deep_file = Uncaught MemoryError
  /\ exit_code (ExactDup.main sha256_hexdigest Samples.deep_file) = 1%Z
  /\ output (ExactDup.main sha256_hexdigest Samples.deep_file) = None
  /\ NearDup.main ratio thr Samples.deep_file
     = Completed
         {| NearDup.threshold := thr;
            NearDup.pairs_found := 0;
            NearDup.pairs := [] |}.
Proof. repeat split. Qed.

End Runs.
End ErrorHandlingSpec.

(* ================================================================== *)
(** * The order of binary64 floats *)
(* ================================================================== *)

Module FloatOrder.
Import Py NearDup NearDupSpec.

Lemma Pos_compare_cont_Eq p q : Pos.compare_cont Eq p q = Pos.compare p q.
Proof. reflexivity. Qed.

Ltac cmp_cases :=
  repeat
    match goal with
    | H : context [Pos.compare_cont Eq ?a ?b] |- _ =>
        change (Pos.compare_cont Eq a b) with (Pos.compare a b) in H
    | |- context [Pos.compare_cont Eq ?a ?b] =>
        change (Pos.compare_cont Eq a b) with (Pos.compare a b)
    | H : context [Z.compare ?a ?b] |- _ =>
        destruct (Z.compare_spec a b); try lia; try discriminate
    | |- context [Z.compare ?a ?b] =>
        destruct (Z.compare_spec a b); try lia; try discriminate
    | H : context [Pos.compare ?a ?b] |- _ =>
        destruct (Pos.compare_spec a b); try lia; try discriminate
    | |- context [Pos.compare ?a ?b] =>
        destruct (Pos.compare_spec a b); try lia; try discriminate
    end.

Lemma SFleb_trans x y z :
  SFleb x y = true -> SFleb y z = true -> SFleb x z = true.
Proof.
  unfold SFleb.
  destruct x as [sx|sx| |sx mx ex], y as [sy|sy| |sy my ey],
           z as [sz|sz| |sz mz ez]; simpl;
    try discriminate; try reflexivity;
    repeat match goal with s : bool |- _ => destruct s end; simpl;
    try discriminate; try reflexivity;
    rewrite ?Pos_compare_cont_Eq; intros H1 H2;
    cmp_cases; subst; simpl in *; try reflexivity; try discriminate;
    cmp_cases; try reflexivity; try discriminate.
Qed.

Lemma SFleb_not_nan x y : SFleb x y = true -> x <> S754_nan /\ y <> S754_nan.
Proof.
  unfold SFleb. destruct x, y; simpl; try discriminate; split; discriminate.
Qed.

Lemma SFltb_leb x y : SFltb x y = true -> SFleb x y = true.
Proof. unfold SFltb, SFleb. now destruct (SFcompare x y) as [[]|]. Qed.

Lemma SFcompare_defined x y :
  x <> S754_nan -> y <> S754_nan -> SFcompare x y <> None.
Proof. destruct x, y; simpl; congruence. Qed.

Lemma SFleb_of_not_ltb x y :
  x <> S754_nan -> y <> S754_nan -> SFltb x y = false -> SFleb y x = true.
Proof.
  intros Hx Hy. unfold SFltb, SFleb. rewrite (SFcompare_antisym x y).
  pose proof (SFcompare_defined x y Hx Hy).
  destruct (SFcompare x y) as [[]|]; simpl; congruence.
Qed.

Lemma int_cmp_float_below d d' x :
  (d <= d')%Z -> int_cmp_float d' x = Some Lt -> int_cmp_float d x = Some Lt.
Proof.
  intros Hd. destruct x as [s|s| |s m e]; simpl; try discriminate.
  - intros H. f_equal. injection H as H. apply -> Z.compare_lt_iff in H.
    apply Z.compare_lt_iff. lia.
  - trivial.
  - intros H. f_equal. injection H as H.
    set (v := if s then Z.neg m else Z.pos m) in *. clearbody v.
    destruct (Z.leb_spec 0 e); apply -> Z.compare_lt_iff in H;
      apply Z.compare_lt_iff;
      [eapply Z.le_lt_trans; [exact Hd | exact H]|].
    assert (0 < 2 ^ (- e))%Z by (apply Z.pow_pos_nonneg; lia).
    nia.
Qed.

Lemma too_far_within_bucket_width la lb :
  (Z.abs (la - lb) <= 120)%Z -> too_far la lb = false.
Proof.
  intros Hd. unfold too_far.
  destruct (mul (Int (Z.min la lb)) (Float lit_0_35)) as [z|x] eqn:M;
    [simpl in M; discriminate|].
  unfold max, gt at 2.
  destruct (int_cmp_float 120 x) as [[]|] eqn:C; simpl;
    try (apply Z.ltb_ge; exact Hd).
  now rewrite (int_cmp_float_below _ _ _ Hd C).
Qed.

Lemma too_far_sym la lb : too_far la lb = too_far lb la.
Proof.
  unfold too_far.
  now rewrite (Z.min_comm la lb), <- (Z.abs_opp (la - lb)), Z.opp_sub_distr,
    Z.add_comm.
Qed.

End FloatOrder.

(* ================================================================== *)
(** * The comparison loop: order, thresholds and reach *)
(* ================================================================== *)

Module SearchSpec.
Import PyAst Py PyFacts NearDup NearDupSpec FloatOrder.

(** Insertion into a list in descending order keeps the order, for a
    comparison that is total and transitive on the elements at hand. *)
Section SortedInsert.
Context {A : Type}.
Variable lt : A -> A -> bool.
Variable ge : A -> A -> Prop.
Variable ok : A -> Prop.
Hypothesis lt_ge : forall x y, lt x y = true -> ge y x.
Hypothesis not_lt_ge : forall x y, ok x -> ok y -> lt x y = false -> ge x y.
Hypothesis ge_trans : forall x y z, ge x y -> ge y z -> ge x z.

Lemma insert_desc_ordered x l :
  ok x -> Forall ok l ->
  StronglySorted ge l -> StronglySorted ge (insert_desc lt x l).
Proof.
  intros Hx Hl S. induction S as [|y l S IH F]; simpl.
  - constructor; constructor.
  - inversion Hl as [|? ? Hy Hl']; subst.
    destruct (lt x y) eqn:E.
    + constructor; [now apply IH|].
      eapply Permutation_Forall; [apply Permutation_sym, insert_desc_perm|].
      constructor; [now apply lt_ge | exact F].
    + assert (Gxy : ge x y) by now apply not_lt_ge.
      constructor; [now constructor|].
      constructor; [exact Gxy|].
      eapply Forall_impl; [|exact F]. intros z Hz. now apply ge_trans with y.
Qed.

Lemma sort_desc_ordered l :
  Forall ok l -> StronglySorted ge (sort_desc lt l).
Proof.
  induction l as [|x l IH]; simpl; intros Hl; [constructor|].
  inversion Hl as [|? ? Hx Hl']; subst.
  apply insert_desc_ordered; [exact Hx | | now apply IH].
  eapply Permutation_Forall; [apply Permutation_sym, sort_desc_perm | exact Hl'].
Qed.
End SortedInsert.

Lemma StronglySorted_app_cross {A} (R : A -> A -> Prop) l1 l2 :
  StronglySorted R (l1 ++ l2) ->
  forall x y, In x l1 -> In y l2 -> R x y.
Proof.
  induction l1 as [|a l1 IH]; simpl; intros S x y Hx Hy; [contradiction|].
  inversion S as [|? ? S' F]; subst. destruct Hx as [->|Hx].
  - rewrite Forall_forall in F. apply F. apply in_or_app. now right.
  - now apply IH.
Qed.

(** [p]'s ratio is at least [q]'s. *)
Definition ratio_ge (p q : pair) : Prop :=
  float_ge (pair_ratio p) (pair_ratio q) = true.

Lemma close_keys la lb :
  (Z.abs (la - lb) <= 120)%Z -> (Z.abs (la / 120 - lb / 120) <= 1)%Z.
Proof.
  intros H.
  assert (H1 : (la / 120 <= (lb + 120) / 120)%Z)
    by (apply Z.div_le_mono; lia).
  assert (H2 : (lb / 120 <= (la + 120) / 120)%Z)
    by (apply Z.div_le_mono; lia).
  rewrite div_bucket_width in H1, H2. lia.
Qed.

Section Order.
Variable ratio : string -> string -> float.
Variable thr : float.

(** [pairs] leaves the sort in descending order of ratio, whatever the
    ratios are (a NaN never gets into [pairs]: it fails [r >= threshold]).
    Hence every pair among the first [n] has a ratio at least that of
    every pair after them: the 500 pairs of the JSON report, and the 200
    of the Markdown report, are the best ones. *)
Theorem pairs_sorted_by_ratio funcs :
  StronglySorted ratio_ge (find_pairs ratio thr funcs)
  /\ (forall p q n,
        In p (firstn n (find_pairs ratio thr funcs)) ->
        In q (skipn n (find_pairs ratio thr funcs)) -> ratio_ge p q).
Proof.
  assert (S : StronglySorted ratio_ge (find_pairs ratio thr funcs)).
  { unfold find_pairs.
    apply sort_desc_ordered with (ok := fun p => pair_ratio p <> S754_nan).
    - intros x y H. unfold ratio_lt, float_lt in H. now apply SFltb_leb.
    - intros x y Hx Hy H. unfold ratio_ge, float_ge.
      now apply SFleb_of_not_ltb.
    - intros x y z Hxy Hyz. unfold ratio_ge, float_ge in *.
      eapply SFleb_trans; eassumption.
    - apply Forall_forall. intros p Hp.
      apply appended_In, trace_In in Hp. destruct Hp as (k & _ & _ & Hv).
      symmetry in Hv. apply examine_scored in Hv.
      destruct Hv as (_ & _ & _ & Hk). symmetry in Hk.
      apply SFleb_not_nan in Hk. tauto. }
  split; [exact S|].
  intros p q n Hp Hq. rewrite <- (firstn_skipn n (find_pairs ratio thr funcs)) in S.
  eapply StronglySorted_app_cross; eassumption.
Qed.
End Order.

Section Reach.
Variable ratio : string -> string -> float.

Lemma candidate_pair_compared thr funcs a b k :
  In k (sorted_keys (make_buckets funcs)) ->
  In a (candidates (make_buckets funcs) k) ->
  In b (candidates (make_buckets funcs) k) ->
  same_occurrence a b = false ->
  too_far (len_of a) (len_of b) = false ->
  In (a, b) (compared (trace ratio thr funcs))
  \/ In (b, a) (compared (trace ratio thr funcs)).
Proof.
  intros Hk Ha Hb Hocc Hfar.
  assert (Hne : a <> b).
  { intros ->. assert (E : same_occurrence b b = true)
      by now apply same_occurrence_true. congruence. }
  destruct (ordered_pairs_total _ a b Ha Hb Hne) as [H|H]; [left|right];
    apply compared_In; do 2 eexists; apply trace_In; exists k;
    (split; [exact Hk|]); (split; [exact H|]); symmetry;
    apply examine_scores; trivial.
  - now rewrite same_occurrence_sym.
  - rewrite <- Hfar. apply too_far_sym.
Qed.

(** Bucketing loses no close pair: two records of different occurrences
    whose dump lengths differ by at most 120 are handed to the ratio, in
    one order or the other. *)
Theorem close_lengths_always_compared :
  forall thr funcs a b,
    In a funcs -> In b funcs ->
    (Z.abs (len_of a - len_of b) <= 120)%Z ->
    same_occurrence a b = false ->
    In (a, b) (compared (trace ratio thr funcs))
    \/ In (b, a) (compared (trace ratio thr funcs)).
Proof.
  intros thr funcs a b Ha Hb Hlen Hocc.
  pose proof (close_keys _ _ Hlen) as Hk. rewrite <- !key_of_len in Hk.
  apply candidate_pair_compared with (k := key_of a); trivial.
  - apply sorted_keys_make. now exists a.
  - apply candidates_In. auto.
  - apply candidates_In. split; [exact Hb|]. lia.
  - now apply too_far_within_bucket_width.
Qed.

(** Two records whose bucket keys differ by 2 and that pass the length
    test are handed to the ratio exactly when some record falls in the
    bucket between them: only the window of that middle key holds both. *)
Theorem two_buckets_apart_need_middle_bucket :
  forall thr funcs a b,
    In a funcs -> In b funcs ->
    key_of b = (key_of a + 2)%Z ->
    same_occurrence a b = false ->
    too_far (len_of a) (len_of b) = false ->
    (In (a, b) (compared (trace ratio thr funcs))
     \/ In (b, a) (compared (trace ratio thr funcs)))
    <-> exists c, In c funcs /\ key_of c = (key_of a + 1)%Z.
Proof.
  intros thr funcs a b Ha Hb Hkey Hocc Hfar. split.
  - intros H.
    assert (Hk : exists k,
               In k (sorted_keys (make_buckets funcs))
               /\ In a (candidates (make_buckets funcs) k)
               /\ In b (candidates (make_buckets funcs) k)).
    { destruct H as [H|H]; apply compared_In in H;
        destruct H as (r & kept & H); apply trace_In in H;
        destruct H as (k & Hk & Hab & _); apply ordered_pairs_In in Hab;
        exists k; tauto. }
    destruct Hk as (k & Hk & Hak & Hbk).
    apply candidates_In in Hak, Hbk. apply sorted_keys_make in Hk.
    destruct Hk as (c & Hc & Hck). exists c. split; [exact Hc|]. lia.
  - intros (c & Hc & Hck).
    apply candidate_pair_compared with (k := (key_of a + 1)%Z); trivial.
    + apply sorted_keys_make. now exists c.
    + apply candidates_In. split; [exact Ha|]. lia.
    + apply candidates_In. split; [exact Hb|]. lia.
Qed.

Lemma examine_kept_monotone t1 t2 a b r :
  float_ge t2 t1 = true ->
  examine ratio t2 a b = Scored r true -> examine ratio t1 a b = Scored r true.
Proof.
  intros Ht. unfold examine.
  destruct (same_occurrence a b); [discriminate|].
  destruct (too_far _ _); [discriminate|].
  intros E. injection E as E1 E2. rewrite E1. f_equal.
  unfold float_ge in *. rewrite E1 in E2. eapply SFleb_trans; eassumption.
Qed.

Lemma appended_length_monotone t1 t2 (l : list (func * func)) :
  float_ge t2 t1 = true ->
  List.length
    (appended (map (fun ab => (fst ab, snd ab, examine ratio t2 (fst ab) (snd ab))) l))
  <= List.length
       (appended (map (fun ab => (fst ab, snd ab, examine ratio t1 (fst ab) (snd ab))) l)).
Proof.
  intros Ht. induction l as [|[a b] l IH]; simpl; [lia|].
  unfold appended in *. simpl. rewrite !length_app.
  destruct (examine ratio t2 a b) as [| |r [|]] eqn:E; simpl; try lia.
  rewrite (examine_kept_monotone _ _ _ _ _ Ht E). simpl. lia.
Qed.

(** A higher threshold never adds a pair: every entry of [pairs] under
    [t2] is one under any [t1 <= t2], and [pairs_found] does not grow. *)
Theorem raising_threshold_only_removes_pairs :
  forall t1 t2 funcs,
    float_ge t2 t1 = true ->
    incl (find_pairs ratio t2 funcs) (find_pairs ratio t1 funcs)
    /\ List.length (find_pairs ratio t2 funcs)
       <= List.length (find_pairs ratio t1 funcs).
Proof.
  intros t1 t2 funcs Ht. split.
  - intros p Hp. apply find_pairs_In. apply find_pairs_In in Hp.
    apply trace_In in Hp. destruct Hp as (k & Hk & Hab & Hv).
    apply trace_In. exists k. split; [exact Hk|]. split; [exact Hab|].
    symmetry. symmetry in Hv. eapply examine_kept_monotone; eassumption.
  - unfold find_pairs. rewrite !sort_desc_length. unfold trace.
    induction (sorted_keys (make_buckets funcs)) as [|k ks IH]; simpl; [lia|].
    unfold appended in *. rewrite !flat_map_app, !length_app.
    pose proof (appended_length_monotone t1 t2
                  (ordered_pairs (candidates (make_buckets funcs) k)) Ht) as H.
    unfold appended, window in *. lia.
Qed.
End Reach.

Lemma ordered_pairs_app_cross {A} (l1 l2 : list A) x y :
  In x l1 -> In y l2 -> In (x, y) (ordered_pairs (l1 ++ l2)).
Proof.
  induction l1 as [|z l1 IH]; simpl; [contradiction|].
  intros [->|Hx] Hy; apply in_or_app.
  - left. apply in_map, in_or_app. now right.
  - right. now apply IH.
Qed.

Section BothOrders.
Variable ratio : string -> string -> float.

(** Which pairs are handed to the ratio: those of different occurrences
    that pass the length test and lie both within one bucket of the key of
    some record. *)
Theorem handed_to_the_ratio_iff :
  forall thr funcs a b,
    (In (a, b) (compared (trace ratio thr funcs))
     \/ In (b, a) (compared (trace ratio thr funcs)))
    <-> (In a funcs /\ In b funcs
         /\ same_occurrence a b = false
         /\ too_far (len_of a) (len_of b) = false
         /\ exists c,
              In c funcs
              /\ (Z.abs (key_of c - key_of a) <= 1)%Z
              /\ (Z.abs (key_of c - key_of b) <= 1)%Z).
Proof.
  intros thr funcs a b. split.
  - assert (G : forall x y,
               In (x, y) (compared (trace ratio thr funcs)) ->
               In x funcs /\ In y funcs
               /\ same_occurrence x y = false
               /\ too_far (len_of x) (len_of y) = false
               /\ exists c,
                    In c funcs
                    /\ (Z.abs (key_of c - key_of x) <= 1)%Z
                    /\ (Z.abs (key_of c - key_of y) <= 1)%Z).
    { intros x y H. apply compared_In in H. destruct H as (r & kept & H).
      apply trace_In in H. destruct H as (k & Hk & Hxy & Hv).
      symmetry in Hv. apply examine_scored in Hv.
      destruct Hv as (Hocc & Hfar & _).
      apply ordered_pairs_In in Hxy. destruct Hxy as [Hx Hy].
      apply candidates_In in Hx, Hy. apply sorted_keys_make in Hk.
      destruct Hk as (c & Hc & Hck).
      repeat split; try tauto. exists c. split; [exact Hc|]. lia. }
    intros [H|H]; apply G in H; [exact H|].
    destruct H as (Hb & Ha & Hocc & Hfar & c & Hc & Hcb & Hca).
    rewrite same_occurrence_sym in Hocc. rewrite too_far_sym in Hfar.
    repeat split; trivial. exists c. auto.
  - intros (Ha & Hb & Hocc & Hfar & c & Hc & Hca & Hcb).
    apply candidate_pair_compared with (k := key_of c); trivial.
    + apply sorted_keys_make. now exists c.
    + apply candidates_In. split; [exact Ha|]. lia.
    + apply candidates_In. split; [exact Hb|]. lia.
Qed.

(** Two records in adjacent buckets that pass the two tests are handed to
    the ratio twice, once in each order: as [(a, b)] while the key of [a]
    is current and as [(b, a)] while the key of [b] is; each of the two
    ratios that reaches the threshold adds its own entry to [pairs]. *)
Theorem adjacent_buckets_scored_in_both_orders :
  forall thr funcs a b,
    In a funcs -> In b funcs ->
    key_of b = (key_of a + 1)%Z ->
    same_occurrence a b = false ->
    too_far (len_of a) (len_of b) = false ->
    In (a, b) (compared (trace ratio thr funcs))
    /\ In (b, a) (compared (trace ratio thr funcs))
    /\ (float_ge (ratio (normalized_dump a) (normalized_dump b)) thr = true ->
        In {| pair_a := a; pair_b := b;
              pair_ratio := ratio (normalized_dump a) (normalized_dump b) |}
          (find_pairs ratio thr funcs))
    /\ (float_ge (ratio (normalized_dump b) (normalized_dump a)) thr = true ->
        In {| pair_a := b; pair_b := a;
              pair_ratio := ratio (normalized_dump b) (normalized_dump a) |}
          (find_pairs ratio thr funcs)).
Proof.
  intros thr funcs a b Ha Hb Hkey Hocc Hfar.
  assert (Hocc' : same_occurrence b a = false)
    by now rewrite same_occurrence_sym.
  assert (Hfar' : too_far (len_of b) (len_of a) = false)
    by now rewrite too_far_sym.
  assert (Tab : In (a, b, examine ratio thr a b) (trace ratio thr funcs)).
  { apply trace_In. exists (key_of a). split; [|split; [|reflexivity]].
    - apply sorted_keys_make. now exists a.
    - unfold candidates. apply ordered_pairs_app_cross.
      + now apply bucket_get_In.
      + apply in_or_app. right. apply bucket_get_In. split; [exact Hb|]. lia. }
  assert (Tba : In (b, a, examine ratio thr b a) (trace ratio thr funcs)).
  { apply trace_In. exists (key_of b). split; [|split; [|reflexivity]].
    - apply sorted_keys_make. now exists b.
    - unfold candidates. apply ordered_pairs_app_cross.
      + now apply bucket_get_In.
      + apply in_or_app. left. apply bucket_get_In. split; [exact Ha|]. lia. }
  rewrite (examine_scores ratio thr a b Hocc Hfar) in Tab.
  rewrite (examine_scores ratio thr b a Hocc' Hfar') in Tba.
  split; [apply compared_In; eauto|]. split; [apply compared_In; eauto|].
  split; intros Hge; apply find_pairs_In; cbn [pair_a pair_b pair_ratio];
    rewrite Hge in *; assumption.
Qed.
End BothOrders.

(** ** Concrete runs *)

#[local] Abbreviation padded := (padded_funcs 5 1).

Lemma raising_threshold_only_removes_pairs_witness :
  incl (find_pairs Samples.ratio_of_identical lit_1_0 padded)
    (find_pairs Samples.ratio_of_identical lit_0_75 padded).
Proof.
  apply (proj1 (raising_threshold_only_removes_pairs
                  Samples.ratio_of_identical lit_0_75 lit_1_0 padded eq_refl)).
Defined.

Lemma close_lengths_always_compared_witness :
  In (nth_func 0 padded, nth_func 1 padded)
    (compared (trace Samples.ratio_of_identical lit_0_75 padded))
  \/ In (nth_func 1 padded, nth_func 0 padded)
       (compared (trace Samples.ratio_of_identical lit_0_75 padded)).
Proof.
  apply (close_lengths_always_compared Samples.ratio_of_identical lit_0_75
           padded (nth_func 0 padded) (nth_func 1 padded)).
  - vm_compute. auto.
  - vm_compute. auto.
  - vm_compute. discriminate.
  - vm_compute. reflexivity.
Defined.

Lemma two_buckets_apart_need_middle_bucket_witness :
  let funcs := MoreSamples.spread_funcs in
  In (nth_func 0 funcs, nth_func 1 funcs)
    (compared (trace Samples.ratio_of_identical lit_0_75 funcs))
  \/ In (nth_func 1 funcs, nth_func 0 funcs)
       (compared (trace Samples.ratio_of_identical lit_0_75 funcs)).
Proof.
  intros funcs.
  apply (two_buckets_apart_need_middle_bucket Samples.ratio_of_identical
           lit_0_75 funcs (nth_func 0 funcs) (nth_func 1 funcs)).
  - vm_compute. auto.
  - vm_compute. auto.
  - vm_compute. reflexivity.
  - vm_compute. reflexivity.
  - vm_compute. reflexivity.
  - exists (nth_func 2 funcs). split; [vm_compute; auto | vm_compute; reflexivity].
Defined.

Lemma adjacent_buckets_scored_in_both_orders_witness :
  let funcs := padded_funcs 3 1234567890 in
  In (nth_func 0 funcs, nth_func 2 funcs)
    (compared (trace Samples.ratio_of_identical lit_0_75 funcs))
  /\ In (nth_func 2 funcs, nth_func 0 funcs)
       (compared (trace Samples.ratio_of_identical lit_0_75 funcs)).
Proof.
  intros funcs.
  refine (let H := adjacent_buckets_scored_in_both_orders
                     Samples.ratio_of_identical lit_0_75 funcs
                     (nth_func 0 funcs) (nth_func 2 funcs) _ _ _ _ _ in
          conj (proj1 H) (proj1 (proj2 H))).
  - vm_compute. auto.
  - vm_compute. auto.
  - vm_compute. reflexivity.
  - vm_compute. reflexivity.
  - vm_compute. reflexivity.
Defined.

End SearchSpec.

(* ================================================================== *)
(** * What the normalized dump does not depend on *)
(* ================================================================== *)

Module NormalizerInvariance.
Import PyAst Py PyFacts PyAstFacts NearDup.

(** ** Source positions and the function's own name *)

Section FieldMaps.
Context {A B : Type}.
Variable f : A -> B.

Lemma assoc_map_snd k (l : list (string * A)) :
  assoc k (map (fun kv => let '(k', x) := kv in (k', f x)) l)
  = option_map f (assoc k l).
Proof.
  induction l as [|[k' x] l IH]; simpl; [reflexivity|].
  now destruct (String.eqb k k').
Qed.

Lemma assoc_set_map_snd k x (l : list (string * A)) :
  assoc_set k (f x) (map (fun kv => let '(k', y) := kv in (k', f y)) l)
  = map (fun kv => let '(k', y) := kv in (k', f y)) (assoc_set k x l).
Proof.
  induction l as [|[k' y] l IH]; simpl; [reflexivity|].
  destruct (String.eqb k k'); simpl; [reflexivity|]. now rewrite IH.
Qed.
End FieldMaps.

Lemma assoc_set_twice {A} k (x y : A) l :
  assoc_set k x (assoc_set k y l) = assoc_set k x l.
Proof.
  induction l as [|[k' z] l IH]; simpl.
  - now rewrite String.eqb_refl.
  - destruct (String.eqb k k') eqn:E; simpl; rewrite E; [reflexivity|].
    now rewrite IH.
Qed.

Lemma fold_left_map {A B C} (g : C -> B -> C) (f : A -> B) l c :
  fold_left g (map f l) c = fold_left (fun c x => g c (f x)) l c.
Proof. revert c. induction l; simpl; auto. Qed.

Lemma get_field_erase_attrs k v :
  get_field k (erase_attrs v) = option_map erase_attrs (get_field k v).
Proof. destruct v; simpl; try reflexivity. apply assoc_map_snd. Qed.

Lemma set_field_erase_attrs k x v :
  set_field k (erase_attrs x) (erase_attrs v) = erase_attrs (set_field k x v).
Proof.
  destruct v; simpl; try reflexivity. f_equal.
  apply (assoc_set_map_snd erase_attrs).
Qed.

Lemma isinstance_erase_attrs c v :
  isinstance c (erase_attrs v) = isinstance c v.
Proof. now destruct v. Qed.

Lemma is_obj_erase_attrs v : is_obj (erase_attrs v) = is_obj v.
Proof. now destruct v. Qed.

Lemma arg_of_erase_attrs a : arg_of (erase_attrs a) = arg_of a.
Proof.
  unfold arg_of. rewrite get_field_erase_attrs.
  destruct (get_field "arg" a) as [[[]| |]|]; reflexivity.
Qed.

Lemma id_of_erase_attrs a : id_of (erase_attrs a) = id_of a.
Proof.
  unfold id_of. rewrite get_field_erase_attrs.
  destruct (get_field "id" a) as [[[]| |]|]; reflexivity.
Qed.

Lemma rename_positional_erase_attrs l : forall i m,
  rename_positional i (map erase_attrs l) m
  = let '(l', m', ok) := rename_positional i l m in
    (map erase_attrs l', m', ok).
Proof.
  induction l as [|a l IH]; intros i m; simpl; [reflexivity|].
  rewrite isinstance_erase_attrs, arg_of_erase_attrs.
  destruct (isinstance "arg" a).
  - destruct (arg_of a) as [x|]; [|reflexivity].
    rewrite IH. destruct (rename_positional (S i) l _) as [[l' m'] ok].
    simpl. now rewrite <- set_field_erase_attrs.
  - rewrite IH. now destruct (rename_positional (S i) l m) as [[l' m'] ok].
Qed.

Definition erase_state (st : value * dict) : value * dict :=
  (erase_attrs (fst st), snd st).

Lemma rename_optional_unfold field token arguments m :
  rename_optional field token (arguments, m)
  = match get_field field arguments with
    | None => Some (arguments, m)
    | Some a =>
        if is_none a then Some (arguments, m)
        else
          match arg_of a with
          | Some x =>
              Some (set_field field (set_field "arg" (Atom (AStr token)) a)
                      arguments,
                    assoc_set x token m)
          | None => None
          end
    end.
Proof.
  unfold rename_optional.
  destruct (get_field field arguments) as [[[]| |]|]; reflexivity.
Qed.

Lemma rename_optional_erase_attrs field token st :
  rename_optional field token (erase_state st)
  = option_map erase_state (rename_optional field token st).
Proof.
  destruct st as [arguments m]. unfold erase_state at 1; cbn [fst snd].
  rewrite !rename_optional_unfold, get_field_erase_attrs.
  destruct (get_field field arguments) as [a|]; cbn [option_map];
    [|reflexivity].
  rewrite is_none_erase_attrs, arg_of_erase_attrs.
  destruct (is_none a); [reflexivity|].
  destruct (arg_of a) as [x|]; cbn [option_map]; [|reflexivity].
  unfold erase_state; cbn [fst snd].
  change (Atom (AStr token)) with (erase_attrs (Atom (AStr token))) at 1.
  now rewrite !set_field_erase_attrs.
Qed.

(** The part of the [try] block after the loop over the positional
    parameters. *)
Definition rename_star_parameters (st1 : value * dict) (ok : bool)
  : value * dict :=
  if ok then
    match rename_optional "vararg" "VARARG" st1 with
    | Some st2 =>
        match rename_optional "kwarg" "KWARG" st2 with
        | Some st3 => st3
        | None => st2
        end
    | None => st1
    end
  else st1.

Lemma rename_parameters_unfold n :
  rename_parameters n
  = match get_field "args" n with
    | None => (n, [])
    | Some arguments =>
        match get_field "args" arguments with
        | Some (Lst l) =>
            let '(l', m, ok) := rename_positional 0 l [] in
            let st3 :=
              rename_star_parameters (set_field "args" (Lst l') arguments, m)
                ok in
            (set_field "args" (fst st3) n, snd st3)
        | Some _ => (n, [])
        | None =>
            let st3 := rename_star_parameters (arguments, []) true in
            (set_field "args" (fst st3) n, snd st3)
        end
    end.
Proof. reflexivity. Qed.

Lemma rename_star_parameters_erase_attrs st ok :
  rename_star_parameters (erase_state st) ok
  = erase_state (rename_star_parameters st ok).
Proof.
  unfold rename_star_parameters. destruct ok; [|reflexivity].
  rewrite rename_optional_erase_attrs.
  destruct (rename_optional "vararg" "VARARG" st) as [st2|]; cbn [option_map];
    [|reflexivity].
  rewrite rename_optional_erase_attrs.
  now destruct (rename_optional "kwarg" "KWARG" st2).
Qed.

Lemma rename_parameters_erase_attrs n :
  rename_parameters (erase_attrs n)
  = (erase_attrs (fst (rename_parameters n)), snd (rename_parameters n)).
Proof.
  rewrite !rename_parameters_unfold, get_field_erase_attrs.
  destruct (get_field "args" n) as [arguments|]; cbn [option_map];
    [|reflexivity].
  rewrite get_field_erase_attrs.
  destruct (get_field "args" arguments) as [[a|l|c f0 a0]|];
    cbn [option_map erase_attrs]; try reflexivity.
  - rewrite rename_positional_erase_attrs.
    destruct (rename_positional 0 l []) as [[l' m] ok].
    change (Lst (map erase_attrs l')) with (erase_attrs (Lst l')).
    rewrite set_field_erase_attrs.
    change (erase_attrs (set_field "args" (Lst l') arguments), m)
      with (erase_state (set_field "args" (Lst l') arguments, m)).
    rewrite rename_star_parameters_erase_attrs. cbv zeta.
    unfold erase_state; cbn [fst snd]. now rewrite set_field_erase_attrs.
  - change (erase_attrs arguments, @nil (string * string))
      with (erase_state (arguments, [])).
    rewrite rename_star_parameters_erase_attrs. cbv zeta.
    unfold erase_state; cbn [fst snd]. now rewrite set_field_erase_attrs.
Qed.

Lemma filter_is_obj_erase_attrs items :
  filter is_obj (map erase_attrs items) = map erase_attrs (filter is_obj items).
Proof.
  induction items as [|x l IH]; simpl; [reflexivity|].
  rewrite is_obj_erase_attrs. destruct (is_obj x); simpl; now rewrite IH.
Qed.

Lemma iter_child_nodes_erase_attrs v :
  iter_child_nodes (erase_attrs v) = map erase_attrs (iter_child_nodes v).
Proof.
  destruct v as [a|items|cls fields attrs]; simpl; try reflexivity.
  induction fields as [|[k x] fields IH]; simpl; [reflexivity|].
  rewrite map_app, IH. f_equal.
  destruct x as [a|items|c f a]; simpl; try reflexivity.
  apply filter_is_obj_erase_attrs.
Qed.

Lemma node_count_erase_attrs v : node_count (erase_attrs v) = node_count v.
Proof.
  induction v as [a|items IH|cls fields attrs IH] using value_ind'; simpl.
  - reflexivity.
  - induction IH as [|x l Hx _ IHl]; simpl; [reflexivity|].
    now rewrite Hx, IHl.
  - f_equal. induction IH as [|[k x] l Hx _ IHl]; simpl; [reflexivity|].
    simpl in Hx. now rewrite Hx, IHl.
Qed.

Lemma walk_queue_erase_attrs fuel : forall q,
  walk_queue fuel (map erase_attrs q) = map erase_attrs (walk_queue fuel q).
Proof.
  induction fuel as [|fuel IH]; intros [|x q]; simpl; try reflexivity.
  f_equal. rewrite iter_child_nodes_erase_attrs, <- map_app. apply IH.
Qed.

Lemma walk_erase_attrs v : walk (erase_attrs v) = map erase_attrs (walk v).
Proof.
  unfold walk. rewrite node_count_erase_attrs.
  apply (walk_queue_erase_attrs _ [v]).
Qed.

Lemma visit_erase_attrs m st t : visit m st (erase_attrs t) = visit m st t.
Proof.
  unfold visit. now rewrite isinstance_erase_attrs, id_of_erase_attrs.
Qed.

Lemma name_pass_erase_attrs m n : name_pass m (erase_attrs n) = name_pass m n.
Proof.
  unfold name_pass. rewrite walk_erase_attrs, fold_left_map.
  generalize ({| name_map := []; counter := 0 |}).
  induction (walk n) as [|t l IH]; intros st; simpl; [reflexivity|].
  now rewrite visit_erase_attrs.
Qed.

Lemma relabel_node_erase_attrs m st t :
  relabel_node m st (erase_attrs t) = erase_attrs (relabel_node m st t).
Proof.
  unfold relabel_node.
  rewrite !isinstance_erase_attrs, id_of_erase_attrs, arg_of_erase_attrs.
  destruct (isinstance "Name" t).
  - destruct (id_of t); [|reflexivity]. now rewrite <- set_field_erase_attrs.
  - destruct (isinstance "arg" t); [|reflexivity].
    destruct (arg_of t) as [x|]; [|reflexivity].
    destruct (assoc x m); [|reflexivity]. now rewrite <- set_field_erase_attrs.
Qed.

Lemma relabel_erase_attrs m st v :
  relabel m st (erase_attrs v) = erase_attrs (relabel m st v).
Proof.
  induction v as [a|items IH|cls fields attrs IH] using value_ind'.
  - reflexivity.
  - simpl. f_equal. rewrite !map_map.
    induction IH as [|x l Hx _ IHl]; simpl; [reflexivity|].
    now rewrite Hx, IHl.
  - cbn [erase_attrs relabel].
    rewrite <- relabel_node_erase_attrs. f_equal. cbn [erase_attrs]. f_equal.
    rewrite !map_map.
    induction IH as [|[k x] l Hx _ IHl]; simpl; [reflexivity|].
    simpl in Hx. now rewrite Hx, IHl.
Qed.

Lemma normalized_tree_erase_attrs n :
  dump (normalized_tree (erase_attrs n)) = dump (normalized_tree n).
Proof.
  unfold normalized_tree.
  change (Atom (AStr "FUNC")) with (erase_attrs (Atom (AStr "FUNC"))) at 1.
  rewrite set_field_erase_attrs, rename_parameters_erase_attrs.
  cbn [erase_attrs].
  destruct (rename_parameters (set_field "name" (Atom (AStr "FUNC")) n))
    as [n1 m]; cbn [fst snd].
  now rewrite !dump_strip_positions, name_pass_erase_attrs,
    relabel_erase_attrs, !dump_erase_attrs.
Qed.

Lemma is_function_def_erase_attrs v :
  is_function_def (erase_attrs v) = is_function_def v.
Proof. unfold is_function_def. now rewrite !isinstance_erase_attrs. Qed.

Lemma dump_erase_attrs_eq u v : erase_attrs u = erase_attrs v -> dump u = dump v.
Proof.
  intros E. now rewrite <- (dump_erase_attrs u), E, dump_erase_attrs.
Qed.

Lemma normalized_dump_erase_attrs n :
  normalized_function_body_dump (erase_attrs n)
  = normalized_function_body_dump n.
Proof.
  unfold normalized_function_body_dump. rewrite is_function_def_erase_attrs.
  destruct (is_function_def n); [|reflexivity]. f_equal.
  apply normalized_tree_erase_attrs.
Qed.

Lemma is_function_def_set_field k x v :
  is_function_def (set_field k x v) = is_function_def v.
Proof. now destruct v. Qed.

Lemma normalized_dump_set_name x n :
  normalized_function_body_dump (set_field "name" x n)
  = normalized_function_body_dump n.
Proof.
  unfold normalized_function_body_dump, normalized_tree.
  rewrite is_function_def_set_field.
  replace (set_field "name" (Atom (AStr "FUNC")) (set_field "name" x n))
    with (set_field "name" (Atom (AStr "FUNC")) n); [reflexivity|].
  destruct n; simpl; try reflexivity. now rewrite assoc_set_twice.
Qed.


(** The normalized dump depends neither on where the function stands in
    its file nor on its own name: a function that becomes identical, up to
    source positions, to another one when it is given the name [x] has the
    same normalized dump. *)
Theorem name_and_positions_ignored :
  forall u v x,
    same_modulo_positions (set_field "name" x u) v ->
    normalized_function_body_dump u = normalized_function_body_dump v.
Proof.
  intros u v x H. unfold same_modulo_positions in H.
  rewrite <- (normalized_dump_set_name x u).
  rewrite <- (normalized_dump_erase_attrs (set_field "name" x u)), H.
  apply normalized_dump_erase_attrs.
Qed.

Lemma name_and_positions_ignored_witness :
  normalized_function_body_dump (Samples.def_duplicate 1)
  = normalized_function_body_dump (MoreSamples.def_renamed 9).
Proof.
  apply (name_and_positions_ignored (Samples.def_duplicate 1)
           (MoreSamples.def_renamed 9) (Atom (AStr "renamed"))).
  reflexivity.
Defined.

(** ** The numbering of local names *)

Lemma to_uint_not_nil n : Nat.to_uint n <> Decimal.Nil.
Proof.
  intros E. pose proof (Unsigned.of_to n) as H. rewrite E in H.
  simpl in H. subst n. discriminate.
Qed.

Lemma string_of_nat_injective i j : string_of_nat i = string_of_nat j -> i = j.
Proof.
  unfold string_of_nat. intros E.
  apply (f_equal NilZero.uint_of_string) in E.
  rewrite !NilZero.usu in E by apply to_uint_not_nil.
  injection E as E. now apply Unsigned.to_uint_inj.
Qed.

Lemma append_cancel p s1 s2 : (p ++ s1 = p ++ s2)%string -> s1 = s2.
Proof. induction p as [|c p IH]; simpl; [auto|]. intros [= E]. auto. Qed.

Lemma placeholder_injective prefix i j :
  placeholder prefix i = placeholder prefix j -> i = j.
Proof.
  unfold placeholder. intros E. now apply append_cancel, string_of_nat_injective in E.
Qed.

Lemma assoc_combine_seq {B} (f : nat -> B) x ids : forall s v,
  assoc x (combine ids (map f (seq s (List.length ids)))) = Some v ->
  exists i, nth_error ids i = Some x /\ v = f (s + i)%nat.
Proof.
  induction ids as [|y ids IH]; intros s v; simpl; [discriminate|].
  destruct (String.eqb_spec x y) as [->|N].
  - intros [= <-]. exists 0. split; [reflexivity|]. f_equal. lia.
  - intros H. destruct (IH _ _ H) as (i & Hi & ->). exists (S i).
    split; [exact Hi|]. f_equal. lia.
Qed.

Lemma name_pass_counter arg_map n :
  counter (name_pass arg_map n)
  = List.length (NormalizerSpec.first_occurrences arg_map [] (walk n)).
Proof.
  unfold name_pass.
  change {| name_map := []; counter := 0 |}
    with {| name_map := NormalizerSpec.numbered [];
            counter := List.length (@nil string) |}.
  now rewrite NormalizerSpec.fold_visit_numbered.
Qed.

(** Local names get [VAR0], [VAR1], ... in the order [ast.walk] (breadth
    first) first meets them, and no two of them share a placeholder. *)
Theorem placeholders_number_first_meetings :
  forall arg_map n,
    name_map (name_pass arg_map n)
    = NormalizerSpec.numbered
        (NormalizerSpec.first_occurrences arg_map [] (walk n))
    /\ counter (name_pass arg_map n)
       = List.length (NormalizerSpec.first_occurrences arg_map [] (walk n))
    /\ (forall x y v,
          assoc x (name_map (name_pass arg_map n)) = Some v ->
          assoc y (name_map (name_pass arg_map n)) = Some v -> x = y).
Proof.
  intros arg_map n. split; [apply NormalizerSpec.name_pass_first_occurrence|].
  split; [apply name_pass_counter|].
  intros x y v. rewrite NormalizerSpec.name_pass_first_occurrence.
  unfold NormalizerSpec.numbered.
  intros Hx Hy.
  apply assoc_combine_seq in Hx, Hy.
  destruct Hx as (i & Hi & ->), Hy as (j & Hj & E).
  apply placeholder_injective in E. simpl in E. subst j. congruence.
Qed.

(** ** The normalized tree is a node *)

Lemma is_obj_set_field k x v : is_obj (set_field k x v) = is_obj v.
Proof. now destruct v. Qed.



Lemma is_obj_relabel_node m st t : is_obj (relabel_node m st t) = is_obj t.
Proof.
  unfold relabel_node.
  destruct (isinstance "Name" t).
  - destruct (id_of t); [apply is_obj_set_field | reflexivity].
  - destruct (isinstance "arg" t); [|reflexivity].
    destruct (arg_of t) as [x|]; [|reflexivity].
    destruct (assoc x m); [apply is_obj_set_field | reflexivity].
Qed.

Lemma is_obj_relabel m st v : is_obj (relabel m st v) = is_obj v.
Proof.
  destruct v as [a|items|cls fields attrs]; try reflexivity.
  cbn [relabel]. now rewrite is_obj_relabel_node.
Qed.




(** ** Renaming the identifiers of a function *)

Section Renaming.

(** The renaming: what each identifier is replaced by. *)
Variable sigma : string -> string.

Definition rename_atom (y : value) : value :=
  match y with
  | Atom (AStr s) => Atom (AStr (sigma s))
  | _ => y
  end.

(** The field [k] of a node (the first of that name), renamed when it
    holds a string. *)
Fixpoint rename_field (k : string) (fields : list (string * value))
  : list (string * value) :=
  match fields with
  | [] => []
  | (k', y) :: l =>
      if String.eqb k k' then (k', rename_atom y) :: l
      else (k', y) :: rename_field k l
  end.

Definition rename_fields (cls : string) (fields : list (string * value))
  : list (string * value) :=
  if String.eqb cls "Name" then rename_field "id" fields
  else if String.eqb cls "arg" then rename_field "arg" fields
  else fields.

(** The tree with every [Name.id] and every [arg.arg] renamed. *)
Fixpoint rename_ids (v : value) : value :=
  match v with
  | Atom a => Atom a
  | Lst items => Lst (map rename_ids items)
  | Obj cls fields attrs =>
      Obj cls
        (rename_fields cls
           (map (fun kv => let '(k, x) := kv in (k, rename_ids x)) fields))
        attrs
  end.

(** A dictionary with its keys renamed. *)
Definition rename_keys (m : dict) : dict :=
  map (fun kv => (sigma (fst kv), snd kv)) m.

Definition rename_state (st : renaming) : renaming :=
  {| name_map := rename_keys (name_map st); counter := counter st |}.

(** A value found where a parameter is expected is an [ast.arg] when it is
    a node at all. *)
Definition arg_like (a : value) : bool :=
  match a with
  | Obj cls _ _ => String.eqb cls "arg"
  | _ => true
  end.

Definition field_arg_like (field : string) (arguments : value) : bool :=
  match get_field field arguments with
  | Some a => arg_like a
  | None => true
  end.

(** [n.args.vararg] and [n.args.kwarg] are [ast.arg] nodes or [None]. *)
Definition star_parameters_ok (n : value) : bool :=
  match get_field "args" n with
  | Some arguments =>
      field_arg_like "vararg" arguments && field_arg_like "kwarg" arguments
  | None => true
  end.

(** Every [arg] node whose name is not a key of [arg_map] keeps its name
    under the renaming. *)
Fixpoint args_fixed (m : dict) (v : value) : bool :=
  match v with
  | Atom _ => true
  | Lst items => forallb (args_fixed m) items
  | Obj cls fields attrs =>
      forallb (fun kv => args_fixed m (snd kv)) fields
      && (if isinstance "arg" v then
            match arg_of v with
            | Some x =>
                match assoc x m with
                | Some _ => true
                | None => String.eqb (sigma x) x
                end
            | None => true
            end
          else true)
  end.

(** *** Fields *)

Lemma assoc_rename_field_other k k0 l :
  k <> k0 -> assoc k (rename_field k0 l) = assoc k l.
Proof.
  intros Hk. induction l as [|[k' y] l IH]; simpl; [reflexivity|].
  destruct (String.eqb_spec k0 k') as [->|N]; simpl.
  - destruct (String.eqb_spec k k'); [contradiction | reflexivity].
  - now rewrite IH.
Qed.

Lemma assoc_rename_field_same k l :
  assoc k (rename_field k l) = option_map rename_atom (assoc k l).
Proof.
  induction l as [|[k' y] l IH]; simpl; [reflexivity|].
  destruct (String.eqb k k') eqn:E; simpl; rewrite E; [reflexivity | exact IH].
Qed.

Lemma assoc_set_rename_field_other k k0 x l :
  k <> k0 ->
  assoc_set k x (rename_field k0 l) = rename_field k0 (assoc_set k x l).
Proof.
  intros Hk. induction l as [|[k' y] l IH]; simpl.
  - destruct (String.eqb_spec k0 k); [congruence | reflexivity].
  - destruct (String.eqb_spec k0 k') as [->|N]; simpl.
    + destruct (String.eqb_spec k k'); [contradiction|]. simpl.
      now rewrite String.eqb_refl.
    + destruct (String.eqb_spec k k') as [->|N']; simpl.
      * destruct (String.eqb_spec k0 k'); [contradiction | reflexivity].
      * destruct (String.eqb_spec k0 k'); [contradiction|]. now rewrite IH.
Qed.

Lemma assoc_set_rename_field_same k x l :
  assoc_set k x (rename_field k l) = assoc_set k x l.
Proof.
  induction l as [|[k' y] l IH]; simpl; [reflexivity|].
  destruct (String.eqb k k') eqn:E; simpl; rewrite E; [reflexivity|].
  now rewrite IH.
Qed.

Lemma rename_field_assoc_set_fixed k p l :
  sigma p = p ->
  rename_field k (assoc_set k (Atom (AStr p)) l)
  = assoc_set k (Atom (AStr p)) l.
Proof.
  intros Hp. induction l as [|[k' y] l IH]; simpl.
  - now rewrite String.eqb_refl, Hp.
  - destruct (String.eqb k k') eqn:E; simpl; rewrite E; simpl.
    + now rewrite Hp.
    + now rewrite IH.
Qed.

Lemma rename_field_fixed k l :
  (forall s, assoc k l = Some (Atom (AStr s)) -> sigma s = s) ->
  rename_field k l = l.
Proof.
  induction l as [|[k' y] l IH]; simpl; [reflexivity|].
  destruct (String.eqb k k') eqn:E; intros H.
  - destruct y as [[]| |]; simpl; try reflexivity.
    now rewrite (H s eq_refl).
  - now rewrite IH.
Qed.

Lemma map_rename_field (g : value -> value) k l :
  (forall y, g (rename_atom y) = rename_atom (g y)) ->
  map (fun kv => let '(k', x) := kv in (k', g x)) (rename_field k l)
  = rename_field k (map (fun kv => let '(k', x) := kv in (k', g x)) l).
Proof.
  intros Hg. induction l as [|[k' y] l IH]; simpl; [reflexivity|].
  destruct (String.eqb k k'); simpl; [now rewrite Hg | now rewrite IH].
Qed.

Lemma flat_map_rename_field {X} (h : value -> list X) k l :
  (forall y, h (rename_atom y) = h y) ->
  flat_map (fun kv => h (snd kv)) (rename_field k l)
  = flat_map (fun kv => h (snd kv)) l.
Proof.
  intros Hh. induction l as [|[k' y] l IH]; simpl; [reflexivity|].
  destruct (String.eqb k k'); simpl; [now rewrite Hh | now rewrite IH].
Qed.

Lemma node_count_rename_field k l :
  fold_right (fun kv n => node_count (snd kv) + n) 0 (rename_field k l)
  = fold_right (fun kv n => node_count (snd kv) + n) 0 l.
Proof.
  induction l as [|[k' y] l IH]; simpl; [reflexivity|].
  destruct (String.eqb k k'); simpl; [|now rewrite IH].
  now destruct y as [[]| |].
Qed.

Lemma rename_atom_rename_ids y : rename_atom (rename_ids y) = rename_ids (rename_atom y).
Proof. now destruct y as [[]| |]. Qed.

(** *** The structure of the renamed tree *)

Lemma isinstance_rename_ids c v : isinstance c (rename_ids v) = isinstance c v.
Proof. now destruct v. Qed.

Lemma is_obj_rename_ids v : is_obj (rename_ids v) = is_obj v.
Proof. now destruct v. Qed.

Lemma is_none_rename_ids v : is_none (rename_ids v) = is_none v.
Proof. now destruct v as [[]| |]. Qed.

Lemma assoc_rename_fields_other k cls l :
  k <> "id" -> k <> "arg" -> assoc k (rename_fields cls l) = assoc k l.
Proof.
  intros H1 H2. unfold rename_fields.
  destruct (String.eqb cls "Name"); [now apply assoc_rename_field_other|].
  destruct (String.eqb cls "arg"); [now apply assoc_rename_field_other|].
  reflexivity.
Qed.

Lemma assoc_set_rename_fields_other k x cls l :
  k <> "id" -> k <> "arg" ->
  assoc_set k x (rename_fields cls l) = rename_fields cls (assoc_set k x l).
Proof.
  intros H1 H2. unfold rename_fields.
  destruct (String.eqb cls "Name"); [now apply assoc_set_rename_field_other|].
  destruct (String.eqb cls "arg"); [now apply assoc_set_rename_field_other|].
  reflexivity.
Qed.

Lemma get_field_rename_ids k v :
  k <> "id" -> k <> "arg" ->
  get_field k (rename_ids v) = option_map rename_ids (get_field k v).
Proof.
  intros H1 H2. destruct v as [a|items|cls fields attrs]; try reflexivity.
  cbn [rename_ids get_field].
  rewrite assoc_rename_fields_other by assumption. apply assoc_map_snd.
Qed.

Lemma set_field_rename_ids k x v :
  k <> "id" -> k <> "arg" ->
  set_field k (rename_ids x) (rename_ids v) = rename_ids (set_field k x v).
Proof.
  intros H1 H2. destruct v as [a|items|cls fields attrs]; try reflexivity.
  cbn [rename_ids set_field]. f_equal.
  rewrite assoc_set_rename_fields_other by assumption. f_equal.
  apply (assoc_set_map_snd rename_ids).
Qed.

Lemma arg_of_rename_ids a :
  arg_like a = true -> arg_of (rename_ids a) = option_map sigma (arg_of a).
Proof.
  destruct a as [x|items|cls fields attrs]; try reflexivity.
  cbn [arg_like]. intros E. apply String.eqb_eq in E. subst cls.
  unfold arg_of. cbn [rename_ids get_field]. unfold rename_fields.
  cbn [String.eqb Ascii.eqb Bool.eqb].
  rewrite assoc_rename_field_same, (assoc_map_snd rename_ids).
  destruct (assoc "arg" fields) as [[[]| |]|]; reflexivity.
Qed.

Lemma id_of_rename_ids t :
  isinstance "Name" t = true ->
  id_of (rename_ids t) = option_map sigma (id_of t).
Proof.
  destruct t as [x|items|cls fields attrs]; try discriminate.
  cbn [isinstance]. intros E. apply String.eqb_eq in E. subst cls.
  unfold id_of. cbn [rename_ids get_field]. unfold rename_fields.
  cbn [String.eqb Ascii.eqb Bool.eqb].
  rewrite assoc_rename_field_same, (assoc_map_snd rename_ids).
  destruct (assoc "id" fields) as [[[]| |]|]; reflexivity.
Qed.

Lemma set_arg_rename_ids p a :
  arg_like a = true -> sigma p = p ->
  set_field "arg" (Atom (AStr p)) (rename_ids a)
  = rename_ids (set_field "arg" (Atom (AStr p)) a).
Proof.
  destruct a as [x|items|cls fields attrs]; try reflexivity.
  cbn [arg_like]. intros E Hp. apply String.eqb_eq in E. subst cls.
  cbn [rename_ids set_field]. f_equal. unfold rename_fields.
  cbn [String.eqb Ascii.eqb Bool.eqb].
  rewrite assoc_set_rename_field_same.
  change (Atom (AStr p)) with (rename_ids (Atom (AStr p))) at 2.
  rewrite <- (assoc_set_map_snd rename_ids). cbn [rename_ids].
  now rewrite rename_field_assoc_set_fixed.
Qed.

Lemma filter_is_obj_rename_ids items :
  filter is_obj (map rename_ids items) = map rename_ids (filter is_obj items).
Proof.
  induction items as [|x l IH]; simpl; [reflexivity|].
  rewrite is_obj_rename_ids. destruct (is_obj x); simpl; now rewrite IH.
Qed.

Lemma iter_child_nodes_rename_ids v :
  iter_child_nodes (rename_ids v) = map rename_ids (iter_child_nodes v).
Proof.
  destruct v as [a|items|cls fields attrs]; try reflexivity.
  cbn [rename_ids iter_child_nodes].
  set (h := fun x : value =>
              match x with
              | Obj _ _ _ => [x]
              | Lst items => filter is_obj items
              | Atom _ => []
              end).
  change (flat_map (fun kv => h (snd kv))
            (rename_fields cls
               (map (fun kv => let '(k, x) := kv in (k, rename_ids x)) fields))
          = map rename_ids (flat_map (fun kv => h (snd kv)) fields)).
  assert (Hh : forall y, h (rename_atom y) = h y) by (now intros [[]| |]).
  assert (E : flat_map (fun kv => h (snd kv))
                (rename_fields cls
                   (map (fun kv => let '(k, x) := kv in (k, rename_ids x)) fields))
              = flat_map (fun kv => h (snd kv))
                  (map (fun kv => let '(k, x) := kv in (k, rename_ids x)) fields)).
  { unfold rename_fields.
    destruct (String.eqb cls "Name"); [now apply flat_map_rename_field|].
    destruct (String.eqb cls "arg"); [now apply flat_map_rename_field|].
    reflexivity. }
  rewrite E. clear E.
  induction fields as [|[k x] fields IH]; simpl; [reflexivity|].
  rewrite map_app, IH. f_equal.
  destruct x as [a|items|c f a]; simpl; try reflexivity.
  apply filter_is_obj_rename_ids.
Qed.

Lemma node_count_rename_ids v : node_count (rename_ids v) = node_count v.
Proof.
  induction v as [a|items IH|cls fields attrs IH] using value_ind'.
  - reflexivity.
  - simpl. induction IH as [|x l Hx _ IHl]; simpl; [reflexivity|].
    now rewrite Hx, IHl.
  - cbn [rename_ids node_count]. f_equal.
    assert (E : fold_right (fun kv n => node_count (snd kv) + n) 0
                  (rename_fields cls
                     (map (fun kv => let '(k, x) := kv in (k, rename_ids x))
                        fields))
                = fold_right (fun kv n => node_count (snd kv) + n) 0
                    (map (fun kv => let '(k, x) := kv in (k, rename_ids x))
                       fields)).
    { unfold rename_fields.
      destruct (String.eqb cls "Name"); [apply node_count_rename_field|].
      destruct (String.eqb cls "arg"); [apply node_count_rename_field|].
      reflexivity. }
    rewrite E. clear E.
    induction IH as [|[k x] l Hx _ IHl]; simpl; [reflexivity|].
    simpl in Hx. now rewrite Hx, IHl.
Qed.

Lemma walk_queue_rename_ids fuel : forall q,
  walk_queue fuel (map rename_ids q) = map rename_ids (walk_queue fuel q).
Proof.
  induction fuel as [|fuel IH]; intros [|x q]; simpl; try reflexivity.
  f_equal. rewrite iter_child_nodes_rename_ids, <- map_app. apply IH.
Qed.

Lemma walk_rename_ids v : walk (rename_ids v) = map rename_ids (walk v).
Proof.
  unfold walk. rewrite node_count_rename_ids.
  apply (walk_queue_rename_ids _ [v]).
Qed.

(** *** The renaming is consistent *)

Hypothesis sigma_injective : forall x y, sigma x = sigma y -> x = y.
Hypothesis sigma_literals :
  forall x, literal_name x = true -> sigma x = x.
Hypothesis sigma_ARG : forall i, sigma (placeholder "ARG" i) = placeholder "ARG" i.
Hypothesis sigma_VARARG : sigma "VARARG" = "VARARG".
Hypothesis sigma_KWARG : sigma "KWARG" = "KWARG".

Lemma eqb_sigma x y : String.eqb (sigma x) (sigma y) = String.eqb x y.
Proof.
  destruct (String.eqb_spec x y) as [->|N]; [apply String.eqb_refl|].
  apply String.eqb_neq. intros E. now apply N, sigma_injective.
Qed.

Lemma assoc_rename_keys x (m : dict) :
  assoc (sigma x) (rename_keys m) = assoc x m.
Proof.
  induction m as [|[k v] m IH]; simpl; [reflexivity|].
  rewrite eqb_sigma. now destruct (String.eqb x k).
Qed.

Lemma assoc_set_rename_keys x v (m : dict) :
  assoc_set (sigma x) v (rename_keys m) = rename_keys (assoc_set x v m).
Proof.
  induction m as [|[k w] m IH]; simpl; [reflexivity|].
  rewrite eqb_sigma. destruct (String.eqb x k); simpl; [reflexivity|].
  now rewrite IH.
Qed.

Lemma literal_name_sigma x : literal_name (sigma x) = literal_name x.
Proof.
  destruct (literal_name x) eqn:E; [now rewrite sigma_literals|].
  destruct (literal_name (sigma x)) eqn:E'; [|reflexivity].
  pose proof (sigma_literals _ E') as H. apply sigma_injective in H.
  congruence.
Qed.

Lemma rename_name_sigma m st x :
  rename_name (rename_keys m) (rename_state st) (sigma x)
  = (rename_state (fst (rename_name m st x)),
     snd (rename_name m st x)).
Proof.
  unfold rename_name. rewrite literal_name_sigma.
  destruct (literal_name x) eqn:L; [cbn [fst snd]; now rewrite sigma_literals|].
  rewrite assoc_rename_keys. destruct (assoc x m); [reflexivity|].
  cbn [rename_state name_map counter]. rewrite assoc_rename_keys.
  destruct (assoc x (name_map st)); [reflexivity|]. cbn [fst snd].
  unfold rename_state. cbn [name_map counter].
  now rewrite assoc_set_rename_keys.
Qed.

Lemma visit_rename_ids m st t :
  visit (rename_keys m) (rename_state st) (rename_ids t)
  = rename_state (visit m st t).
Proof.
  unfold visit. rewrite isinstance_rename_ids.
  destruct (isinstance "Name" t) eqn:N; [|reflexivity].
  rewrite (id_of_rename_ids _ N).
  destruct (id_of t) as [x|]; cbn [option_map]; [|reflexivity].
  now rewrite rename_name_sigma.
Qed.

Lemma name_pass_rename_ids m n :
  name_pass (rename_keys m) (rename_ids n) = rename_state (name_pass m n).
Proof.
  unfold name_pass. rewrite walk_rename_ids, fold_left_map.
  change {| name_map := []; counter := 0 |}
    with (rename_state {| name_map := []; counter := 0 |}) at 1.
  generalize ({| name_map := []; counter := 0 |}).
  induction (walk n) as [|t l IH]; intros st; simpl; [reflexivity|].
  now rewrite visit_rename_ids, IH.
Qed.

(** *** Renaming the parameters *)

Lemma rename_positional_rename_ids l : forall i m,
  rename_positional i (map rename_ids l) (rename_keys m)
  = let '(l', m', ok) := rename_positional i l m in
    (map rename_ids l', rename_keys m', ok).
Proof.
  induction l as [|a l IH]; intros i m; simpl; [reflexivity|].
  rewrite isinstance_rename_ids.
  destruct (isinstance "arg" a) eqn:A.
  - assert (AL : arg_like a = true) by (now destruct a).
    rewrite (arg_of_rename_ids _ AL).
    destruct (arg_of a) as [x|]; cbn [option_map]; [|reflexivity].
    rewrite assoc_set_rename_keys, IH.
    destruct (rename_positional (S i) l _) as [[l' m'] ok].
    cbn [map]. now rewrite (set_arg_rename_ids _ _ AL (sigma_ARG i)).
  - rewrite IH. now destruct (rename_positional (S i) l m) as [[l' m'] ok].
Qed.

Definition rename_both (st : value * dict) : value * dict :=
  (rename_ids (fst st), rename_keys (snd st)).

Lemma rename_optional_rename_ids field token st :
  field <> "id" -> field <> "arg" -> sigma token = token ->
  field_arg_like field (fst st) = true ->
  rename_optional field token (rename_both st)
  = option_map rename_both (rename_optional field token st).
Proof.
  intros H1 H2 Ht. destruct st as [arguments m]. unfold rename_both at 1.
  cbn [fst snd]. unfold field_arg_like.
  rewrite !rename_optional_unfold, (get_field_rename_ids _ _ H1 H2).
  destruct (get_field field arguments) as [a|]; cbn [option_map];
    [|reflexivity].
  intros AL. rewrite is_none_rename_ids, (arg_of_rename_ids _ AL).
  destruct (is_none a); [reflexivity|].
  destruct (arg_of a) as [x|]; cbn [option_map]; [|reflexivity].
  unfold rename_both; cbn [fst snd].
  rewrite (set_arg_rename_ids _ _ AL Ht), (set_field_rename_ids _ _ _ H1 H2).
  now rewrite assoc_set_rename_keys.
Qed.

Lemma get_field_set_field_other k k' x v :
  k <> k' -> get_field k (set_field k' x v) = get_field k v.
Proof.
  intros N. destruct v as [a|items|cls fields attrs]; try reflexivity.
  cbn [set_field get_field]. rewrite assoc_assoc_set.
  now destruct (String.eqb_spec k k').
Qed.

Lemma field_arg_like_set_field field k x v :
  field <> k ->
  field_arg_like field (set_field k x v) = field_arg_like field v.
Proof.
  intros N. unfold field_arg_like. now rewrite get_field_set_field_other.
Qed.

Lemma rename_optional_keeps_field field token st st' k :
  k <> field ->
  rename_optional field token st = Some st' ->
  field_arg_like k (fst st') = field_arg_like k (fst st).
Proof.
  intros N. destruct st as [arguments m]. rewrite rename_optional_unfold.
  destruct (get_field field arguments) as [a|].
  - destruct (is_none a); [now intros [= <-]|].
    destruct (arg_of a); [|discriminate]. intros [= <-]. cbn [fst].
    now apply field_arg_like_set_field.
  - now intros [= <-].
Qed.

Lemma rename_star_parameters_rename_ids st ok :
  field_arg_like "vararg" (fst st) = true ->
  field_arg_like "kwarg" (fst st) = true ->
  rename_star_parameters (rename_both st) ok
  = rename_both (rename_star_parameters st ok).
Proof.
  intros Hv Hk. unfold rename_star_parameters. destruct ok; [|reflexivity].
  rewrite rename_optional_rename_ids;
    [|discriminate|discriminate|exact sigma_VARARG|exact Hv].
  destruct (rename_optional "vararg" "VARARG" st) as [st2|] eqn:E2;
    cbn [option_map]; [|reflexivity].
  assert (Hk2 : field_arg_like "kwarg" (fst st2) = true).
  { rewrite (rename_optional_keeps_field "vararg" "VARARG" st st2 "kwarg"
               ltac:(discriminate) E2).
    exact Hk. }
  rewrite rename_optional_rename_ids;
    [|discriminate|discriminate|exact sigma_KWARG|exact Hk2].
  now destruct (rename_optional "kwarg" "KWARG" st2).
Qed.

Lemma rename_parameters_rename_ids n :
  star_parameters_ok n = true ->
  rename_parameters (rename_ids n) = rename_both (rename_parameters n).
Proof.
  unfold star_parameters_ok.
  rewrite !rename_parameters_unfold,
    (get_field_rename_ids "args" n) by discriminate.
  destruct (get_field "args" n) as [arguments|]; cbn [option_map];
    [|reflexivity].
  intros Hok. apply andb_true_iff in Hok. destruct Hok as [Hv Hk].
  rewrite (get_field_rename_ids "args" arguments) by discriminate.
  destruct (get_field "args" arguments) as [[a|l|c f0 a0]|];
    cbn [option_map rename_ids]; try reflexivity.
  - change (@nil (string * string)) with (rename_keys []) at 1.
    rewrite rename_positional_rename_ids.
    destruct (rename_positional 0 l []) as [[l' m] ok].
    change (Lst (map rename_ids l')) with (rename_ids (Lst l')).
    rewrite set_field_rename_ids by discriminate.
    change (rename_ids (set_field "args" (Lst l') arguments), rename_keys m)
      with (rename_both (set_field "args" (Lst l') arguments, m)).
    rewrite rename_star_parameters_rename_ids;
      [|cbn [fst]; rewrite field_arg_like_set_field by discriminate; assumption
       |cbn [fst]; rewrite field_arg_like_set_field by discriminate; assumption].
    cbv zeta. unfold rename_both; cbn [fst snd].
    now rewrite set_field_rename_ids by discriminate.
  - change (rename_ids arguments, @nil (string * string))
      with (rename_both (arguments, [])).
    rewrite rename_star_parameters_rename_ids by assumption.
    cbv zeta. unfold rename_both; cbn [fst snd].
    now rewrite set_field_rename_ids by discriminate.
Qed.

(** *** The relabelled tree *)

Lemma relabel_rename_atom m st y :
  relabel m st (rename_atom y) = rename_atom (relabel m st y).
Proof.
  destruct y as [[]|items|cls fields attrs]; try reflexivity.
  pose proof (is_obj_relabel m st (Obj cls fields attrs)) as H.
  cbn [rename_atom].
  destruct (relabel m st (Obj cls fields attrs)); try discriminate.
  reflexivity.
Qed.

Lemma arg_of_relabel_fields m st cls fields attrs :
  arg_of (Obj cls (map (fun kv => let '(k, x) := kv in (k, relabel m st x)) fields) attrs)
  = arg_of (Obj cls fields attrs).
Proof.
  unfold arg_of. cbn [get_field]. rewrite (assoc_map_snd (relabel m st)).
  destruct (assoc "arg" fields) as [y|]; [|reflexivity]. cbn [option_map].
  destruct y as [[]|items|c f a]; try reflexivity.
  pose proof (is_obj_relabel m st (Obj c f a)) as H.
  destruct (relabel m st (Obj c f a)); try discriminate. reflexivity.
Qed.

Lemma relabel_rename_ids m st v :
  args_fixed m v = true ->
  relabel (rename_keys m) (rename_state st) (rename_ids v) = relabel m st v.
Proof.
  induction v as [a|items IH|cls fields attrs IH] using value_ind'.
  - reflexivity.
  - cbn [args_fixed rename_ids relabel]. intros H. f_equal.
    rewrite map_map. rewrite forallb_forall in H.
    apply map_ext_in. intros x Hx. rewrite Forall_forall in IH.
    apply IH; auto.
  - cbn [args_fixed]. intros H. apply andb_true_iff in H.
    destruct H as [Hf Ha]. cbn [rename_ids relabel].
    set (G := map (fun kv => let '(k, x) := kv in (k, relabel m st x)) fields).
    assert (E : map (fun kv => let '(k, x) := kv in
                       (k, relabel (rename_keys m) (rename_state st) x))
                  (rename_fields cls
                     (map (fun kv => let '(k, x) := kv in (k, rename_ids x))
                        fields))
                = rename_fields cls G).
    { assert (E0 : map (fun kv => let '(k, x) := kv in
                          (k, relabel (rename_keys m) (rename_state st) x))
                     (map (fun kv => let '(k, x) := kv in (k, rename_ids x))
                        fields) = G).
      { unfold G. rewrite map_map. rewrite forallb_forall in Hf.
        apply map_ext_in. intros [k x] Hx. rewrite Forall_forall in IH.
        f_equal. apply (IH (k, x) Hx). exact (Hf (k, x) Hx). }
      unfold rename_fields.
      destruct (String.eqb cls "Name");
        [rewrite map_rename_field by apply relabel_rename_atom; now rewrite E0|].
      destruct (String.eqb cls "arg");
        [rewrite map_rename_field by apply relabel_rename_atom; now rewrite E0|].
      exact E0. }
    rewrite E. clear E.
    unfold relabel_node. cbn [isinstance]. unfold rename_fields.
    destruct (String.eqb_spec cls "Name") as [->|NN].
    + unfold id_of. cbn [get_field]. rewrite assoc_rename_field_same.
      destruct (assoc "id" G) as [[[]| |]|] eqn:EG; cbn [option_map rename_atom];
        try (rewrite rename_field_fixed;
             [reflexivity | intros s' Hs'; congruence]).
      rewrite rename_name_sigma. cbn [snd set_field].
      now rewrite assoc_set_rename_field_same.
    + destruct (String.eqb_spec cls "arg") as [->|NA]; [|reflexivity].
      cbn [isinstance String.eqb Ascii.eqb Bool.eqb] in Ha.
      rewrite <- (arg_of_relabel_fields m st) in Ha. fold G in Ha.
      unfold arg_of in *. cbn [get_field] in *.
      rewrite assoc_rename_field_same.
      destruct (assoc "arg" G) as [[[]| |]|] eqn:EG; cbn [option_map rename_atom];
        try (rewrite rename_field_fixed;
             [reflexivity | intros s' Hs'; congruence]).
      rewrite assoc_rename_keys.
      destruct (assoc s m) as [p|].
      * cbn [set_field]. now rewrite assoc_set_rename_field_same.
      * apply String.eqb_eq in Ha. rewrite rename_field_fixed; [reflexivity|].
        intros s' Hs'. congruence.
Qed.

(** The arguments [normalized_function_body_dump] passes to the renaming
    loop: the tree with its parameters renamed, and [arg_map]. *)
Definition after_parameters (u : value) : value * dict :=
  rename_parameters (set_field "name" (Atom (AStr "FUNC")) u).

Lemma normalized_tree_rename_ids u :
  star_parameters_ok u = true ->
  args_fixed (snd (after_parameters u)) (fst (after_parameters u)) = true ->
  normalized_tree (rename_ids u) = normalized_tree u.
Proof.
  intros Hstar Hfixed. unfold normalized_tree, after_parameters in *.
  change (Atom (AStr "FUNC")) with (rename_ids (Atom (AStr "FUNC"))) at 1.
  rewrite set_field_rename_ids by discriminate.
  rewrite rename_parameters_rename_ids.
  - cbn [rename_ids].
    destruct (rename_parameters (set_field "name" (Atom (AStr "FUNC")) u))
      as [n1 m]. unfold rename_both. cbn [fst snd] in *.
    now rewrite name_pass_rename_ids, relabel_rename_ids.
  - unfold star_parameters_ok in *.
    now rewrite get_field_set_field_other by discriminate.
Qed.

(** Renaming the identifiers of a function consistently does not change
    its normalized dump: the renaming is injective and leaves [True],
    [False], [None] and the placeholders [ARGi], [VARARG], [KWARG] alone;
    the star parameters are [ast.arg] nodes; and every [arg] node that
    [arg_map] does not cover (keyword-only and positional-only parameters,
    parameters of nested functions and lambdas) keeps its name. *)
Theorem consistent_renaming_is_invisible :
  forall u,
    star_parameters_ok u = true ->
    args_fixed (snd (after_parameters u)) (fst (after_parameters u)) = true ->
    normalized_function_body_dump (rename_ids u)
    = normalized_function_body_dump u.
Proof.
  intros u Hstar Hfixed. unfold normalized_function_body_dump.
  assert (E : is_function_def (rename_ids u) = is_function_def u)
    by (unfold is_function_def; now rewrite !isinstance_rename_ids).
  rewrite E. destruct (is_function_def u); [|reflexivity].
  now rewrite normalized_tree_rename_ids.
Qed.

End Renaming.

Lemma swap_injective a b x y : MoreSamples.swap a b x = MoreSamples.swap a b y -> x = y.
Proof.
  unfold MoreSamples.swap.
  destruct (String.eqb_spec x a), (String.eqb_spec x b),
    (String.eqb_spec y a), (String.eqb_spec y b); congruence.
Qed.

Lemma swap_fixes_literals a b x :
  literal_name a = false -> literal_name b = false ->
  literal_name x = true -> MoreSamples.swap a b x = x.
Proof.
  intros Ha Hb Hx. unfold MoreSamples.swap.
  destruct (String.eqb_spec x a); [congruence|].
  destruct (String.eqb_spec x b); [congruence | reflexivity].
Qed.

Lemma consistent_renaming_is_invisible_witness :
  normalized_function_body_dump
    (rename_ids (MoreSamples.swap "x" "a") Samples.def_f1)
  = normalized_function_body_dump Samples.def_f1.
Proof.
  apply (consistent_renaming_is_invisible (MoreSamples.swap "x" "a")).
  - apply swap_injective.
  - intros x Hx. apply swap_fixes_literals; [reflexivity | reflexivity | exact Hx].
  - intros i. reflexivity.
  - reflexivity.
  - reflexivity.
  - reflexivity.
  - reflexivity.
Defined.

End NormalizerInvariance.

(* ================================================================== *)
(** * collect_functions, and the two tools on the same files *)
(* ================================================================== *)

Module CollectSpec.
Import PyAst Py PyFacts PyAstFacts NearDup NearDupSpec FloatOrder SearchSpec.
Import NormalizerInvariance.





Section BothTools.
Variable ratio : string -> string -> float.
Variable thr : float.

End BothTools.


End CollectSpec.

(* ================================================================== *)
(** * iter_py_files and the scan *)
(* ================================================================== *)

Module WalkerSpec.
Import PyAst Py PyFacts Walker.

Lemma ascii_compare_refl c : Ascii.compare c c = Eq.
Proof. unfold Ascii.compare. apply N.compare_refl. Qed.

Lemma ascii_compare_eq c d : Ascii.compare c d = Eq -> c = d.
Proof.
  unfold Ascii.compare. intros H. apply N.compare_eq in H.
  rewrite <- (ascii_N_embedding c), <- (ascii_N_embedding d). now f_equal.
Qed.

Lemma ascii_compare_lt_trans c d e :
  Ascii.compare c d = Lt -> Ascii.compare d e = Lt -> Ascii.compare c e = Lt.
Proof.
  unfold Ascii.compare. rewrite !N.compare_lt_iff. lia.
Qed.

Lemma string_compare_refl s : String.compare s s = Eq.
Proof.
  induction s as [|c s IH]; simpl; [reflexivity|].
  now rewrite ascii_compare_refl.
Qed.

Lemma string_compare_lt_trans s t u :
  String.compare s t = Lt -> String.compare t u = Lt -> String.compare s u = Lt.
Proof.
  revert t u. induction s as [|c s IH]; intros [|d t] [|e u]; simpl;
    try discriminate; try reflexivity.
  destruct (Ascii.compare c d) eqn:C1; try discriminate;
    destruct (Ascii.compare d e) eqn:C2; try discriminate; intros H1 H2.
  - apply ascii_compare_eq in C1, C2. subst. rewrite ascii_compare_refl.
    eapply IH; eassumption.
  - apply ascii_compare_eq in C1. subst. now rewrite C2.
  - apply ascii_compare_eq in C2. subst. now rewrite C1.
  - now rewrite (ascii_compare_lt_trans _ _ _ C1 C2).
Qed.

Lemma path_leb_total p q : path_leb p q = true \/ path_leb q p = true.
Proof.
  revert q. induction p as [|x p IH]; intros [|y q]; simpl; auto.
  rewrite (String.compare_antisym y x).
  destruct (String.compare x y); simpl; auto.
Qed.

Lemma path_leb_antisym p q :
  path_leb p q = true -> path_leb q p = true -> p = q.
Proof.
  revert q. induction p as [|x p IH]; intros [|y q]; simpl;
    try discriminate; try reflexivity.
  rewrite (String.compare_antisym y x).
  destruct (String.compare x y) eqn:C; simpl; try discriminate.
  apply String.compare_eq_iff in C. subst. intros. f_equal. now apply IH.
Qed.

Lemma path_leb_trans p q r :
  path_leb p q = true -> path_leb q r = true -> path_leb p r = true.
Proof.
  revert q r. induction p as [|x p IH]; intros [|y q] [|z r]; simpl;
    try discriminate; try reflexivity.
  destruct (String.compare x y) eqn:C1; try discriminate;
    destruct (String.compare y z) eqn:C2; try discriminate; intros H1 H2.
  - apply String.compare_eq_iff in C1, C2. subst.
    rewrite string_compare_refl. eapply IH; eassumption.
  - apply String.compare_eq_iff in C1. subst. now rewrite C2.
  - apply String.compare_eq_iff in C2. subst. now rewrite C1.
  - now rewrite (string_compare_lt_trans _ _ _ C1 C2).
Qed.

Definition path_le (p q : path) : Prop := path_leb p q = true.

Lemma insert_path_perm p l : Permutation (p :: l) (insert_path p l).
Proof.
  induction l as [|q l IH]; simpl; [reflexivity|].
  destruct (path_leb p q); [reflexivity|].
  rewrite perm_swap. now constructor.
Qed.

Lemma sorted_perm l : Permutation l (sorted l).
Proof.
  induction l as [|p l IH]; simpl; [constructor|].
  rewrite <- insert_path_perm. now constructor.
Qed.

Lemma insert_path_sorted p l :
  StronglySorted path_le l -> StronglySorted path_le (insert_path p l).
Proof.
  intros S. induction S as [|q l S IH F]; simpl.
  - constructor; constructor.
  - destruct (path_leb p q) eqn:E.
    + constructor; [now constructor|]. constructor; [exact E|].
      eapply Forall_impl; [|exact F]. intros r Hr.
      now apply path_leb_trans with q.
    + constructor; [exact IH|].
      eapply Permutation_Forall; [apply insert_path_perm|].
      constructor; [|exact F].
      destruct (path_leb_total p q) as [H|H]; [congruence|exact H].
Qed.

Lemma sorted_sorted l : StronglySorted path_le (sorted l).
Proof.
  induction l as [|p l IH]; simpl; [constructor|].
  now apply insert_path_sorted.
Qed.

Lemma sorted_unique l1 l2 :
  StronglySorted path_le l1 -> StronglySorted path_le l2 ->
  Permutation l1 l2 -> l1 = l2.
Proof.
  intros S1. revert l2. induction S1 as [|x l1 S1 IH F1]; intros l2 S2 P.
  - apply Permutation_nil in P. now subst.
  - destruct S2 as [|y l2 S2 F2].
    + apply Permutation_sym, Permutation_nil in P. discriminate.
    + assert (E : x = y).
      { assert (Hx : In x (y :: l2))
          by (eapply Permutation_in; [exact P | now left]).
        assert (Hy : In y (x :: l1))
          by (eapply Permutation_in; [apply Permutation_sym, P | now left]).
        rewrite Forall_forall in F1, F2.
        destruct Hx as [Hx|Hx]; [now subst|].
        destruct Hy as [Hy|Hy]; [now subst|].
        apply path_leb_antisym; [now apply F1 | now apply F2]. }
      subst y. f_equal. apply IH; [exact S2|].
      eapply Permutation_cons_inv; exact P.
Qed.

Lemma sorted_permutation l1 l2 : Permutation l1 l2 -> sorted l1 = sorted l2.
Proof.
  intros P. apply sorted_unique; try apply sorted_sorted.
  rewrite <- (sorted_perm l1), <- (sorted_perm l2). exact P.
Qed.

Section Scan.
Variable lower : string -> string.

Lemma iter_py_files_permutation root l1 l2 :
  Permutation l1 l2 ->
  Permutation (iter_py_files lower root l1) (iter_py_files lower root l2).
Proof.
  intros P. unfold iter_py_files.
  destruct (root_is_file root && _); [reflexivity|].
  induction P; simpl.
  - constructor.
  - now apply Permutation_app_head.
  - rewrite !app_assoc. apply Permutation_app_tail, Permutation_app_comm.
  - etransitivity; eassumption.
Qed.

(** The order in which [rglob] lists the directory entries does not
    matter: [sorted] puts the files in one order, so two listings of the
    same entries give the same scan. *)
Theorem scan_independent_of_listing_order :
  forall d d',
    disk_root d = disk_root d' ->
    disk_root_exists d = disk_root_exists d' ->
    (forall p, disk_read d p = disk_read d' p) ->
    Permutation (disk_rglob d) (disk_rglob d') ->
    scan lower d = scan lower d'.
Proof.
  intros d d' Hroot Hex Hread P. unfold scan. rewrite Hroot, Hex. f_equal.
  rewrite (sorted_permutation _ _ (iter_py_files_permutation (disk_root d') _ _ P)).
  apply map_ext. intros p. now rewrite Hread.
Qed.

Lemma in_excluded_dir_spec p :
  in_excluded_dir lower p = true
  <-> exists x, In x p /\ In (lower x) excluded_dirs.
Proof.
  unfold in_excluded_dir. rewrite existsb_exists. split.
  - intros (e & He & H). apply existsb_exists in H.
    destruct H as (y & Hy & E). apply String.eqb_eq in E. subst y.
    apply in_map_iff in Hy. destruct Hy as (x & <- & Hx). eauto.
  - intros (x & Hx & He). exists (lower x). split; [exact He|].
    apply existsb_exists. exists (lower x). split; [now apply in_map|].
    apply String.eqb_refl.
Qed.

Lemma relative_to_self root : relative_to root root = [].
Proof. induction root; simpl; auto. Qed.

Lemma relative_to_below root q : relative_to root (root ++ q) = q.
Proof. induction root; simpl; auto. Qed.


Lemma iter_py_files_directory root rglob p :
  root_is_file root && String.eqb (lower (root_suffix root)) ".py" = false ->
  In p (iter_py_files lower root rglob)
  <-> exists c,
        In c rglob /\ cand_is_file c = true
        /\ p = root_parts root ++ cand_parts c
        /\ forall x, In x p -> ~ In (lower x) excluded_dirs.
Proof.
  intros Hroot. unfold iter_py_files. rewrite Hroot, in_flat_map.
  split.
  - intros (c & Hc & Hp). exists c. split; [exact Hc|].
    destruct (cand_is_file c); [|contradiction]. cbn [negb] in Hp.
    destruct (in_excluded_dir lower (root_parts root ++ cand_parts c)) eqn:E;
      [contradiction|].
    destruct Hp as [<-|[]]. split; [reflexivity|]. split; [reflexivity|].
    intros x Hx He.
    assert (in_excluded_dir lower (root_parts root ++ cand_parts c) = true)
      by (apply in_excluded_dir_spec; eauto).
    congruence.
  - intros (c & Hc & Hfile & -> & Hex). exists c. split; [exact Hc|].
    rewrite Hfile. cbn [negb].
    destruct (in_excluded_dir lower (root_parts root ++ cand_parts c)) eqn:E;
      [|now left].
    apply in_excluded_dir_spec in E. destruct E as (x & Hx & He).
    now apply (Hex x).
Qed.

Variable sha256_hexdigest : string -> string.
Variable ratio : string -> string -> float.
Variable thr : float.

(** The excluded names are looked up in all the parts of a path, those of
    the root included: below a root directory with [.git], [__pycache__],
    [.venv], [venv] or [site-packages] (in any letter case) among its own
    parts no file is scanned, and both tools report nothing. *)
Theorem excluded_name_in_root_hides_the_tree :
  forall d x,
    root_is_file (disk_root d)
      && String.eqb (lower (root_suffix (disk_root d))) ".py" = false ->
    In x (root_parts (disk_root d)) ->
    In (lower x) excluded_dirs ->
    py_files (scan lower d) = []
    /\ (disk_root_exists d = true ->
        ExactDup.main sha256_hexdigest (scan lower d)
        = Completed {| ExactDup.duplicate_groups := 0;
                       ExactDup.groups := [] |}
        /\ NearDup.main ratio thr (scan lower d)
           = Completed {| NearDup.threshold := thr;
                          NearDup.pairs_found := 0;
                          NearDup.pairs := [] |}).
Proof.
  intros d x Hroot Hx He.
  assert (E : iter_py_files lower (disk_root d) (disk_rglob d) = []).
  { destruct (iter_py_files lower (disk_root d) (disk_rglob d)) as [|p l] eqn:E;
      [reflexivity|].
    assert (Hp : In p (iter_py_files lower (disk_root d) (disk_rglob d)))
      by (rewrite E; now left).
    apply (iter_py_files_directory _ _ _ Hroot) in Hp.
    destruct Hp as (c & _ & _ & -> & Hex).
    destruct (Hex x); [apply in_or_app; now left | exact He]. }
  assert (F : py_files (scan lower d) = [])
    by (unfold scan; cbn [py_files]; now rewrite E).
  split; [exact F|]. intros Hexists.
  unfold ExactDup.main, NearDup.main. rewrite F.
  unfold scan; cbn [root_exists]. rewrite Hexists. split; reflexivity.
Qed.

(** A root that is itself a [.py] file (suffix in any letter case) is
    scanned whatever directories it lies in, and its functions are
    reported under the path ["."]. *)
Theorem single_file_root_is_reported_as_dot :
  forall d,
    root_is_file (disk_root d)
      && String.eqb (lower (root_suffix (disk_root d))) ".py" = true ->
    py_files (scan lower d)
    = [(".", disk_read d (root_parts (disk_root d)))].
Proof.
  intros d Hroot. unfold scan; cbn [py_files]. unfold iter_py_files.
  rewrite Hroot. cbn [sorted fold_right insert_path map]. unfold rel.
  now rewrite relative_to_self.
Qed.

(** Below a root directory the scan reads exactly the entries of [rglob]
    that are files and have no excluded name among the parts of their
    path, in ascending order of path, each under its path relative to the
    root with [/] as separator. *)
Theorem scanned_files :
  forall d,
    root_is_file (disk_root d)
      && String.eqb (lower (root_suffix (disk_root d))) ".py" = false ->
    exists below,
      py_files (scan lower d)
      = map (fun q =>
               (replace_backslash
                  match q with [] => "." | _ => PyAst.join "/" q end,
                disk_read d (root_parts (disk_root d) ++ q))) below
      /\ StronglySorted path_le
           (map (app (root_parts (disk_root d))) below)
      /\ forall q,
           In q below
           <-> exists c,
                 In c (disk_rglob d) /\ cand_is_file c = true
                 /\ q = cand_parts c
                 /\ forall x,
                      In x (root_parts (disk_root d) ++ q) ->
                      ~ In (lower x) excluded_dirs.
Proof.
  intros d Hroot.
  set (root := root_parts (disk_root d)).
  set (L := sorted (iter_py_files lower (disk_root d) (disk_rglob d))).
  assert (HL : forall p, In p L <-> exists c,
               In c (disk_rglob d) /\ cand_is_file c = true
               /\ p = root ++ cand_parts c
               /\ forall x, In x p -> ~ In (lower x) excluded_dirs).
  { intros p. unfold root.
    rewrite <- (iter_py_files_directory (disk_root d) (disk_rglob d) p Hroot).
    unfold L.
    split; apply Permutation_in;
      [apply Permutation_sym, sorted_perm | apply sorted_perm]. }
  assert (E : L = map (app root) (map (relative_to root) L)).
  { rewrite map_map. rewrite <- (map_id L) at 1. apply map_ext_in.
    intros p Hp. apply HL in Hp. destruct Hp as (c & _ & _ & -> & _).
    now rewrite relative_to_below. }
  exists (map (relative_to root) L). split; [|split].
  - unfold scan; cbn [py_files]. fold L. fold root. rewrite map_map.
    apply map_ext_in. intros p Hp. apply HL in Hp.
    destruct Hp as (c & _ & _ & -> & _). unfold rel.
    rewrite !relative_to_below. now destruct (cand_parts c).
  - fold root. rewrite <- E. apply sorted_sorted.
  - intros q. rewrite in_map_iff. split.
    + intros (p & <- & Hp). apply HL in Hp.
      destruct Hp as (c & Hc & Hf & -> & Hex). exists c.
      rewrite relative_to_below. fold root. auto.
    + intros (c & Hc & Hf & -> & Hex). exists (root ++ cand_parts c).
      split; [apply relative_to_below|]. apply HL. exists c. auto.
Qed.

End Scan.

(** ** Concrete scans *)

Lemma scan_independent_of_listing_order_witness :
  scan MoreSamples.lower (MoreSamples.repo_disk MoreSamples.repo_listing)
  = scan MoreSamples.lower
      (MoreSamples.repo_disk (rev MoreSamples.repo_listing)).
Proof.
  apply (scan_independent_of_listing_order MoreSamples.lower
           (MoreSamples.repo_disk MoreSamples.repo_listing)
           (MoreSamples.repo_disk (rev MoreSamples.repo_listing))).
  - reflexivity.
  - reflexivity.
  - intros p. reflexivity.
  - apply Permutation_rev.
Defined.

Lemma excluded_name_in_root_hides_the_tree_witness :
  py_files (scan MoreSamples.lower MoreSamples.venv_disk) = [].
Proof.
  apply (excluded_name_in_root_hides_the_tree MoreSamples.lower
           Samples.plain_hash Samples.ratio_of_identical lit_0_75
           MoreSamples.venv_disk ".venv").
  - reflexivity.
  - simpl. auto.
  - simpl. auto.
Defined.

Lemma single_file_root_is_reported_as_dot_witness :
  py_files (scan MoreSamples.lower MoreSamples.file_disk)
  = [(".", Parsed [Samples.def_duplicate 1])].
Proof.
  apply (single_file_root_is_reported_as_dot MoreSamples.lower
           MoreSamples.file_disk).
  reflexivity.
Defined.

Lemma scanned_files_witness :
  let d := MoreSamples.repo_disk MoreSamples.repo_listing in
  exists below,
    py_files (scan MoreSamples.lower d)
    = map (fun q =>
             (replace_backslash
                match q with [] => "." | _ => PyAst.join "/" q end,
              disk_read d (root_parts (disk_root d) ++ q))) below
    /\ StronglySorted path_le (map (app (root_parts (disk_root d))) below)
    /\ forall q,
         In q below
         <-> exists c,
               In c (disk_rglob d) /\ cand_is_file c = true
               /\ q = cand_parts c
               /\ forall x,
                    In x (root_parts (disk_root d) ++ q) ->
                    ~ In (MoreSamples.lower x) excluded_dirs.
Proof.
  exact (scanned_files MoreSamples.lower
           (MoreSamples.repo_disk MoreSamples.repo_listing) eq_refl).
Defined.

End WalkerSpec.

(* ================================================================== *)
(** * The Markdown reports *)
(* ================================================================== *)

Module MarkdownSpec.
Import PyAst Py PyFacts PyAstFacts.

Section MarkdownReports.
Variable now : string.
Variable str_float : float -> string.
Variable format_2f : float -> string.
Variable sha256_hexdigest : string -> string.
Variable ratio : string -> string -> float.
Variable thr : float.

(** The Markdown report of the exact-match tool never shows a line
    number: the line recorded for an occurrence is [None], and
    [occ.get('lineno') or '-'] prints the dash. *)
Theorem exact_markdown_has_no_line_numbers :
  forall w r,
    ExactDup.main sha256_hexdigest w = Completed r ->
    Forall
      (fun g =>
         Forall
           (fun o =>
              Markdown.occurrence_line o
              = ("- `" ++ ExactDup.path o ++ "`:- — `" ++ ExactDup.name o
                 ++ "`")%string) (ExactDup.occurrences g))
      (ExactDup.groups r).
Proof.
  intros w r. unfold ExactDup.main.
  destruct (negb (root_exists w)); [discriminate|].
  destruct (ExactDup.index_files sha256_hexdigest (py_files w) []) as [e|idx] eqn:Hidx;
    [discriminate|].
  intros E. injection E as <-. cbn [ExactDup.groups].
  apply Forall_forall. intros g Hg. apply ExactDupSpec.dupes_of_In in Hg.
  destruct Hg as [Hg _]. apply Forall_forall. intros o Ho.
  assert (Hget : ExactDup.occurrences g
                 = dd_get String.eqb (ExactDup.function_hash g) idx).
  { symmetry. apply (dd_In_get String.eqb ExactDupSpec.string_eqb_eq);
      [|exact Hg].
    eapply ExactDupSpec.index_files_NoDup; exact Hidx. }
  rewrite Hget in Ho.
  unfold Markdown.occurrence_line.
  now rewrite (ExactDupSpec.occurrence_lineno_is_none _ _ _ _ _ Hidx Ho).
Qed.

(** The Markdown report of the near-duplicate tool can be read off the
    JSON payload: it states the threshold and the total [pairs_found], and
    lists the first 200 of the JSON report's pairs, which itself keeps the
    first 500. *)
Theorem near_markdown_lists_first_200 :
  forall w r,
    NearDup.main ratio thr w = Completed r ->
    Markdown.near_lines now str_float format_2f
      (NearDup.find_pairs ratio thr (NearDup.collect_functions (py_files w)))
      thr
    = ["# Near-duplicate functions report"; "";
       ("> Generated at (UTC): `" ++ now ++ "`")%string; "";
       ("> Similarity threshold: **" ++ str_float (NearDup.threshold r)
        ++ "**")%string; "";
       ("Pairs found: **" ++ string_of_nat (NearDup.pairs_found r)
        ++ "**")%string; ""]
      ++ map (Markdown.pair_line format_2f) (firstn 200 (NearDup.pairs r))
      ++ [""; "---"; ""]
    /\ List.length
         (Markdown.near_lines now str_float format_2f
            (NearDup.find_pairs ratio thr
               (NearDup.collect_functions (py_files w))) thr)
       = 11 + Nat.min 200 (NearDup.pairs_found r)
    /\ List.length (NearDup.pairs r) = Nat.min 500 (NearDup.pairs_found r).
Proof.
  intros w r. unfold NearDup.main.
  destruct (negb (root_exists w)); [discriminate|].
  set (all := NearDup.find_pairs ratio thr _). intros E.
  replace r
    with {| NearDup.threshold := thr;
            NearDup.pairs_found := List.length all;
            NearDup.pairs := firstn 500 all |} by congruence.
  cbn [NearDup.threshold NearDup.pairs_found NearDup.pairs].
  rewrite firstn_firstn. change (Nat.min 200 500) with 200.
  split; [reflexivity|]. split; [|apply length_firstn].
  unfold Markdown.near_lines.
  rewrite !length_app, length_map, length_firstn. cbn [List.length]. lia.
Qed.
End MarkdownReports.

(** ** Concrete reports *)

Lemma exact_markdown_has_no_line_numbers_witness :
  exists r,
    ExactDup.main Samples.plain_hash Samples.three_files = Completed r
    /\ Forall
         (fun g =>
            Forall
              (fun o =>
                 Markdown.occurrence_line o
                 = ("- `" ++ ExactDup.path o ++ "`:- — `" ++ ExactDup.name o
                    ++ "`")%string) (ExactDup.occurrences g))
         (ExactDup.groups r).
Proof.
  eexists. split; [reflexivity|].
  eapply (exact_markdown_has_no_line_numbers Samples.plain_hash
            Samples.three_files).
  reflexivity.
Defined.

Lemma near_markdown_lists_first_200_witness :
  exists r,
    NearDup.main Samples.ratio_of_identical lit_0_75
      (Samples.padded_world 5 1) = Completed r
    /\ List.length (NearDup.pairs r) = Nat.min 500 (NearDup.pairs_found r).
Proof.
  eexists. split; [reflexivity|].
  refine (proj2 (proj2 (near_markdown_lists_first_200 MoreSamples.noon
                          MoreSamples.no_digits MoreSamples.no_digits
                          Samples.ratio_of_identical lit_0_75
                          (Samples.padded_world 5 1) _ eq_refl))).
Defined.

End MarkdownSpec.
